(** * Markov clustering: the numeric pipeline of [markov_clustering/mcl.py]

    A shallow embedding of the module's functions ([sparse_allclose],
    [normalize], [inflate], [expand], [add_self_loops], [prune],
    [converged], [iterate], [run_mcl]) together with the parts of numpy,
    scipy.sparse and scikit-learn that they call.

    Matrix entries are exact rationals ([Qc], rationals in lowest terms,
    compared with Leibniz equality), and the functions of this first part
    compute with them exactly: they describe the arithmetic the code
    denotes, without the conversions, the wrap-around and the rounding of
    an element type.  Those are the subject of the modules [Typed] and
    [Machine] below, which take the conversion on assignment, the matrix
    product, the sums and the quotient as parameters.  Python exceptions
    are values of an error monad. *)

From Stdlib Require Import QArith Qcanon Qcabs Qround Lqa.
From stdpp Require Import gmap list numbers strings.

Local Open Scope Qc_scope.

(** ** Rational arithmetic *)

(** [sum(l)] and [max(x, y)] on rationals. *)
Definition Qc_sum (l : list Qc) : Qc := foldr Qcplus 0 l.

Definition Qc_max (x y : Qc) : Qc := if decide (x ≤ y) then y else x.

(** [Σ_{k < n} f k] *)
Definition sum_upto (n : nat) (f : nat → Qc) : Qc := Qc_sum (f <$> seq 0 n).

(** ** Python exceptions and the error monad *)

Inductive exn :=
| AssertionError
| LinAlgError
| TypeError
| ValueError
| NotImplementedError
| IndexError
| NameError.

(** The class name of the exception, as Python reports it. *)
Definition exn_name (e : exn) : string :=
  match e with
  | AssertionError => "AssertionError"
  | LinAlgError => "LinAlgError"
  | TypeError => "TypeError"
  | ValueError => "ValueError"
  | NotImplementedError => "NotImplementedError"
  | IndexError => "IndexError"
  | NameError => "NameError"
  end.

Inductive result (A : Type) :=
| Ok (a : A)
| Raise (e : exn).
Arguments Ok {A} a.
Arguments Raise {A} e.

Global Instance result_ret : MRet result := λ A a, Ok a.
Global Instance result_bind : MBind result := λ A B f m,
  match m with Ok a => f a | Raise e => Raise e end.
Global Instance result_fmap : FMap result := λ A B f m,
  match m with Ok a => Ok (f a) | Raise e => Raise e end.

(** ** Matrices: dense arrays and scipy sparse matrices *)

(** The seven storage formats of [scipy.sparse]. *)
Inductive spformat := BSR | COO | CSC | CSR | DIA | DOK | LIL.

Global Instance spformat_eq_dec : EqDecision spformat.
Proof. solve_decision. Defined.

(** A dense matrix carries its [shape] and its rows; a sparse matrix its
    format, its [shape] and the stored entries keyed by (row, column).
    An entry that is not stored reads as zero. *)
Inductive matrix :=
| Dense (nr nc : nat) (rows : list (list Qc))
| Sparse (fmt : spformat) (nr nc : nat) (data : gmap (nat * nat) Qc).

Global Instance exn_eq_dec : EqDecision exn.
Proof. solve_decision. Defined.

Global Instance matrix_eq_dec : EqDecision matrix.
Proof. solve_decision. Defined.

Global Instance result_eq_dec {A} `{EqDecision A} : EqDecision (result A).
Proof. solve_decision. Defined.

Definition isspmatrix (m : matrix) : bool :=
  match m with Dense _ _ _ => false | Sparse _ _ _ _ => true end.

Definition shape (m : matrix) : nat * nat :=
  match m with Dense nr nc _ => (nr, nc) | Sparse _ nr nc _ => (nr, nc) end.

Definition nrows (m : matrix) : nat := (shape m).1.
Definition ncols (m : matrix) : nat := (shape m).2.

(** [m[i, j]] read as a number. *)
Definition entry (m : matrix) (i j : nat) : Qc :=
  match m with
  | Dense _ _ rows => default 0 (row ← rows !! i; row !! j)
  | Sparse _ _ _ d => default 0 (d !! (i, j))
  end.

(** Well-formed values of the type: the rows of a dense matrix agree with
    its shape, the keys of a sparse matrix lie inside its shape. *)
Definition wf (m : matrix) : Prop :=
  match m with
  | Dense nr nc rows => length rows = nr ∧ Forall (λ r, length r = nc) rows
  | Sparse _ nr nc d => map_Forall (λ k _, (k.1 < nr)%nat ∧ (k.2 < nc)%nat) d
  end.

Global Instance wf_dec m : Decision (wf m).
Proof. destruct m; simpl; apply _. Defined.

Definition square (m : matrix) : Prop := nrows m = ncols m.

(** Row-major list of the positions of an [nr × nc] matrix. *)
Definition indices (nr nc : nat) : list (nat * nat) :=
  i ← seq 0 nr; (λ j, (i, j)) <$> seq 0 nc.

(** All entries inside the shape are non-negative. *)
Definition nonneg (m : matrix) : Prop :=
  Forall (λ k, 0 ≤ entry m k.1 k.2) (indices (nrows m) (ncols m)).

Global Instance nonneg_dec m : Decision (nonneg m).
Proof. unfold nonneg. apply _. Defined.

(** Two values denote the same logical matrix: one shape and the same
    entry at every position. *)
Definition same_matrix (a b : matrix) : Prop :=
  shape a = shape b ∧
  Forall (λ k, entry a k.1 k.2 = entry b k.1 k.2) (indices (nrows a) (ncols a)).

Global Instance same_matrix_dec a b : Decision (same_matrix a b).
Proof. unfold same_matrix. apply _. Defined.

Global Instance square_dec m : Decision (square m).
Proof. unfold square. apply _. Defined.

(** Dense rows and sparse storage holding the values of [f]. *)
Definition tabulate (nr nc : nat) (f : nat → nat → Qc) : list (list Qc) :=
  (λ i, f i <$> seq 0 nc) <$> seq 0 nr.

(** [d[k] = v] on a dict of keys: a zero is not stored. *)
Definition dok_set (k : nat * nat) (v : Qc) (d : gmap (nat * nat) Qc) :
    gmap (nat * nat) Qc :=
  if decide (v = 0) then delete k d else <[k := v]> d.

Definition sp_tabulate (nr nc : nat) (f : nat → nat → Qc) : gmap (nat * nat) Qc :=
  foldr (λ k d, dok_set k (f k.1 k.2) d) ∅ (indices nr nc).

(** Applies [f] to every entry of the rows of a dense matrix. *)
Definition rows_map (f : Qc → Qc) (rows : list (list Qc)) : list (list Qc) :=
  (λ row : list Qc, f <$> row) <$> rows.

Definition dense_of (nr nc : nat) (f : nat → nat → Qc) : matrix :=
  Dense nr nc (tabulate nr nc f).

(** [m.toarray()]: the dense array of a matrix. *)
Definition toarray (m : matrix) : matrix :=
  match m with
  | Dense _ _ _ => m
  | Sparse _ nr nc _ => dense_of nr nc (entry m)
  end.

(** ** numpy and scipy.sparse operations used by the module *)

(** The tolerances of [np.allclose], also the defaults of
    [sparse_allclose]. *)
Definition default_rtol : Qc := Q2Qc (1 # 100000).
Definition default_atol : Qc := Q2Qc (1 # 100000000).

(** Formats whose matrices support [m[...]] indexing. *)
Definition subscriptable (fmt : spformat) : bool :=
  match fmt with
  | CSC | CSR | DOK | LIL => true
  | BSR | COO | DIA => false
  end.

(** Format of the product of two sparse matrices, by the left operand. *)
Definition product_format (fmt : spformat) : spformat :=
  match fmt with CSC => CSC | BSR => BSR | _ => CSR end.

(** Format of [m.power(r)]: formats without a data array go through CSR. *)
Definition power_format (fmt : spformat) : spformat :=
  match fmt with DOK | LIL => CSR | f => f end.

(** [np.abs(m)]: a sparse operand is answered in CSR unless its format has
    a data array. *)
Definition mat_abs (m : matrix) : matrix :=
  match m with
  | Dense nr nc rows => Dense nr nc (rows_map Qcabs rows)
  | Sparse fmt nr nc d => Sparse (power_format fmt) nr nc (Qcabs <$> d)
  end.

(** [r * m] for a scalar [r]. *)
Definition mat_scale (r : Qc) (m : matrix) : matrix :=
  match m with
  | Dense nr nc rows => Dense nr nc (rows_map (Qcmult r) rows)
  | Sparse fmt nr nc d => Sparse (power_format fmt) nr nc (Qcmult r <$> d)
  end.

(** [a - b]: sparse when both operands are, dense otherwise.  The
    operands must have one shape (broadcasting between unequal shapes is
    not modelled: the module only subtracts matrices of equal shape). *)
Definition mat_sub (a b : matrix) : result matrix :=
  if decide (shape a = shape b) then
    let f := λ i j, entry a i j - entry b i j in
    match a, b with
    | Sparse _ nr nc _, Sparse _ _ _ _ => Ok (Sparse CSR nr nc (sp_tabulate nr nc f))
    | _, _ => Ok (dense_of (nrows a) (ncols a) f)
    end
  else Raise ValueError.

(** The entries of a matrix, row by row. *)
Definition entries (m : matrix) : list Qc :=
  (λ k, entry m k.1 k.2) <$> indices (nrows m) (ncols m).

(** [m.max()]: the largest entry (implicit zeros of a sparse matrix
    included); a matrix without entries has no maximum. *)
Definition mat_max (m : matrix) : result Qc :=
  match entries m with
  | [] => Raise ValueError
  | x :: l => Ok (foldr Qc_max x l)
  end.

(** [np.allclose(a, b)] on dense arrays of one shape, the test
    [|a - b| ≤ atol + rtol * |b|] being evaluated exactly. *)
Definition np_allclose (a b : matrix) (rtol atol : Qc) : result bool :=
  if decide (shape a = shape b) then
    Ok (forallb (λ k, bool_decide
          (Qcabs (entry a k.1 k.2 - entry b k.1 k.2)
           ≤ atol + rtol * Qcabs (entry b k.1 k.2)))
        (indices (nrows a) (ncols a)))
  else Raise ValueError.

(** The product [Σ_k a[i,k] * b[k,j]] as a function of the position. *)
Definition dot_entry (a b : matrix) (i j : nat) : Qc :=
  sum_upto (ncols a) (λ k, entry a i k * entry b k j).

(** [a @ b] (written [a * b] on scipy sparse matrices), with exact sums
    of exact products.  The product of 64-bit integer matrices, which
    wraps around, is [matmul_int64] below. *)
Definition matmul (a b : matrix) : result matrix :=
  if decide (ncols a = nrows b) then
    match a, b with
    | Sparse fmt nr _ _, Sparse _ _ nc _ =>
        Ok (Sparse (product_format fmt) nr nc (sp_tabulate nr nc (dot_entry a b)))
    | _, _ => Ok (dense_of (nrows a) (ncols b) (dot_entry a b))
    end
  else Raise ValueError.

(** The identity: [np.eye(n)], and [scipy.sparse.eye(n)] in DIA format. *)
Definition kronecker (i j : nat) : Qc := if decide (i = j) then 1 else 0.
Definition dense_eye (n : nat) : matrix := dense_of n n kronecker.
Definition sparse_eye (n : nat) : matrix := Sparse DIA n n (sp_tabulate n n kronecker).

(** The loop of [np.linalg.matrix_power]: [z] runs through the repeated
    squares of the argument, [res] collects those at the set bits of the
    exponent, lowest bit first. *)
Fixpoint matrix_power_loop (z : matrix) (res : option matrix) (n : positive) :
    result matrix :=
  match n with
  | xH => match res with None => Ok z | Some r => matmul r z end
  | xO n' => z' ← matmul z z; matrix_power_loop z' res n'
  | xI n' =>
      r ← match res with None => Ok z | Some r => matmul r z end;
      z' ← matmul z z;
      matrix_power_loop z' (Some r) n'
  end.

(** [np.linalg.matrix_power(a, n)] for [n ≥ 0]. *)
Definition np_matrix_power (a : matrix) (n : N) : result matrix :=
  if decide (nrows a = ncols a) then
    match n with
    | 0%N => Ok (dense_eye (nrows a))
    | 1%N => Ok a
    | 2%N => matmul a a
    | 3%N => aa ← matmul a a; matmul aa a
    | Npos p => matrix_power_loop a None p
    end
  else Raise LinAlgError.

(** [a ** n] on a scipy sparse matrix: halve the exponent, square, and
    multiply once more when it is odd. *)
Fixpoint sp_pow_pos (a : matrix) (p : positive) : result matrix :=
  match p with
  | xH => Ok a
  | xO p' => tmp ← sp_pow_pos a p'; matmul tmp tmp
  | xI p' => tmp ← sp_pow_pos a p'; t ← matmul a tmp; matmul t tmp
  end.

Definition sp_pow (a : matrix) (n : N) : result matrix :=
  if decide (nrows a = ncols a) then
    match n with
    | 0%N => Ok (sparse_eye (nrows a))
    | Npos p => sp_pow_pos a p
    end
  else Raise TypeError.

(** [m >= t] on a sparse matrix: the positions where the comparison
    holds.  scipy refuses the comparison with zero. *)
Definition sp_ge (m : matrix) (t : Qc) : result (list (nat * nat)) :=
  if decide (t = 0) then Raise NotImplementedError
  else Ok (filter (λ k, t ≤ entry m k.1 k.2) (indices (nrows m) (ncols m))).

(** [m[mask]]: the values at the positions of a mask.  COO and DIA
    matrices have no item access, BSR declares it not implemented. *)
Definition sp_getitem (m : matrix) (mask : list (nat * nat)) : result (list Qc) :=
  match m with
  | Sparse fmt _ _ _ =>
      match fmt with
      | CSC | CSR | DOK | LIL => Ok ((λ k, entry m k.1 k.2) <$> mask)
      | BSR => Raise NotImplementedError
      | COO | DIA => Raise TypeError
      end
  | Dense _ _ _ => Ok ((λ k, entry m k.1 k.2) <$> mask)
  end.

(** [d[mask] = values] on a dict of keys. *)
Definition dok_setitem (mask : list (nat * nat)) (values : list Qc)
    (d : gmap (nat * nat) Qc) : gmap (nat * nat) Qc :=
  foldr (λ kv d, dok_set kv.1 kv.2 d) d (zip mask values).

(** ** sklearn.preprocessing.normalize(m, norm="l1", axis=0) *)

(** The L1 norm of column [j]. *)
Definition col_norm (m : matrix) (j : nat) : Qc :=
  sum_upto (nrows m) (λ i, Qcabs (entry m i j)).

(** A zero norm is replaced by one so that the division leaves the column
    as it is. *)
Definition handle_zeros (s : Qc) : Qc := if decide (s = 0) then 1 else s.

(** The input check rejects an array without rows or without columns.
    A dense input is copied and each entry divided by the norm of its
    column; the stored entries of a sparse input are divided in place in a
    CSC copy, skipping columns whose norm is zero.  Norms and quotients
    are exact here; [Machine.sk_normalize] below takes the sums and the
    quotient of the element type as parameters. *)
Definition sk_normalize (m : matrix) : result matrix :=
  if decide (nrows m = 0%nat ∨ ncols m = 0%nat) then Raise ValueError
  else
    match m with
    | Dense nr nc rows =>
        let norms := (λ j, handle_zeros (col_norm m j)) <$> seq 0 nc in
        Ok (Dense nr nc ((λ row : list Qc, zip_with Qcdiv row norms) <$> rows))
    | Sparse _ nr nc d =>
        Ok (Sparse CSC nr nc
              (map_imap (λ k v,
                 let s := col_norm m k.2 in
                 Some (if decide (s = 0) then v else v / s)) d))
    end.

(** [m.todok()] and [m.tocsc()]: the same entries in another format. *)
Definition todok (m : matrix) : matrix :=
  match m with
  | Sparse _ nr nc d => Sparse DOK nr nc d
  | Dense _ _ _ => m
  end.

Definition tocsc (m : matrix) : matrix :=
  match m with
  | Sparse _ nr nc d => Sparse CSC nr nc d
  | Dense _ _ _ => m
  end.

(** [m[i, j] = v] on a dense array or a dict of keys; a position outside
    the shape is an [IndexError].  The value is stored as it is: this is
    the assignment of a value that the element type of [m] holds.
    [Typed.setitem] below converts the value first. *)
Definition setitem (m : matrix) (i j : nat) (v : Qc) : result matrix :=
  if decide (i < nrows m ∧ j < ncols m)%nat then
    match m with
    | Dense nr nc rows => Ok (Dense nr nc (alter (λ row : list Qc, <[j := v]> row) i rows))
    | Sparse fmt nr nc d => Ok (Sparse fmt nr nc (dok_set (i, j) v d))
    end
  else Raise IndexError.

(** ** The module [mcl.py] *)

(** The example adjacency matrix. *)
Definition graph : matrix :=
  Dense 7 7
    [ [1; 1; 1; 0; 0; 0; 0];
      [1; 1; 1; 0; 0; 0; 0];
      [1; 1; 1; 1; 0; 0; 0];
      [0; 0; 1; 1; 1; 0; 1];
      [0; 0; 0; 1; 1; 1; 1];
      [0; 0; 0; 0; 1; 1; 1];
      [0; 0; 0; 1; 1; 1; 1] ].

Definition sparse_allclose (a b : matrix) (rtol atol : Qc) : result bool :=
  d ← mat_sub a b;
  c ← mat_sub (mat_abs d) (mat_scale rtol (mat_abs b));
  mx ← mat_max c;
  Ok (bool_decide (mx ≤ atol)).

Definition normalize (m : matrix) : result matrix := sk_normalize m.

Definition expand (m : matrix) (power : N) : result matrix :=
  if isspmatrix m then sp_pow m power
  else np_matrix_power m power.

(** The body of [for i in range(shape[0]): new_matrix[i, i] = loop_value]. *)
Fixpoint set_diagonal (range : list nat) (new_matrix : matrix) (loop_value : Qc) :
    result matrix :=
  match range with
  | [] => Ok new_matrix
  | i :: range' =>
      new_matrix ← setitem new_matrix i i loop_value;
      set_diagonal range' new_matrix loop_value
  end.

Definition add_self_loops (m : matrix) (loop_value : Qc) : result matrix :=
  let shape := shape m in
  if decide (shape.1 = shape.2) then
    let new_matrix := if isspmatrix m then todok m else m in
    new_matrix ← set_diagonal (seq 0 shape.1) new_matrix loop_value;
    if isspmatrix m then Ok (tocsc new_matrix) else Ok new_matrix
  else Raise AssertionError.

Definition prune (m : matrix) (threshold : Qc) : result matrix :=
  match m with
  | Sparse _ nr nc _ =>
      mask ← sp_ge m threshold;
      values ← sp_getitem m mask;
      mask' ← sp_ge m threshold;
      Ok (Sparse CSC nr nc (dok_setitem mask' values ∅))
  | Dense nr nc rows =>
      Ok (Dense nr nc
            (rows_map (λ x, if decide (x < threshold) then 0 else x) rows))
  end.

Definition converged (matrix1 matrix2 : matrix) : result bool :=
  if isspmatrix matrix1 || isspmatrix matrix2
  then sparse_allclose matrix1 matrix2 default_rtol default_atol
  else np_allclose matrix1 matrix2 default_rtol default_atol.

(** What [run_mcl] writes to the console. *)
Inductive output :=
| PrintMatrix (m : matrix)
| PrintConverged (i : nat).

Global Instance output_eq_dec : EqDecision output.
Proof. solve_decision. Defined.

Section Inflation.
(** [fpow x r] is the scalar power [x ** r] that [np.power] and
    [spmatrix.power] apply entry by entry. *)
Variable fpow : Qc → Qc → Qc.

(** [np.power(m, r)] on a dense array, [m.power(r)] on the stored
    entries of a sparse matrix. *)
Definition mat_power (m : matrix) (r : Qc) : matrix :=
  match m with
  | Dense nr nc rows => Dense nr nc (rows_map (λ x, fpow x r) rows)
  | Sparse fmt nr nc d => Sparse (power_format fmt) nr nc ((λ x, fpow x r) <$> d)
  end.

Definition inflate (m : matrix) (power : Qc) : result matrix :=
  if isspmatrix m then normalize (mat_power m power)
  else normalize (mat_power m power).

Definition iterate (m : matrix) (expansion : N) (inflation pruning : Qc) :
    result matrix :=
  m ← expand m expansion;
  m ← inflate m inflation;
  if decide (0 < pruning) then prune m pruning else Ok m.

(** The loop [for i in range(iterations)]: [remaining] iterations are left and
    [i] is the loop index. *)
Fixpoint mcl_loop (remaining i : nat) (m : matrix) (expansion : N)
    (inflation pruning : Qc) (verbose : bool) (out : list output) :
    result (matrix * list output) :=
  match remaining with
  | O => Ok (m, out)
  | S remaining' =>
      let last_mat := m in
      m ← iterate m expansion inflation pruning;
      let out := if verbose then out ++ [PrintMatrix m] else out in
      c ← converged m last_mat;
      if c : bool then Ok (m, out ++ [PrintConverged i])
      else mcl_loop remaining' (S i) m expansion inflation pruning verbose out
  end.

(** [run_mcl] with the console output it produced. *)
Definition run_mcl_out (m : matrix) (expansion : N) (inflation loop_value : Qc)
    (iterations : nat) (pruning : Qc) (verbose : bool) :
    result (matrix * list output) :=
  m ← add_self_loops m loop_value;
  m ← normalize m;
  mcl_loop iterations 0 m expansion inflation pruning verbose [].

Definition run_mcl (m : matrix) (expansion : N) (inflation loop_value : Qc)
    (iterations : nat) (pruning : Qc) (verbose : bool) : result matrix :=
  fst <$> run_mcl_out m expansion inflation loop_value iterations pruning verbose.
End Inflation.

(** ** Notions used to state the properties *)

(** The sum of column [j]. *)
Definition col_sum (m : matrix) (j : nat) : Qc :=
  sum_upto (nrows m) (λ i, entry m i j).

(** The standard product of two [n × n] matrices given by their entries,
    and the [p]-th power by repeated multiplication. *)
Definition prod_entries (n : nat) (f g : nat → nat → Qc) (i j : nat) : Qc :=
  sum_upto n (λ k, f i k * g k j).

Fixpoint power_entries (n : nat) (f : nat → nat → Qc) (p : nat) : nat → nat → Qc :=
  match p with
  | O => kronecker
  | S p' => prod_entries n f (power_entries n f p')
  end.

(** [m] is a well-formed [n × n] matrix with the entries [f]. *)
Definition represents (n : nat) (m : matrix) (f : nat → nat → Qc) : Prop :=
  wf m ∧ shape m = (n, n) ∧
  ∀ i j, (i < n)%nat → (j < n)%nat → entry m i j = f i j.

(** Every pair of entries is within the tolerances of the convergence
    test: [|a - b| ≤ atol + rtol * |b|]. *)
Definition all_close (a b : matrix) : Prop :=
  ∀ i j, (i < nrows a)%nat → (j < ncols a)%nat →
         Qcabs (entry a i j - entry b i j)
         ≤ default_atol + default_rtol * Qcabs (entry b i j).



(** [m'] is [m] with every entry strictly below [t] replaced by zero. *)
Definition thresholded (m : matrix) (t : Qc) (m' : matrix) : Prop :=
  shape m' = shape m ∧
  ∀ i j, (i < nrows m)%nat → (j < ncols m)%nat →
         entry m' i j = if decide (entry m i j < t) then 0 else entry m i j.

(** The format of a sparse matrix supports item access; dense arrays do. *)
Definition indexable (m : matrix) : bool :=
  match m with
  | Dense _ _ _ => true
  | Sparse fmt _ _ _ => subscriptable fmt
  end.



(** The scalar power [x ** r] for an exponent [r] that is a natural
    number, in exact arithmetic.  (The rationals are not closed under
    fractional powers: an exponent that is no natural number is rounded up
    to the next one, and no statement relies on that case.) *)
Definition power_nat (x r : Qc) : Qc := x ^ Z.to_nat (Qceiling (this r)).

(** The support of column [j]: the rows whose entry is not zero. *)
Definition column_support (m : matrix) (j : nat) : list nat :=
  filter (λ i, entry m i j ≠ 0) (seq 0 (nrows m)).

(** The groups of nodes given by the supports of their columns: the nodes
    whose columns have one support form a group, in the order in which
    the supports first appear. *)
Definition groups (supports : list (list nat)) : list (list nat) :=
  (λ s, filter (λ j, supports !! j = Some s) (seq 0 (length supports)))
    <$> remove_dups supports.

(** The default arguments of [run_mcl]. *)
Definition default_expansion : N := 2.
Definition default_inflation : Qc := 2.
Definition default_loop_value : Qc := 1.
Definition default_iterations : nat := 10.
Definition default_pruning : Qc := Q2Qc (1 # 1000).

(** ** The driver loop as the specification words it *)

(** The two states of the driver. *)
Inductive state :=
| Running (current : matrix)
| Done (final : matrix).

Definition state_matrix (s : state) : matrix :=
  match s with Running m => m | Done m => m end.

Section Pipeline.
Variable fpow : Qc → Qc → Qc.
Variable expansion : N.
Variables inflation pruning : Qc.

(** One round: snapshot the current matrix as [previous]; expand, inflate
    and, only when the pruning threshold is positive, prune; stop as soon
    as the result has converged to [previous]. *)
Definition round (current : matrix) : result state :=
  let previous := current in
  m ← expand current expansion;
  m ← inflate fpow m inflation;
  m ← (if decide (0 < pruning) then prune m pruning else Ok m);
  c ← converged m previous;
  Ok (if c : bool then Done m else Running m).

(** At most [n] rounds. *)
Fixpoint rounds (n : nat) (s : state) : result state :=
  match n, s with
  | S n', Running m => s' ← round m; rounds n' s'
  | _, _ => Ok s
  end.

(** Self-loops, column normalization, then the rounds; the last computed
    matrix is the result whether or not the rounds converged. *)
Definition pipeline (m : matrix) (loop_value : Qc) (iterations : nat) : result matrix :=
  m ← add_self_loops m loop_value;
  m ← normalize m;
  s ← rounds iterations (Running m);
  Ok (state_matrix s).

End Pipeline.

(** ** Objects and references

    Python passes matrices by reference, and [add_self_loops] and [prune]
    assign into matrices in place.  [Store] runs the module on a store of
    matrix objects: a function receives references, library calls
    allocate their results, and only item assignment changes an object. *)

Module Store.

Definition ref := positive.

Definition prog (A : Type) : Type :=
  gmap ref matrix → result (A * gmap ref matrix).

Global Instance prog_ret : MRet prog := λ A a h, Ok (a, h).
Global Instance prog_bind : MBind prog := λ A B f m h,
  match m h with Ok (a, h') => f a h' | Raise e => Raise e end.

(** A new object holding [m]. *)
Definition new (m : matrix) : prog ref := λ h,
  let l := fresh (dom h) in Ok (l, <[l := m]> h).

(** The object behind a reference ([NameError] for a reference that holds
    none: Python has no such reference, the case keeps the store total). *)
Definition get (l : ref) : prog matrix := λ h,
  match h !! l with Some m => Ok (m, h) | None => Raise NameError end.

(** Overwrites an object in place. *)
Definition put (l : ref) (m : matrix) : prog unit := λ h, Ok (tt, <[l := m]> h).

(** The outcome of a computation that touches no object. *)
Definition lift {A : Type} (r : result A) : prog A := λ h,
  match r with Ok a => Ok (a, h) | Raise e => Raise e end.

(** [m.copy()] *)
Definition copy (l : ref) : prog ref := m ← get l; new m.

(** [m.todok()]: a matrix that is in DOK format already is returned
    itself, not a copy. *)
Definition todok (l : ref) : prog ref :=
  m ← get l;
  match m with
  | Sparse DOK _ _ _ => mret l
  | _ => new (todok m)
  end.

(** [m.tocsc()]: likewise a CSC matrix is returned itself. *)
Definition tocsc (l : ref) : prog ref :=
  m ← get l;
  match m with
  | Sparse CSC _ _ _ => mret l
  | _ => new (tocsc m)
  end.

(** [m[i, j] = v], in place. *)
Definition setitem (l : ref) (i j : nat) (v : Qc) : prog unit :=
  m ← get l;
  m' ← lift (setitem m i j v);
  put l m'.

(** [sklearn.preprocessing.normalize] works on a copy ([copy=True]). *)
Definition normalize (l : ref) : prog ref :=
  m ← get l;
  m' ← lift (normalize m);
  new m'.

(** [np.linalg.matrix_power(a, 1)] returns the array [a] itself; every
    other power, and every power of a sparse matrix, is a new object. *)
Definition expand (l : ref) (power : N) : prog ref :=
  m ← get l;
  m' ← lift (expand m power);
  if negb (isspmatrix m) && bool_decide (power = 1%N) then mret l else new m'.

Definition converged (l1 l2 : ref) : prog bool :=
  m1 ← get l1;
  m2 ← get l2;
  lift (converged m1 m2).

Fixpoint set_diagonal (range : list nat) (new_matrix : ref) (loop_value : Qc) :
    prog unit :=
  match range with
  | [] => mret tt
  | i :: range' =>
      _ ← setitem new_matrix i i loop_value;
      set_diagonal range' new_matrix loop_value
  end.

Definition add_self_loops (l : ref) (loop_value : Qc) : prog ref :=
  m ← get l;
  let shape := shape m in
  if decide (shape.1 = shape.2) then
    new_matrix ← (if isspmatrix m then todok l else copy l);
    _ ← set_diagonal (seq 0 shape.1) new_matrix loop_value;
    if isspmatrix m then tocsc new_matrix else mret new_matrix
  else lift (Raise AssertionError).

Definition prune (l : ref) (threshold : Qc) : prog ref :=
  m ← get l;
  match m with
  | Sparse _ nr nc _ =>
      pruned ← new (Sparse DOK nr nc ∅);
      mask ← lift (sp_ge m threshold);
      values ← lift (sp_getitem m mask);
      mask' ← lift (sp_ge m threshold);
      p ← get pruned;
      _ ← match p with
          | Sparse fmt pnr pnc d => put pruned (Sparse fmt pnr pnc (dok_setitem mask' values d))
          | Dense _ _ _ => mret tt
          end;
      tocsc pruned
  | Dense _ _ _ =>
      pruned ← copy l;
      p ← get pruned;
      _ ← match p with
          | Dense nr nc rows =>
              put pruned (Dense nr nc
                (rows_map (λ x, if decide (x < threshold) then 0 else x) rows))
          | Sparse _ _ _ _ => mret tt
          end;
      mret pruned
  end.

Section Inflation.
Variable fpow : Qc → Qc → Qc.

Definition inflate (l : ref) (power : Qc) : prog ref :=
  m ← get l;
  p ← new (mat_power fpow m power);
  normalize p.

Definition iterate (l : ref) (expansion : N) (inflation pruning : Qc) : prog ref :=
  l ← expand l expansion;
  l ← inflate l inflation;
  if decide (0 < pruning) then prune l pruning else mret l.

Fixpoint mcl_loop (remaining : nat) (l : ref) (expansion : N)
    (inflation pruning : Qc) : prog ref :=
  match remaining with
  | O => mret l
  | S remaining' =>
      last_mat ← copy l;
      l ← iterate l expansion inflation pruning;
      c ← converged l last_mat;
      if c : bool then mret l
      else mcl_loop remaining' l expansion inflation pruning
  end.

Definition run_mcl (l : ref) (expansion : N) (inflation loop_value : Qc)
    (iterations : nat) (pruning : Qc) : prog ref :=
  l ← add_self_loops l loop_value;
  l ← normalize l;
  mcl_loop iterations l expansion inflation pruning.
End Inflation.

End Store.

(** A computation on the store returns the matrix [r] in a new or an old
    object and leaves every object that existed as it was, or raises as
    [r] does. *)
Definition refines (f : Store.prog Store.ref) (r : result matrix)
    (h : gmap Store.ref matrix) : Prop :=
  match r with
  | Ok m' => ∃ l' h', f h = Ok (l', h') ∧ h ⊆ h' ∧ h' !! l' = Some m'
  | Raise e => f h = Raise e
  end.

(** The matrix is sparse in DOK format. *)
Definition is_dok (m : matrix) : bool :=
  match m with Sparse DOK _ _ _ => true | _ => false end.

(** What a computation on the store guarantees when it returns. *)
Definition post {A : Type} (f : Store.prog A)
    (Q : gmap Store.ref matrix → A → gmap Store.ref matrix → Prop) : Prop :=
  ∀ h a h', f h = Ok (a, h') → Q h a h'.

(** No object disappears. *)
Definition grows {A : Type} (f : Store.prog A) : Prop :=
  post f (λ h _ h', dom h ⊆ dom h').

(** The reference returned is [l0] or that of an object that did not
    exist before the call; and the reference returned is new. *)
Definition returns_or_new (l0 : Store.ref) (f : Store.prog Store.ref) : Prop :=
  post f (λ h l h', (l = l0 ∨ l ∉ dom h) ∧ (dom h ⊆ dom h')).

Definition returns_new (f : Store.prog Store.ref) : Prop :=
  post f (λ h l h', (l ∉ dom h) ∧ (dom h ⊆ dom h')).

(** The call [f] in the store [h] leaves every object as it was, returns
    the matrix that the computation [r] gives, and raises as [r] does. *)
Definition only_allocates (h : gmap Store.ref matrix) (f : Store.prog Store.ref)
    (r : result matrix) : Prop :=
  (∀ l' h', f h = Ok (l', h') → h ⊆ h' ∧ ∃ m', r = Ok m' ∧ h' !! l' = Some m') ∧
  (∀ e, f h = Raise e ↔ r = Raise e).

(** ** Arrays with an element type

    The definitions above compute with exact rationals.  A numpy array
    and a scipy matrix have an element type ([int64], [float64]): item
    assignment converts the assigned value to it, integer products wrap
    around, and floating-point sums, products and quotients are rounded.
    The modules [Typed] and [Machine] state the functions that assign,
    multiply and divide with these operations as parameters, so that a
    statement says what it needs of them. *)

Module Typed.
Section Assignment.
(** [cast v]: the value [v] converted to the element type of the matrix
    that is assigned into. *)
Variable cast : Qc → Qc.

(** [m[i, j] = v] stores the converted value. *)
Definition setitem (m : matrix) (i j : nat) (v : Qc) : result matrix :=
  setitem m i j (cast v).

Fixpoint set_diagonal (range : list nat) (new_matrix : matrix) (loop_value : Qc) :
    result matrix :=
  match range with
  | [] => Ok new_matrix
  | i :: range' =>
      new_matrix ← setitem new_matrix i i loop_value;
      set_diagonal range' new_matrix loop_value
  end.

Definition add_self_loops (m : matrix) (loop_value : Qc) : result matrix :=
  let shape := shape m in
  if decide (shape.1 = shape.2) then
    let new_matrix := if isspmatrix m then todok m else m in
    new_matrix ← set_diagonal (seq 0 shape.1) new_matrix loop_value;
    if isspmatrix m then Ok (tocsc new_matrix) else Ok new_matrix
  else Raise AssertionError.

Variable fpow : Qc → Qc → Qc.

Definition run_mcl_out (m : matrix) (expansion : N) (inflation loop_value : Qc)
    (iterations : nat) (pruning : Qc) (verbose : bool) :
    result (matrix * list output) :=
  m ← add_self_loops m loop_value;
  m ← normalize m;
  mcl_loop fpow iterations 0 m expansion inflation pruning verbose [].

Definition run_mcl (m : matrix) (expansion : N) (inflation loop_value : Qc)
    (iterations : nat) (pruning : Qc) (verbose : bool) : result matrix :=
  fst <$> run_mcl_out m expansion inflation loop_value iterations pruning verbose.
End Assignment.
End Typed.

Module Machine.
Section Product.
(** [mm a b]: the product [a @ b] ([a * b] on sparse matrices) in the
    arithmetic of the element type. *)
Variable mm : matrix → matrix → result matrix.

Fixpoint matrix_power_loop (z : matrix) (res : option matrix) (n : positive) :
    result matrix :=
  match n with
  | xH => match res with None => Ok z | Some r => mm r z end
  | xO n' => z' ← mm z z; matrix_power_loop z' res n'
  | xI n' =>
      r ← match res with None => Ok z | Some r => mm r z end;
      z' ← mm z z;
      matrix_power_loop z' (Some r) n'
  end.

Definition np_matrix_power (a : matrix) (n : N) : result matrix :=
  if decide (nrows a = ncols a) then
    match n with
    | 0%N => Ok (dense_eye (nrows a))
    | 1%N => Ok a
    | 2%N => mm a a
    | 3%N => aa ← mm a a; mm aa a
    | Npos p => matrix_power_loop a None p
    end
  else Raise LinAlgError.

Fixpoint sp_pow_pos (a : matrix) (p : positive) : result matrix :=
  match p with
  | xH => Ok a
  | xO p' => tmp ← sp_pow_pos a p'; mm tmp tmp
  | xI p' => tmp ← sp_pow_pos a p'; t ← mm a tmp; mm t tmp
  end.

Definition sp_pow (a : matrix) (n : N) : result matrix :=
  if decide (nrows a = ncols a) then
    match n with
    | 0%N => Ok (sparse_eye (nrows a))
    | Npos p => sp_pow_pos a p
    end
  else Raise TypeError.

Definition expand (m : matrix) (power : N) : result matrix :=
  if isspmatrix m then sp_pow m power
  else np_matrix_power m power.
End Product.

Section Division.
(** [np_sum l] and [sp_sum l]: the sum of the numbers [l] as numpy adds
    up a column of an array and as scikit-learn adds up the stored
    entries of a column of a sparse matrix; [fdiv x s]: the quotient
    [x / s] in the arithmetic of the element type. *)
Variables np_sum sp_sum : list Qc → Qc.
Variable fdiv : Qc → Qc → Qc.

(** The L1 norm of column [j] as it is computed: over all rows of a dense
    array, over the stored entries of a sparse matrix. *)
Definition col_norm (m : matrix) (j : nat) : Qc :=
  match m with
  | Dense nr _ _ => np_sum ((λ i, Qcabs (entry m i j)) <$> seq 0 nr)
  | Sparse _ nr _ d => sp_sum (Qcabs <$> omap (λ i, d !! (i, j)) (seq 0 nr))
  end.

Definition sk_normalize (m : matrix) : result matrix :=
  if decide (nrows m = 0%nat ∨ ncols m = 0%nat) then Raise ValueError
  else
    match m with
    | Dense nr nc rows =>
        let norms := (λ j, handle_zeros (col_norm m j)) <$> seq 0 nc in
        Ok (Dense nr nc ((λ row : list Qc, zip_with fdiv row norms) <$> rows))
    | Sparse _ nr nc d =>
        Ok (Sparse CSC nr nc
              (map_imap (λ k v,
                 let s := col_norm m k.2 in
                 Some (if decide (s = 0) then v else fdiv v s)) d))
    end.

Definition normalize (m : matrix) : result matrix := sk_normalize m.
End Division.
End Machine.

(** *** The element type [int64] *)

(** The representative of an integer in the range of [int64]
    (two's complement: sums and products wrap around modulo [2^64]). *)
Definition wrap64 (z : Z) : Z := ((z + 2 ^ 63) mod 2 ^ 64 - 2 ^ 63)%Z.

Definition int64 (x : Qc) : Qc := Q2Qc (inject_Z (wrap64 (Qfloor (this x)))).

(** The product of two integer matrices of element type [int64].
    Reduction modulo [2^64] commutes with sums and products, so wrapping
    every partial result gives the exact entry of the product, wrapped
    once. *)
Definition matmul_int64 (a b : matrix) : result matrix :=
  if decide (ncols a = nrows b) then
    let f := λ i j, int64 (dot_entry a b i j) in
    match a, b with
    | Sparse fmt nr _ _, Sparse _ _ nc _ =>
        Ok (Sparse (product_format fmt) nr nc (sp_tabulate nr nc f))
    | _, _ => Ok (dense_of (nrows a) (ncols b) f)
    end
  else Raise ValueError.


(** *** What a statement asks of the products *)

(** Every product of a [q]-th and an [r]-th power of the matrix with
    entries [f], of total exponent at most [p], is computed exactly: no
    wrap-around, no rounding. *)
Definition exact_products (mm : matrix → matrix → result matrix) (n : nat)
    (f : nat → nat → Qc) (p : nat) : Prop :=
  ∀ a b q r, (1 ≤ q)%nat → (1 ≤ r)%nat → (q + r ≤ p)%nat →
    represents n a (power_entries n f q) → represents n b (power_entries n f r) →
    ∃ c, mm a b = Ok c ∧ represents n c (power_entries n f (q + r)) ∧
         isspmatrix c = isspmatrix a && isspmatrix b.


(** ** Interval enclosures

    Ten rounds on the example graph in exact arithmetic produce rationals
    of millions of digits.  The run is followed instead with intervals
    whose end points are rounded outwards to multiples of [2^-100]: every
    decision of the code (pruning, convergence) is taken only when it is
    the same for all matrices inside the enclosure. *)

Abbreviation itv := (Qc * Qc)%type (only parsing).
Abbreviation imatrix := (list (list (Qc * Qc))) (only parsing).

Definition precision : positive := Eval vm_compute in (2 ^ 100)%positive.

(** Rounding down and up to a multiple of [1 / precision]. *)
Definition round_down (x : Qc) : Qc :=
  Q2Qc (Qmake (Qfloor (this x * inject_Z (Zpos precision))) precision).
Definition round_up (x : Qc) : Qc :=
  Q2Qc (Qmake (Qceiling (this x * inject_Z (Zpos precision))) precision).

Definition iround (x : itv) : itv := (round_down x.1, round_up x.2).

Definition contains (x : itv) (v : Qc) : Prop := x.1 ≤ v ∧ v ≤ x.2.

(** Interval operations on non-negative intervals. *)
Definition imul (x y : itv) : itv := (x.1 * y.1, x.2 * y.2).
Definition idiv (x y : itv) : itv := (x.1 / y.2, x.2 / y.1).
Definition isum (n : nat) (f : nat → itv) : itv :=
  (sum_upto n (λ k, (f k).1), sum_upto n (λ k, (f k).2)).

Definition ientry (a : imatrix) (i j : nat) : itv :=
  default (0, 0) (row ← a !! i; row !! j).

Definition itabulate (n : nat) (f : nat → nat → itv) : imatrix :=
  (λ i, f i <$> seq 0 n) <$> seq 0 n.

(** The interval matrix holds the dense [n × n] matrix [m], and its lower
    end points are non-negative. *)
Definition encloses (n : nat) (a : imatrix) (m : matrix) : Prop :=
  wf m ∧ shape m = (n, n) ∧ isspmatrix m = false ∧
  ∀ i j, (i < n)%nat → (j < n)%nat →
         0 ≤ (ientry a i j).1 ∧ contains (ientry a i j) (entry m i j).

(** The enclosure of a matrix given exactly. *)
Definition exactly (rows : list (list Qc)) : imatrix :=
  (λ row : list Qc, (λ x, (x, x)) <$> row) <$> rows.

(** A property of all entries of an [n × n] interval matrix. *)
Definition iall (n : nat) (p : itv → bool) (a : imatrix) : bool :=
  forallb (λ k, p (ientry a k.1 k.2)) (indices n n).

Definition lower_nonneg (x : itv) : bool := bool_decide (0 ≤ x.1).

(** Expansion with power 2: the product of the matrix with itself. *)
Definition iexpand (n : nat) (a : imatrix) : imatrix :=
  itabulate n (λ i j, iround (isum n (λ k, imul (ientry a i k) (ientry a k j)))).

(** Inflation with power 2: squares, divided by the sums of their columns,
    which must be positive for certain. *)
Definition isquares (n : nat) (a : imatrix) : imatrix :=
  itabulate n (λ i j, iround (imul (ientry a i j) (ientry a i j))).

Definition inorm (n : nat) (s : imatrix) (j : nat) : itv :=
  isum n (λ i, ientry s i j).

Definition iinflate (n : nat) (a : imatrix) : option imatrix :=
  let s := isquares n a in
  if iall n lower_nonneg s &&
     forallb (λ j, bool_decide (0 < (inorm n s j).1)) (seq 0 n)
  then Some (itabulate n (λ i j, iround (idiv (ientry s i j) (inorm n s j))))
  else None.

(** Pruning: an entry is dropped or kept only when all of its interval is
    on one side of the threshold. *)
Definition iprune_decided (t : Qc) (x : itv) : bool :=
  bool_decide (x.2 < t) || bool_decide (t ≤ x.1).

Definition iprune (n : nat) (t : Qc) (a : imatrix) : option imatrix :=
  if iall n (iprune_decided t) a
  then Some (itabulate n (λ i j,
               let x := ientry a i j in if decide (x.2 < t) then (0, 0) else x))
  else None.

Definition iiterate (n : nat) (t : Qc) (a : imatrix) : option imatrix :=
  let e := iexpand n a in
  if iall n lower_nonneg e then
    f ← iinflate n e;
    if iall n lower_nonneg f then
      p ← iprune n t f;
      if iall n lower_nonneg p then Some p else None
    else None
  else None.

(** The convergence test, when it has one answer on the enclosures. *)
Definition iclose_yes (x y : itv) : bool :=
  bool_decide (x.2 - y.1 ≤ default_atol + default_rtol * y.1) &&
  bool_decide (y.2 - x.1 ≤ default_atol + default_rtol * y.1).

Definition iclose_no (x y : itv) : bool :=
  bool_decide (default_atol + default_rtol * y.2 < x.1 - y.2) ||
  bool_decide (default_atol + default_rtol * y.2 < y.1 - x.2).

Definition iconverged (n : nat) (a b : imatrix) : option bool :=
  if forallb (λ k, iclose_yes (ientry a k.1 k.2) (ientry b k.1 k.2)) (indices n n)
  then Some true
  else if existsb (λ k, iclose_no (ientry a k.1 k.2) (ientry b k.1 k.2)) (indices n n)
  then Some false
  else None.

(** The loop of [run_mcl] on enclosures: the index of the iteration in
    which convergence was certain, and the enclosure of its matrix. *)
Fixpoint iloop (n : nat) (t : Qc) (remaining i : nat) (a : imatrix) :
    option (nat * imatrix) :=
  match remaining with
  | O => None
  | S remaining' =>
      a' ← iiterate n t a;
      c ← iconverged n a' a;
      if c : bool then Some (i, a') else iloop n t remaining' (S i) a'
  end.

(** The entries that are non-zero for certain ([Some true]) or zero for
    certain ([Some false]). *)
Definition isupport_entry (x : itv) : option bool :=
  if decide (0 < x.1) then Some true
  else if decide (x.1 = 0 ∧ x.2 = 0) then Some false
  else None.

Definition isupport (n : nat) (a : imatrix) : list (list (option bool)) :=
  (λ i, (λ j, isupport_entry (ientry a i j)) <$> seq 0 n) <$> seq 0 n.

(** *** The run on the example graph *)

(** The example graph with its self-loops, column-normalized: the matrix
    that enters the first iteration. *)
Definition graph_seed : list (list Qc) :=
  let t := Q2Qc (1 # 3) in
  let q := Q2Qc (1 # 4) in
  [ [t; t; q; 0; 0; 0; 0];
    [t; t; q; 0; 0; 0; 0];
    [t; t; q; q; 0; 0; 0];
    [0; 0; q; q; q; 0; q];
    [0; 0; 0; q; q; t; q];
    [0; 0; 0; 0; q; t; q];
    [0; 0; 0; q; q; t; q] ].


(** The non-zero entries of the matrix the run ends with: row 2 in the
    columns 0, 1, 2 and rows 4 and 6 in the columns 3, 4, 5, 6. *)
Definition graph_support : list (list (option bool)) :=
  let o := Some false in
  let x := Some true in
  [ [o; o; o; o; o; o; o];
    [o; o; o; o; o; o; o];
    [x; x; x; o; o; o; o];
    [o; o; o; o; o; o; o];
    [o; o; o; x; x; x; x];
    [o; o; o; o; o; o; o];
    [o; o; o; x; x; x; x] ].

(** What the loop on enclosures reports: convergence is certain in the
    iteration of index [i] and the support of the matrix is [table]. *)
Definition idecided (n i : nat) (table : list (list (option bool)))
    (o : option (nat * list (list (Qc * Qc)))) : bool :=
  match o with
  | Some (i', a) => bool_decide (i' = i) && bool_decide (isupport n a = table)
  | None => false
  end.

Local Close Scope Qc_scope.

(** The supports of the columns 0 to 6 of that matrix, and the groups of
    nodes they define. *)
Definition graph_column_supports : list (list nat) :=
  [[2]; [2]; [2]; [4; 6]; [4; 6]; [4; 6]; [4; 6]].

Definition graph_groups : list (list nat) :=
  [[0; 1; 2]; [3; 4; 5; 6]].

Local Open Scope Qc_scope.

(** * Properties *)

(** ** Rational arithmetic helpers *)

Lemma Qc_eq_Qeq (x y : Qc) : x = y ↔ (this x == this y)%Q.
Proof. split; [intros ->; reflexivity | apply Qc_is_canon]. Qed.

Lemma this_plus (x y : Qc) : (this (x + y) == this x + this y)%Q.
Proof. unfold Qcplus; simpl; apply Qred_correct. Qed.

Lemma this_mult (x y : Qc) : (this (x * y) == this x * this y)%Q.
Proof. unfold Qcmult; simpl; apply Qred_correct. Qed.

Lemma this_opp (x : Qc) : (this (- x) == - this x)%Q.
Proof. unfold Qcopp; simpl; apply Qred_correct. Qed.

Lemma this_minus (x y : Qc) : (this (x - y) == this x - this y)%Q.
Proof. unfold Qcminus. rewrite this_plus, this_opp. reflexivity. Qed.

Lemma this_Q2Qc (q : Q) : (this (Q2Qc q) == q)%Q.
Proof. simpl; apply Qred_correct. Qed.

(** Moves a goal over [Qc] to one over [Q], where [lra] and [nra] work. *)
Ltac qc_prep :=
  repeat match goal with
  | H : @eq Qc _ _ |- _ => apply Qc_eq_Qeq in H
  | H : ¬ @eq Qc _ _ |- _ => rewrite Qc_eq_Qeq in H
  | |- @eq Qc _ _ => apply Qc_eq_Qeq
  | |- ¬ @eq Qc _ _ => rewrite Qc_eq_Qeq
  end;
  unfold Qcle, Qclt in *;
  repeat match goal with
  | H : context [this (_ + _)] |- _ => rewrite this_plus in H
  | H : context [this (_ * _)] |- _ => rewrite this_mult in H
  | H : context [this (_ - _)] |- _ => rewrite this_minus in H
  | H : context [this (- _)] |- _ => rewrite this_opp in H
  | H : context [this (Q2Qc _)] |- _ => rewrite this_Q2Qc in H
  | |- context [this (_ + _)] => rewrite this_plus
  | |- context [this (_ * _)] => rewrite this_mult
  | |- context [this (_ - _)] => rewrite this_minus
  | |- context [this (- _)] => rewrite this_opp
  | |- context [this (Q2Qc _)] => rewrite this_Q2Qc
  end.
Ltac qc_lra := qc_prep; lra.
Ltac qc_nra := qc_prep; nra.

(** ** Sums *)

Lemma Qc_sum_nonneg (l : list Qc) : Forall (λ x, 0 ≤ x) l → 0 ≤ Qc_sum l.
Proof.
  induction 1 as [|x l Hx _ IH]; simpl; [apply Qcle_refl|]. qc_lra.
Qed.

Lemma Qc_sum_zero (l : list Qc) :
  Forall (λ x, 0 ≤ x) l → Qc_sum l = 0 → Forall (λ x, x = 0) l.
Proof.
  induction 1 as [|x l Hx Hl IH]; simpl; intros Hs; [constructor|].
  pose proof (Qc_sum_nonneg l Hl) as Hn.
  assert (x = 0) by qc_lra. assert (Qc_sum l = 0) by qc_lra.
  constructor; auto.
Qed.

Lemma sum_upto_ext n f g :
  (∀ k, (k < n)%nat → f k = g k) → sum_upto n f = sum_upto n g.
Proof.
  intros H. unfold sum_upto. f_equal. apply list_eq; intros i.
  rewrite !list_lookup_fmap. destruct (decide (i < n)%nat) as [Hi|Hi].
  - rewrite lookup_seq_lt by done. simpl. f_equal. by apply H.
  - rewrite lookup_seq_ge by lia. done.
Qed.

Lemma sum_upto_S n f : sum_upto (S n) f = sum_upto n f + f n.
Proof.
  unfold sum_upto. rewrite seq_S, fmap_app. simpl.
  generalize (f <$> seq 0 n). intros l.
  induction l as [|x l IH]; simpl; [ring|]. rewrite IH. ring.
Qed.

Lemma sum_upto_0 f : sum_upto 0 f = 0.
Proof. reflexivity. Qed.

Lemma sum_upto_nonneg n f : (∀ k, (k < n)%nat → 0 ≤ f k) → 0 ≤ sum_upto n f.
Proof.
  induction n as [|n IH]; intros H; [apply Qcle_refl|].
  rewrite sum_upto_S. specialize (IH (λ k Hk, H k (Nat.lt_lt_succ_r _ _ Hk))).
  specialize (H n (Nat.lt_succ_diag_r n)). qc_lra.
Qed.

Lemma sum_upto_zero n f :
  (∀ k, (k < n)%nat → 0 ≤ f k) → sum_upto n f = 0 → ∀ k, (k < n)%nat → f k = 0.
Proof.
  induction n as [|n IH]; intros H Hs k Hk; [lia|].
  rewrite sum_upto_S in Hs.
  pose proof (sum_upto_nonneg n f (λ k Hk, H k (Nat.lt_lt_succ_r _ _ Hk))) as Hn.
  pose proof (H n (Nat.lt_succ_diag_r n)) as Hfn.
  assert (sum_upto n f = 0) by qc_lra. assert (f n = 0) by qc_lra.
  destruct (decide (k = n)) as [->|]; [done|].
  apply IH; auto with lia.
Qed.

Lemma sum_upto_all_zero n f : (∀ k, (k < n)%nat → f k = 0) → sum_upto n f = 0.
Proof.
  induction n as [|n IH]; intros H; [done|].
  rewrite sum_upto_S, IH, H by auto with lia. ring.
Qed.

Lemma sum_upto_le n f g :
  (∀ k, (k < n)%nat → f k ≤ g k) → sum_upto n f ≤ sum_upto n g.
Proof.
  induction n as [|n IH]; intros H; [apply Qcle_refl|].
  rewrite !sum_upto_S. specialize (IH (λ k Hk, H k (Nat.lt_lt_succ_r _ _ Hk))).
  specialize (H n (Nat.lt_succ_diag_r n)). qc_lra.
Qed.

Lemma sum_upto_plus n f g :
  sum_upto n (λ k, f k + g k) = sum_upto n f + sum_upto n g.
Proof.
  induction n as [|n IH]; [by rewrite !sum_upto_0; ring|].
  rewrite !sum_upto_S, IH. ring.
Qed.

Lemma sum_upto_scale_l n c f : sum_upto n (λ k, c * f k) = c * sum_upto n f.
Proof.
  induction n as [|n IH]; [by rewrite !sum_upto_0; ring|].
  rewrite !sum_upto_S, IH. ring.
Qed.

Lemma sum_upto_scale_r n c f : sum_upto n (λ k, f k * c) = sum_upto n f * c.
Proof.
  induction n as [|n IH]; [by rewrite !sum_upto_0; ring|].
  rewrite !sum_upto_S, IH. ring.
Qed.

(** Two nested finite sums may be exchanged. *)
Lemma sum_upto_exchange n m (f : nat → nat → Qc) :
  sum_upto n (λ i, sum_upto m (λ j, f i j)) = sum_upto m (λ j, sum_upto n (λ i, f i j)).
Proof.
  induction n as [|n IH].
  - rewrite sum_upto_0. symmetry. by apply sum_upto_all_zero.
  - rewrite sum_upto_S, IH, <- sum_upto_plus. apply sum_upto_ext; intros j _.
    by rewrite sum_upto_S.
Qed.

(** A sum with one non-zero term. *)
Lemma sum_upto_single n f k0 :
  (k0 < n)%nat → (∀ k, (k < n)%nat → k ≠ k0 → f k = 0) → sum_upto n f = f k0.
Proof.
  induction n as [|n IH]; intros Hk H; [lia|].
  rewrite sum_upto_S. destruct (decide (k0 = n)) as [->|Hne].
  - rewrite sum_upto_all_zero; [ring|]. intros k Hk'. apply H; lia.
  - rewrite IH, (H n) by (auto with lia). ring.
Qed.

(** ** Positions, tabulation and entries *)

Lemma elem_of_indices nr nc i j :
  (i, j) ∈ indices nr nc ↔ (i < nr)%nat ∧ (j < nc)%nat.
Proof.
  unfold indices. rewrite list_elem_of_bind. split.
  - intros (i' & Hj & Hi). apply elem_of_seq in Hi.
    apply list_elem_of_fmap in Hj as (j' & [= -> ->] & Hj). apply elem_of_seq in Hj. lia.
  - intros [Hi Hj]. exists i. split; [|apply elem_of_seq; lia].
    apply list_elem_of_fmap. exists j. split; [done|apply elem_of_seq; lia].
Qed.

Lemma indices_nil nr nc : indices nr nc = [] ↔ nr = 0%nat ∨ nc = 0%nat.
Proof.
  split.
  - intros H. destruct nr as [|nr]; [by left|]. destruct nc as [|nc]; [by right|].
    assert ((0, 0)%nat ∈ indices (S nr) (S nc)) as Hin by (apply elem_of_indices; lia).
    rewrite H in Hin. by apply elem_of_nil in Hin.
  - intros [-> | ->]; [done|]. unfold indices.
    induction (seq 0 nr) as [|x l IH]; [done|]. simpl. done.
Qed.

Lemma tabulate_lookup nr nc f i j :
  (i < nr)%nat → (j < nc)%nat →
  (row ← tabulate nr nc f !! i; row !! j) = Some (f i j).
Proof.
  intros Hi Hj. unfold tabulate. rewrite list_lookup_fmap, lookup_seq_lt by done.
  simpl. rewrite list_lookup_fmap, lookup_seq_lt by done. done.
Qed.

Lemma entry_dense_of nr nc f i j :
  (i < nr)%nat → (j < nc)%nat → entry (dense_of nr nc f) i j = f i j.
Proof. intros Hi Hj. simpl. by rewrite tabulate_lookup. Qed.

Lemma wf_dense_of nr nc f : wf (dense_of nr nc f).
Proof.
  simpl. unfold tabulate. split; [by rewrite length_fmap, length_seq|].
  apply Forall_fmap, Forall_forall. intros i _. simpl.
  by rewrite length_fmap, length_seq.
Qed.

Lemma tabulate_ext nr nc f g :
  (∀ i j, (i < nr)%nat → (j < nc)%nat → f i j = g i j) →
  tabulate nr nc f = tabulate nr nc g.
Proof.
  intros H. unfold tabulate. apply list_eq; intros i.
  rewrite !list_lookup_fmap. destruct (decide (i < nr)%nat) as [Hi|Hi].
  - rewrite lookup_seq_lt by done. simpl. f_equal. apply list_eq; intros j.
    rewrite !list_lookup_fmap. destruct (decide (j < nc)%nat) as [Hj|Hj].
    + rewrite lookup_seq_lt by done. simpl. f_equal. by apply H.
    + by rewrite lookup_seq_ge by lia.
  - by rewrite lookup_seq_ge by lia.
Qed.

(** A well-formed dense matrix is the tabulation of its entries. *)
Lemma dense_tabulate nr nc rows :
  wf (Dense nr nc rows) → rows = tabulate nr nc (entry (Dense nr nc rows)).
Proof.
  intros [Hlen Hrows]. apply list_eq; intros i. unfold tabulate.
  rewrite list_lookup_fmap. destruct (decide (i < nr)%nat) as [Hi|Hi].
  - rewrite lookup_seq_lt by done. simpl.
    destruct (lookup_lt_is_Some_2 rows i) as [row Hrow]; [lia|].
    rewrite Hrow. f_equal.
    assert (length row = nc) as Hrl.
    { rewrite Forall_forall in Hrows. apply Hrows. by eapply list_elem_of_lookup_2. }
    apply list_eq; intros j. rewrite list_lookup_fmap.
    destruct (decide (j < nc)%nat) as [Hj|Hj].
    + rewrite lookup_seq_lt by done. simpl.
      destruct (lookup_lt_is_Some_2 row j) as [x Hx]; [lia|]. by rewrite Hrow; simpl; rewrite Hx.
    + rewrite lookup_seq_ge by lia. simpl. apply lookup_ge_None. lia.
  - rewrite lookup_seq_ge by lia. simpl. apply lookup_ge_None. lia.
Qed.

Lemma dense_eq nr nc rows rows' :
  wf (Dense nr nc rows) → wf (Dense nr nc rows') →
  (∀ i j, (i < nr)%nat → (j < nc)%nat →
     entry (Dense nr nc rows) i j = entry (Dense nr nc rows') i j) →
  rows = rows'.
Proof.
  intros H1 H2 He. rewrite (dense_tabulate _ _ _ H1), (dense_tabulate _ _ _ H2).
  by apply tabulate_ext.
Qed.

Lemma lookup_dok_set (k : nat * nat) (v : Qc) (d : gmap (nat * nat) Qc) (k' : nat * nat) :
  default 0 (dok_set k v d !! k') = if decide (k = k') then v else default 0 (d !! k').
Proof.
  unfold dok_set. destruct (decide (v = 0)) as [->|].
  - rewrite lookup_delete. by destruct (decide (k = k')).
  - rewrite lookup_insert. by destruct (decide (k = k')).
Qed.

Lemma dok_set_is_Some (k : nat * nat) (v : Qc) (d : gmap (nat * nat) Qc) (k' : nat * nat) :
  is_Some (dok_set k v d !! k') → k' = k ∨ is_Some (d !! k').
Proof.
  unfold dok_set. destruct (decide (v = 0)).
  - rewrite lookup_delete. destruct (decide (k = k')); [auto|auto].
  - rewrite lookup_insert. destruct (decide (k = k')); auto.
Qed.

Lemma sp_tabulate_fold_lookup (l : list (nat * nat)) (f : nat → nat → Qc) (k : nat * nat) :
  default 0 (foldr (λ k d, dok_set k (f k.1 k.2) d) ∅ l !! k)
  = if decide (k ∈ l) then f k.1 k.2 else 0.
Proof.
  induction l as [|k0 l IH]; cbn [foldr].
  - rewrite lookup_empty. case_decide as Hin; [by apply elem_of_nil in Hin|done].
  - rewrite lookup_dok_set, IH.
    destruct (decide (k0 = k)) as [->|Hne].
    + rewrite decide_True; [done|]. apply list_elem_of_here.
    + apply decide_ext. rewrite elem_of_cons. intuition congruence.
Qed.

Lemma sp_tabulate_lookup nr nc f i j :
  default 0 (sp_tabulate nr nc f !! (i, j))
  = if decide ((i < nr)%nat ∧ (j < nc)%nat) then f i j else 0.
Proof.
  unfold sp_tabulate. rewrite sp_tabulate_fold_lookup. simpl.
  apply decide_ext, elem_of_indices.
Qed.

Lemma entry_sp_tabulate fmt nr nc f i j :
  (i < nr)%nat → (j < nc)%nat → entry (Sparse fmt nr nc (sp_tabulate nr nc f)) i j = f i j.
Proof. intros Hi Hj. simpl. rewrite sp_tabulate_lookup. by rewrite decide_True. Qed.

Lemma wf_sp_tabulate fmt nr nc f : wf (Sparse fmt nr nc (sp_tabulate nr nc f)).
Proof.
  simpl. unfold sp_tabulate.
  assert (∀ l, Forall (λ k, (k.1 < nr)%nat ∧ (k.2 < nc)%nat) l →
    map_Forall (λ k _, (k.1 < nr)%nat ∧ (k.2 < nc)%nat)
      (foldr (λ k d, dok_set k (f k.1 k.2) d) (∅ : gmap (nat * nat) Qc) l)) as H.
  { induction 1 as [|k l Hk Hl IH]; simpl; [apply map_Forall_empty|].
    intros k' v Hv. edestruct (dok_set_is_Some k (f k.1 k.2)) as [->|[v' Hv']]; eauto. }
  apply H, Forall_forall. intros [i j] Hin. by apply elem_of_indices in Hin.
Qed.

(** Entries outside the shape of a well-formed matrix read as zero. *)
Lemma entry_outside m i j :
  wf m → ¬ ((i < nrows m)%nat ∧ (j < ncols m)%nat) → entry m i j = 0.
Proof.
  destruct m as [nr nc rows|fmt nr nc d]; simpl; intros Hwf Hout.
  - destruct Hwf as [Hlen Hrows]. destruct (rows !! i) as [row|] eqn:Hrow; [|done].
    simpl. assert (length row = nc) as Hrl.
    { rewrite Forall_forall in Hrows. apply Hrows. by eapply list_elem_of_lookup_2. }
    apply lookup_lt_Some in Hrow. rewrite lookup_ge_None_2; [done|]. unfold nrows, ncols in Hout.
    simpl in Hout. lia.
  - destruct (d !! (i, j)) as [v|] eqn:Hv; [|done].
    apply Hwf in Hv. unfold nrows, ncols in Hout. simpl in *. lia.
Qed.

Lemma Forall_indices (P : nat * nat → Prop) nr nc :
  Forall P (indices nr nc) ↔ ∀ i j, (i < nr)%nat → (j < nc)%nat → P (i, j).
Proof.
  rewrite Forall_forall. split.
  - intros H i j Hi Hj. apply H, elem_of_indices. done.
  - intros H [i j] Hin. apply elem_of_indices in Hin as [? ?]. by apply H.
Qed.

Lemma nonneg_entry m :
  nonneg m ↔ ∀ i j, (i < nrows m)%nat → (j < ncols m)%nat → 0 ≤ entry m i j.
Proof. unfold nonneg. by rewrite Forall_indices. Qed.

Lemma same_matrix_entry a b :
  same_matrix a b ↔
  shape a = shape b ∧
  ∀ i j, (i < nrows a)%nat → (j < ncols a)%nat → entry a i j = entry b i j.
Proof. unfold same_matrix. by rewrite Forall_indices. Qed.

Lemma same_matrix_refl a : same_matrix a a.
Proof. by apply same_matrix_entry. Qed.

Lemma same_matrix_sym a b : same_matrix a b → same_matrix b a.
Proof.
  rewrite !same_matrix_entry. intros [Hs He]. split; [done|]. intros i j Hi Hj.
  symmetry. apply He.
  - unfold nrows in *. by rewrite Hs.
  - unfold ncols in *. by rewrite Hs.
Qed.

Lemma same_matrix_trans a b c : same_matrix a b → same_matrix b c → same_matrix a c.
Proof.
  rewrite !same_matrix_entry. intros [Hs He] [Hs' He']. split; [congruence|].
  intros i j Hi Hj.
  rewrite He by done. apply He'; unfold nrows, ncols in *; by rewrite <- Hs.
Qed.

(** Dense matrices denoting one logical matrix are equal. *)
Lemma same_matrix_dense nr nc rows nr' nc' rows' :
  wf (Dense nr nc rows) → wf (Dense nr' nc' rows') →
  same_matrix (Dense nr nc rows) (Dense nr' nc' rows') →
  Dense nr nc rows = Dense nr' nc' rows'.
Proof.
  intros H1 H2 [Hs He]%same_matrix_entry. simpl in Hs. injection Hs as <- <-.
  f_equal. by apply (dense_eq nr nc).
Qed.

Lemma toarray_same m : wf m → same_matrix m (toarray m).
Proof.
  destruct m as [nr nc rows|fmt nr nc d]; intros Hwf; [apply same_matrix_refl|].
  apply same_matrix_entry. split; [done|]. intros i j Hi Hj. unfold toarray.
  by rewrite entry_dense_of.
Qed.

(** ** Column normalization *)


Lemma col_norm_col_sum m j :
  (j < ncols m)%nat → nonneg m → col_norm m j = col_sum m j.
Proof.
  intros Hj Hm. apply sum_upto_ext. intros i Hi. apply Qcabs_pos.
  by apply nonneg_entry.
Qed.

Lemma Qcdiv_0_l (x : Qc) : 0 / x = 0.
Proof. unfold Qcdiv. apply Qcmult_0_l. Qed.

Lemma Qcdiv_1_r (x : Qc) : x / 1 = x.
Proof. unfold Qcdiv. by rewrite <- (Qcmult_1_r (x * / 1)), <- Qcmult_assoc, Qcmult_inv_l, Qcmult_1_r. Qed.

Lemma handle_zeros_nonzero s : handle_zeros s ≠ 0.
Proof. unfold handle_zeros. case_decide; [discriminate|done]. Qed.

(** What [sk_normalize] computes, entry by entry. *)
Lemma sk_normalize_spec m :
  wf m → nrows m ≠ 0%nat → ncols m ≠ 0%nat →
  ∃ m', sk_normalize m = Ok m' ∧ shape m' = shape m ∧ wf m' ∧
        isspmatrix m' = isspmatrix m ∧
        ∀ i j, (i < nrows m)%nat → (j < ncols m)%nat →
               entry m' i j = entry m i j / handle_zeros (col_norm m j).
Proof.
  intros Hwf Hr Hc. unfold sk_normalize. rewrite decide_False by tauto.
  destruct m as [nr nc rows|fmt nr nc d]; eexists; (split; [reflexivity|]).
  - destruct Hwf as [Hlen Hrows]. split_and!; [done|split|done|].
    + by rewrite length_fmap.
    + apply Forall_fmap. eapply Forall_impl; [exact Hrows|]. simpl. intros row Hrow.
      rewrite length_zip_with, length_fmap, length_seq. lia.
    + intros i j Hi Hj. unfold nrows, ncols in Hi, Hj. simpl in Hi, Hj.
      cbn [entry]. rewrite list_lookup_fmap.
      destruct (lookup_lt_is_Some_2 rows i) as [row Hrow]; [lia|]. rewrite Hrow. simpl.
      assert (length row = nc) as Hrl.
      { rewrite Forall_forall in Hrows. apply Hrows. by eapply list_elem_of_lookup_2. }
      destruct (lookup_lt_is_Some_2 row j) as [x Hx]; [lia|].
      rewrite lookup_zip_with, Hx. simpl.
      rewrite list_lookup_fmap, lookup_seq_lt by done. done.
  - split_and!; [done| |done|].
    + intros k v Hv. simpl. rewrite map_lookup_imap in Hv.
      destruct (d !! k) as [v'|] eqn:Hk; [|done]. by apply Hwf in Hk.
    + intros i j Hi Hj. cbn [entry]. rewrite map_lookup_imap.
      destruct (d !! (i, j)) as [v|] eqn:Hk; simpl.
      * unfold handle_zeros. case_decide; [by rewrite Qcdiv_1_r|done].
      * by rewrite Qcdiv_0_l.
Qed.

Lemma sk_normalize_empty m :
  nrows m = 0%nat ∨ ncols m = 0%nat → sk_normalize m = Raise ValueError.
Proof. intros H. unfold sk_normalize. by rewrite decide_True. Qed.

Lemma sk_normalize_Ok_nonempty m m' :
  sk_normalize m = Ok m' → nrows m ≠ 0%nat ∧ ncols m ≠ 0%nat.
Proof. unfold sk_normalize. case_decide; [done|]. intros _. lia. Qed.

(** The columns of a normalized non-negative matrix. *)
Lemma normalize_columns m m' j :
  wf m → nonneg m → normalize m = Ok m' → (j < ncols m)%nat →
  (col_sum m j ≠ 0 →
     (∀ i, (i < nrows m)%nat → entry m' i j = entry m i j / col_sum m j) ∧
     col_sum m' j = 1) ∧
  (col_sum m j = 0 → ∀ i, (i < nrows m)%nat → entry m' i j = 0).
Proof.
  intros Hwf Hnn Hn Hj. unfold normalize in Hn.
  destruct (sk_normalize_Ok_nonempty _ _ Hn) as [Hr Hc].
  destruct (sk_normalize_spec m Hwf Hr Hc) as (m'' & Hn' & Hsh & Hwf' & _ & He).
  rewrite Hn in Hn'. injection Hn' as <-.
  rewrite <- (col_norm_col_sum m j Hj Hnn). split.
  - intros Hs. assert (handle_zeros (col_norm m j) = col_norm m j) as Hh.
    { unfold handle_zeros. by rewrite decide_False. }
    split.
    + intros i Hi. by rewrite He, Hh.
    + unfold col_sum, nrows. rewrite Hsh. fold (nrows m).
      rewrite (sum_upto_ext _ _ (λ i, Qcabs (entry m i j) * / col_norm m j)).
      * rewrite sum_upto_scale_r. fold (col_norm m j). by apply Qcmult_inv_r.
      * intros i Hi. rewrite He, Hh by done. unfold Qcdiv. f_equal.
        symmetry. apply Qcabs_pos. by apply nonneg_entry.
  - intros Hs i Hi. rewrite He by done.
    assert (Qcabs (entry m i j) = 0) as H0.
    { apply (sum_upto_zero (nrows m) (λ i, Qcabs (entry m i j))); auto.
      intros. apply Qcabs_nonneg. }
    apply Qcabs_null in H0. rewrite H0. apply Qcdiv_0_l.
Qed.

(** A normalized matrix supports item access: a sparse result is CSC. *)
Lemma sk_normalize_indexable m m' : sk_normalize m = Ok m' → indexable m' = true.
Proof.
  unfold sk_normalize. case_decide; [done|]. destruct m; by intros [= <-].
Qed.

(** ** Element-wise maps and pruning *)

Lemma entry_rows_map f nr nc rows i j :
  wf (Dense nr nc rows) → (i < nr)%nat → (j < nc)%nat →
  entry (Dense nr nc (rows_map f rows)) i j = f (entry (Dense nr nc rows) i j).
Proof.
  intros [Hlen Hrows] Hi Hj. cbn [entry]. unfold rows_map.
  rewrite list_lookup_fmap.
  destruct (lookup_lt_is_Some_2 rows i) as [row Hrow]; [lia|]. rewrite Hrow. simpl.
  assert (length row = nc) as Hrl.
  { rewrite Forall_forall in Hrows. apply Hrows. by eapply list_elem_of_lookup_2. }
  destruct (lookup_lt_is_Some_2 row j) as [x Hx]; [lia|].
  by rewrite list_lookup_fmap, Hx.
Qed.

Lemma wf_rows_map f nr nc rows :
  wf (Dense nr nc rows) → wf (Dense nr nc (rows_map f rows)).
Proof.
  intros [Hlen Hrows]. split; unfold rows_map; [by rewrite length_fmap|].
  apply Forall_fmap. eapply Forall_impl; [exact Hrows|]. simpl. intros row Hrow.
  by rewrite length_fmap.
Qed.

(** Mapping a function that fixes every entry leaves the rows as they are. *)
Lemma rows_map_id f (rows : list (list Qc)) :
  Forall (Forall (λ x, f x = x)) rows → rows_map f rows = rows.
Proof.
  unfold rows_map. induction 1 as [|row rows Hrow _ IH]; [done|].
  rewrite fmap_cons, IH. f_equal.
  induction Hrow as [|x row Hx _ IHr]; [done|]. by rewrite fmap_cons, Hx, IHr.
Qed.

Lemma entry_sparse_fmap (f : Qc → Qc) (fmt fmt' : spformat) (nr nc : nat)
    (d : gmap (nat * nat) Qc) (i j : nat) :
  f 0 = 0 →
  entry (Sparse fmt' nr nc (f <$> d)) i j = f (entry (Sparse fmt nr nc d) i j).
Proof. intros Hf. simpl. rewrite lookup_fmap. by destruct (d !! (i, j)). Qed.

Lemma wf_sparse_fmap (f : Qc → Qc) (fmt fmt' : spformat) (nr nc : nat)
    (d : gmap (nat * nat) Qc) :
  wf (Sparse fmt nr nc d) → wf (Sparse fmt' nr nc (f <$> d)).
Proof.
  simpl. intros Hwf k v Hv. rewrite lookup_fmap in Hv.
  destruct (d !! k) as [v'|] eqn:Hk; [|done]. by apply Hwf in Hk.
Qed.

Lemma dok_setitem_lookup (mask : list (nat * nat)) (f : nat * nat → Qc)
    (d : gmap (nat * nat) Qc) (k : nat * nat) :
  default 0 (dok_setitem mask (f <$> mask) d !! k)
  = if decide (k ∈ mask) then f k else default 0 (d !! k).
Proof.
  unfold dok_setitem. induction mask as [|k0 mask IH]; cbn [fmap list_fmap zip zip_with foldr].
  - case_decide as Hin; [by apply elem_of_nil in Hin|done].
  - rewrite lookup_dok_set. simpl. destruct (decide (k0 = k)) as [->|Hne].
    + rewrite decide_True; [done|]. apply list_elem_of_here.
    + rewrite IH. apply decide_ext. rewrite elem_of_cons. intuition congruence.
Qed.

Lemma dok_setitem_keys (mask : list (nat * nat)) (values : list Qc)
    (d : gmap (nat * nat) Qc) (k : nat * nat) :
  is_Some (dok_setitem mask values d !! k) → k ∈ mask ∨ is_Some (d !! k).
Proof.
  unfold dok_setitem. revert values.
  induction mask as [|k0 mask IH]; intros [|v values]; simpl; auto.
  intros H. apply dok_set_is_Some in H as [->|H].
  - left. apply list_elem_of_here.
  - apply IH in H as [H|H]; [left; by apply list_elem_of_further|by right].
Qed.

(** The positions of a sparse matrix that pass [m >= t]. *)
Lemma sp_ge_mask m t mask i j :
  sp_ge m t = Ok mask →
  (i, j) ∈ mask ↔ ((i < nrows m)%nat ∧ (j < ncols m)%nat) ∧ t ≤ entry m i j.
Proof.
  unfold sp_ge. case_decide; [done|]. intros [= <-].
  rewrite list_elem_of_filter, elem_of_indices. simpl. tauto.
Qed.

Lemma prune_dense nr nc rows t :
  wf (Dense nr nc rows) →
  ∃ m', prune (Dense nr nc rows) t = Ok m' ∧ thresholded (Dense nr nc rows) t m' ∧
        wf m' ∧ isspmatrix m' = false.
Proof.
  intros Hwf. eexists. split; [reflexivity|]. split_and!; [split; [done|]| |done].
  - intros i j Hi Hj. by rewrite entry_rows_map.
  - by apply wf_rows_map.
Qed.

Lemma prune_sparse fmt nr nc d t :
  wf (Sparse fmt nr nc d) → t ≠ 0 → subscriptable fmt = true →
  ∃ m', prune (Sparse fmt nr nc d) t = Ok m' ∧ thresholded (Sparse fmt nr nc d) t m' ∧
        wf m' ∧ isspmatrix m' = true.
Proof.
  intros Hwf Ht Hfmt. unfold prune.
  destruct (sp_ge (Sparse fmt nr nc d) t) as [mask|e] eqn:Hmask;
    [|unfold sp_ge in Hmask; by rewrite decide_False in Hmask].
  cbn [mbind result_bind].
  assert (sp_getitem (Sparse fmt nr nc d) mask
          = Ok ((λ k, entry (Sparse fmt nr nc d) k.1 k.2) <$> mask)) as ->.
  { unfold sp_getitem. by destruct fmt. }
  cbn [mbind result_bind]. eexists. split; [reflexivity|].
  split_and!; [split; [done|]| |done].
  - intros i j Hi Hj. cbn [entry].
    rewrite (dok_setitem_lookup mask (λ k, entry (Sparse fmt nr nc d) k.1 k.2)).
    rewrite lookup_empty. cbn [default].
    pose proof (sp_ge_mask _ _ _ i j Hmask) as Hin.
    destruct (decide ((i, j) ∈ mask)) as [Hm|Hm]; rewrite Hin in Hm.
    + rewrite decide_False; [done|]. apply Qcle_not_lt. tauto.
    + rewrite decide_True; [done|]. apply Qcnot_le_lt. tauto.
  - intros [i j] v Hv. simpl.
    destruct (dok_setitem_keys mask _ ∅ (i, j) (mk_is_Some _ _ Hv)) as [Hin|[? Hin]];
      [|by rewrite lookup_empty in Hin].
    apply (sp_ge_mask _ _ _ i j Hmask) in Hin. unfold nrows, ncols in Hin. simpl in Hin. tauto.
Qed.

(** Pruning of a dense non-negative matrix at threshold zero changes
    nothing. *)
Lemma prune_dense_zero nr nc rows :
  wf (Dense nr nc rows) → nonneg (Dense nr nc rows) →
  prune (Dense nr nc rows) 0 = Ok (Dense nr nc rows).
Proof.
  intros Hwf Hnn. destruct (prune_dense nr nc rows 0 Hwf) as (m' & Hp & [Hsh He] & Hwf' & _).
  rewrite Hp. f_equal. simpl in Hp. injection Hp as <-. f_equal.
  apply (dense_eq nr nc); [done..|]. intros i j Hi Hj. rewrite He by done.
  rewrite decide_False; [done|]. apply Qcle_not_lt. by apply nonneg_entry.
Qed.

(** ** Matrix products and powers *)

Lemma prod_entries_ext n f f' g g' i j :
  (∀ k, (k < n)%nat → f i k = f' i k) →
  (∀ k, (k < n)%nat → g k j = g' k j) →
  prod_entries n f g i j = prod_entries n f' g' i j.
Proof.
  intros Hf Hg. apply sum_upto_ext. intros k Hk. by rewrite Hf, Hg.
Qed.

Lemma prod_entries_assoc n f g h i j :
  prod_entries n (prod_entries n f g) h i j
  = prod_entries n f (prod_entries n g h) i j.
Proof.
  unfold prod_entries.
  rewrite (sum_upto_ext n _ (λ k, sum_upto n (λ l, f i l * g l k * h k j))).
  2:{ intros k _. by rewrite <- sum_upto_scale_r. }
  rewrite sum_upto_exchange. apply sum_upto_ext. intros l _.
  rewrite <- sum_upto_scale_l. apply sum_upto_ext. intros k _. ring.
Qed.

Lemma prod_entries_kronecker_l n f i j :
  (i < n)%nat → prod_entries n kronecker f i j = f i j.
Proof.
  intros Hi. unfold prod_entries.
  rewrite (sum_upto_single n _ i Hi).
  - unfold kronecker. rewrite decide_True by done. ring.
  - intros k _ Hne. unfold kronecker. rewrite decide_False by done. ring.
Qed.

Lemma prod_entries_kronecker_r n f i j :
  (j < n)%nat → prod_entries n f kronecker i j = f i j.
Proof.
  intros Hj. unfold prod_entries.
  rewrite (sum_upto_single n _ j Hj).
  - unfold kronecker. rewrite decide_True by done. ring.
  - intros k _ Hne. unfold kronecker. rewrite decide_False by done. ring.
Qed.

Lemma power_entries_1 n f i j :
  (j < n)%nat → power_entries n f 1 i j = f i j.
Proof. intros Hj. simpl. by apply prod_entries_kronecker_r. Qed.

Lemma power_entries_add n f p q i j :
  (i < n)%nat → (j < n)%nat →
  power_entries n f (p + q) i j
  = prod_entries n (power_entries n f p) (power_entries n f q) i j.
Proof.
  revert i j. induction p as [|p IH]; intros i j Hi Hj.
  - simpl. by rewrite prod_entries_kronecker_l.
  - cbn [Nat.add power_entries]. rewrite prod_entries_assoc.
    apply prod_entries_ext; [done|]. intros k Hk. by apply IH.
Qed.

Lemma represents_ext n m f g :
  represents n m f → (∀ i j, (i < n)%nat → (j < n)%nat → f i j = g i j) →
  represents n m g.
Proof.
  intros (Hwf & Hsh & He) Hfg. split_and!; [done..|].
  intros i j Hi Hj. rewrite He by done. by apply Hfg.
Qed.

Lemma represents_entry m :
  wf m → square m → represents (nrows m) m (entry m).
Proof.
  intros Hwf Hsq. split_and!; [done| |done].
  unfold square, nrows, ncols in *. destruct (shape m); simpl in *; congruence.
Qed.

Lemma represents_same n a b f :
  represents n a f → represents n b f → same_matrix a b.
Proof.
  intros (_ & Hsa & Hea) (_ & Hsb & Heb). apply same_matrix_entry.
  split; [congruence|]. unfold nrows, ncols. rewrite Hsa. simpl.
  intros i j Hi Hj. by rewrite Hea, Heb.
Qed.

Lemma represents_dense_of n f : represents n (dense_of n n f) f.
Proof.
  split_and!; [apply wf_dense_of|done|]. intros i j Hi Hj. by apply entry_dense_of.
Qed.

(** The result of a product, in either representation. *)
Lemma matmul_represents n a b f g :
  represents n a f → represents n b g →
  ∃ c, matmul a b = Ok c ∧ represents n c (prod_entries n f g) ∧
       isspmatrix c = isspmatrix a && isspmatrix b.
Proof.
  intros (Hwa & Hsa & Hea) (Hwb & Hsb & Heb). unfold matmul.
  assert (ncols a = n ∧ nrows a = n ∧ ncols b = n ∧ nrows b = n) as (Hca & Hra & Hcb & Hrb).
  { unfold ncols, nrows. by rewrite Hsa, Hsb. }
  rewrite decide_True by congruence.
  assert (∀ i j, (i < n)%nat → (j < n)%nat → dot_entry a b i j = prod_entries n f g i j) as Hd.
  { intros i j Hi Hj. unfold dot_entry, prod_entries. rewrite Hca.
    apply sum_upto_ext. intros k Hk. by rewrite Hea, Heb. }
  destruct a as [nra nca rowsa|fmta nra nca da], b as [nrb ncb rowsb|fmtb nrb ncb db];
    simpl in Hsa, Hsb; injection Hsa as -> ->; injection Hsb as -> ->;
    eexists; (split; [reflexivity|]); (split; [|done]).
  1-3: split_and!; [apply wf_dense_of|done|];
       intros i j Hi Hj; rewrite entry_dense_of by done; by apply Hd.
  split_and!; [apply wf_sp_tabulate|done|].
  intros i j Hi Hj. rewrite entry_sp_tabulate by done. by apply Hd.
Qed.

(** The loop of [np.linalg.matrix_power] on a dense matrix: with [z] the
    [e]-th power and [res] the [q]-th power collected so far, the loop
    over the exponent [p] returns the power [q + e * p]. *)
Lemma matrix_power_loop_represents n f p :
  ∀ z res e q,
    represents n z (power_entries n f e) → isspmatrix z = false →
    match res with
    | None => q = 0%nat
    | Some r => represents n r (power_entries n f q) ∧ isspmatrix r = false
    end →
    ∃ c, matrix_power_loop z res p = Ok c ∧
         represents n c (power_entries n f (q + e * Pos.to_nat p)) ∧
         isspmatrix c = false.
Proof.
  induction p as [p IH|p IH|]; intros z res e q Hz Hzd Hres; cbn [matrix_power_loop].
  - (* odd: collect [z], square it, go on *)
    assert (∃ r, match res with None => Ok z | Some r => matmul r z end = Ok r ∧
                 represents n r (power_entries n f (q + e)) ∧ isspmatrix r = false)
      as (r & -> & Hr & Hrd).
    { destruct res as [r|].
      - destruct Hres as [Hr Hrd].
        destruct (matmul_represents n r z _ _ Hr Hz) as (c & -> & Hc & Hcd).
        exists c. split_and!; [done| |by rewrite Hcd, Hrd].
        eapply represents_ext; [exact Hc|]. intros i j Hi Hj.
        by rewrite power_entries_add.
      - subst q. exists z. by split_and!. }
    cbn [mbind result_bind].
    destruct (matmul_represents n z z _ _ Hz Hz) as (z' & -> & Hz' & Hzd').
    cbn [mbind result_bind].
    assert (represents n z' (power_entries n f (e + e))) as Hz2.
    { eapply represents_ext; [exact Hz'|]. intros i j Hi Hj. by rewrite power_entries_add. }
    destruct (IH z' (Some r) (e + e)%nat (q + e)%nat Hz2) as (c & -> & Hc & Hcd);
      [by rewrite Hzd', Hzd|done|].
    exists c. split_and!; [done| |done].
    replace (q + e * Pos.to_nat p~1)%nat with (q + e + (e + e) * Pos.to_nat p)%nat; [done|].
    rewrite Pos2Nat.inj_xI. lia.
  - (* even: square [z], go on *)
    destruct (matmul_represents n z z _ _ Hz Hz) as (z' & -> & Hz' & Hzd').
    cbn [mbind result_bind].
    assert (represents n z' (power_entries n f (e + e))) as Hz2.
    { eapply represents_ext; [exact Hz'|]. intros i j Hi Hj. by rewrite power_entries_add. }
    destruct (IH z' res (e + e)%nat q Hz2) as (c & -> & Hc & Hcd);
      [by rewrite Hzd', Hzd|done|].
    exists c. split_and!; [done| |done].
    replace (q + e * Pos.to_nat p~0)%nat with (q + (e + e) * Pos.to_nat p)%nat; [done|].
    rewrite Pos2Nat.inj_xO. lia.
  - (* the last bit *)
    replace (q + e * Pos.to_nat 1)%nat with (q + e)%nat by (simpl; lia).
    destruct res as [r|].
    + destruct Hres as [Hr Hrd].
      destruct (matmul_represents n r z _ _ Hr Hz) as (c & -> & Hc & Hcd).
      exists c. split_and!; [done| |by rewrite Hcd, Hrd].
      eapply represents_ext; [exact Hc|]. intros i j Hi Hj. by rewrite power_entries_add.
    + subst q. exists z. by split_and!.
Qed.

Lemma np_matrix_power_represents n a f (p : N) :
  represents n a f → isspmatrix a = false →
  ∃ c, np_matrix_power a p = Ok c ∧
       represents n c (power_entries n f (N.to_nat p)) ∧ isspmatrix c = false.
Proof.
  intros Ha Had. pose proof Ha as (Hwa & Hsa & Hea). unfold np_matrix_power.
  assert (nrows a = n ∧ ncols a = n) as [Hra Hca] by (unfold nrows, ncols; by rewrite Hsa).
  rewrite decide_True by congruence.
  assert (represents n a (power_entries n f 1)) as Ha1.
  { eapply represents_ext; [exact Ha|]. intros i j Hi Hj. by rewrite power_entries_1. }
  assert (∀ q,
    ∃ c, matrix_power_loop a None q = Ok c ∧
         represents n c (power_entries n f (Pos.to_nat q)) ∧ isspmatrix c = false) as Hloop.
  { intros q.
    destruct (matrix_power_loop_represents n f q a None 1 0 Ha1 Had eq_refl)
      as (c & Hc & Hr & Hd).
    exists c. split_and!; [done| |done].
    by replace (Pos.to_nat q) with (0 + 1 * Pos.to_nat q)%nat by lia. }
  destruct p as [|p].
  - exists (dense_eye (nrows a)). rewrite Hra. split_and!; [done| |done].
    apply represents_dense_of.
  - destruct p as [[p|p|]|[p|p|]|]; try apply Hloop.
    + (* 3 *)
      destruct (matmul_represents n a a _ _ Ha1 Ha1) as (aa & -> & Haa & Hd).
      cbn [mbind result_bind].
      destruct (matmul_represents n aa a _ _ Haa Ha1) as (c & -> & Hc & Hd').
      exists c. split_and!; [done| |by rewrite Hd', Hd, Had].
      eapply represents_ext; [exact Hc|]. intros i j Hi Hj.
      change (N.to_nat 3) with (1 + 1 + 1)%nat.
      rewrite (power_entries_add n f (1 + 1) 1) by done.
      apply prod_entries_ext; [|done]. intros k Hk. by rewrite power_entries_add.
    + (* 2 *)
      destruct (matmul_represents n a a _ _ Ha1 Ha1) as (c & -> & Hc & Hd).
      exists c. split_and!; [done| |by rewrite Hd, Had].
      eapply represents_ext; [exact Hc|]. intros i j Hi Hj.
      change (N.to_nat 2) with (1 + 1)%nat. by rewrite power_entries_add.
    + (* 1 *)
      exists a. by split_and!.
Qed.

Lemma sp_pow_pos_represents n a f p :
  represents n a f → isspmatrix a = true →
  ∃ c, sp_pow_pos a p = Ok c ∧
       represents n c (power_entries n f (Pos.to_nat p)) ∧ isspmatrix c = true.
Proof.
  intros Ha Had.
  assert (represents n a (power_entries n f 1)) as Ha1.
  { eapply represents_ext; [exact Ha|]. intros i j Hi Hj. by rewrite power_entries_1. }
  induction p as [p IH|p IH|]; cbn [sp_pow_pos].
  - destruct IH as (tmp & -> & Htmp & Hd). cbn [mbind result_bind].
    destruct (matmul_represents n a tmp _ _ Ha1 Htmp) as (t & -> & Ht & Hd').
    cbn [mbind result_bind].
    destruct (matmul_represents n t tmp _ _ Ht Htmp) as (c & -> & Hc & Hd'').
    exists c. split_and!; [done| |by rewrite Hd'', Hd', Had, Hd].
    eapply represents_ext; [exact Hc|]. intros i j Hi Hj.
    rewrite Pos2Nat.inj_xI.
    replace (S (2 * Pos.to_nat p)) with (1 + Pos.to_nat p + Pos.to_nat p)%nat by lia.
    rewrite (power_entries_add n f (1 + Pos.to_nat p)) by done.
    apply prod_entries_ext; [|done]. intros k Hk. by rewrite power_entries_add.
  - destruct IH as (tmp & -> & Htmp & Hd). cbn [mbind result_bind].
    destruct (matmul_represents n tmp tmp _ _ Htmp Htmp) as (c & -> & Hc & Hd').
    exists c. split_and!; [done| |by rewrite Hd', Hd].
    eapply represents_ext; [exact Hc|]. intros i j Hi Hj.
    rewrite Pos2Nat.inj_xO.
    replace (2 * Pos.to_nat p)%nat with (Pos.to_nat p + Pos.to_nat p)%nat by lia.
    by rewrite power_entries_add.
  - exists a. by split_and!.
Qed.

Lemma sp_pow_represents n a f (p : N) :
  represents n a f → isspmatrix a = true →
  ∃ c, sp_pow a p = Ok c ∧
       represents n c (power_entries n f (N.to_nat p)) ∧ isspmatrix c = true.
Proof.
  intros Ha Had. pose proof Ha as (Hwa & Hsa & Hea). unfold sp_pow.
  assert (nrows a = n ∧ ncols a = n) as [Hra Hca] by (unfold nrows, ncols; by rewrite Hsa).
  rewrite decide_True by congruence. destruct p as [|p].
  - exists (sparse_eye (nrows a)). rewrite Hra. split_and!; [done| |done].
    split_and!; [apply wf_sp_tabulate|done|]. intros i j Hi Hj.
    unfold sparse_eye. by rewrite entry_sp_tabulate.
  - by apply sp_pow_pos_represents.
Qed.

(** [expand] returns the power by repeated multiplication, stored as its
    argument is. *)
Lemma expand_represents n a f (p : N) :
  represents n a f →
  ∃ c, expand a p = Ok c ∧
       represents n c (power_entries n f (N.to_nat p)) ∧
       isspmatrix c = isspmatrix a.
Proof.
  intros Ha. unfold expand. destruct (isspmatrix a) eqn:Hsp.
  - by apply sp_pow_represents.
  - by apply np_matrix_power_represents.
Qed.

Lemma expand_one a : square a → expand a 1 = Ok a.
Proof.
  intros Hsq. unfold expand, sp_pow, np_matrix_power.
  destruct (isspmatrix a); by rewrite decide_True.
Qed.

(** ** The convergence test *)

Lemma Forall_entries (P : Qc → Prop) m :
  Forall P (entries m) ↔
  ∀ i j, (i < nrows m)%nat → (j < ncols m)%nat → P (entry m i j).
Proof. unfold entries. rewrite Forall_fmap. apply (Forall_indices (λ k, P (entry m k.1 k.2))). Qed.

Lemma entries_nil m : entries m = [] ↔ nrows m = 0%nat ∨ ncols m = 0%nat.
Proof.
  unfold entries. rewrite <- indices_nil. split; [apply fmap_nil_inv|by intros ->].
Qed.

Lemma Qc_max_le x y t : Qc_max x y ≤ t ↔ x ≤ t ∧ y ≤ t.
Proof.
  unfold Qc_max. case_decide as H.
  - split; [intros Hy; split; [by eapply Qcle_trans|done]|tauto].
  - apply Qcnot_le_lt, Qclt_le_weak in H.
    split; [intros Hx; split; [done|by eapply Qcle_trans]|tauto].
Qed.

Lemma foldr_Qc_max_le x l t : foldr Qc_max x l ≤ t ↔ Forall (λ y, y ≤ t) (x :: l).
Proof.
  induction l as [|y l IH]; simpl.
  - rewrite Forall_singleton. done.
  - rewrite Qc_max_le, IH, !Forall_cons. tauto.
Qed.

Lemma mat_max_le m t :
  nrows m ≠ 0%nat → ncols m ≠ 0%nat →
  ∃ mx, mat_max m = Ok mx ∧
        (mx ≤ t ↔ ∀ i j, (i < nrows m)%nat → (j < ncols m)%nat → entry m i j ≤ t).
Proof.
  intros Hr Hc. unfold mat_max. destruct (entries m) as [|x l] eqn:He.
  - apply entries_nil in He. lia.
  - eexists. split; [done|]. by rewrite foldr_Qc_max_le, <- He, Forall_entries.
Qed.

Lemma mat_max_empty m :
  nrows m = 0%nat ∨ ncols m = 0%nat → mat_max m = Raise ValueError.
Proof. intros H. unfold mat_max. apply entries_nil in H. by rewrite H. Qed.

Lemma mat_sub_spec a b :
  shape a = shape b →
  ∃ c, mat_sub a b = Ok c ∧ wf c ∧ shape c = shape a ∧
       ∀ i j, (i < nrows a)%nat → (j < ncols a)%nat →
              entry c i j = entry a i j - entry b i j.
Proof.
  intros Hs. unfold mat_sub. rewrite decide_True by done.
  destruct a as [nr nc rows|fmt nr nc d], b as [nr' nc' rows'|fmt' nr' nc' d'];
    eexists; (split; [reflexivity|]).
  1-3: split_and!; [apply wf_dense_of|done|]; intros i j Hi Hj;
       by apply (entry_dense_of _ _ (λ i j, _ - _)).
  split_and!; [apply wf_sp_tabulate|done|]. intros i j Hi Hj.
  by apply (entry_sp_tabulate _ _ _ (λ i j, _ - _)).
Qed.

Lemma Qcabs_0 : Qcabs 0 = 0.
Proof. apply Qcabs_pos, Qcle_refl. Qed.

Lemma mat_abs_spec m :
  wf m →
  wf (mat_abs m) ∧ shape (mat_abs m) = shape m ∧
  ∀ i j, (i < nrows m)%nat → (j < ncols m)%nat →
         entry (mat_abs m) i j = Qcabs (entry m i j).
Proof.
  intros Hwf. destruct m as [nr nc rows|fmt nr nc d]; unfold mat_abs.
  - split_and!; [by apply wf_rows_map|done|]. intros i j Hi Hj. by apply entry_rows_map.
  - split_and!; [by eapply wf_sparse_fmap|done|]. intros i j _ _.
    apply entry_sparse_fmap, Qcabs_0.
Qed.

Lemma mat_scale_spec r m :
  wf m →
  wf (mat_scale r m) ∧ shape (mat_scale r m) = shape m ∧
  ∀ i j, (i < nrows m)%nat → (j < ncols m)%nat →
         entry (mat_scale r m) i j = r * entry m i j.
Proof.
  intros Hwf. destruct m as [nr nc rows|fmt nr nc d]; unfold mat_scale.
  - split_and!; [by apply wf_rows_map|done|]. intros i j Hi Hj. by apply entry_rows_map.
  - split_and!; [by eapply wf_sparse_fmap|done|]. intros i j _ _.
    apply entry_sparse_fmap. apply Qcmult_0_r.
Qed.

Lemma shape_nrows_ncols a b : shape a = shape b → nrows a = nrows b ∧ ncols a = ncols b.
Proof. unfold nrows, ncols. by intros ->. Qed.

(** [sparse_allclose] on matrices with at least one entry. *)
Lemma sparse_allclose_spec a b rtol atol :
  wf a → wf b → shape a = shape b → nrows a ≠ 0%nat → ncols a ≠ 0%nat →
  ∃ r, sparse_allclose a b rtol atol = Ok r ∧
       (r = true ↔
        ∀ i j, (i < nrows a)%nat → (j < ncols a)%nat →
               Qcabs (entry a i j - entry b i j) ≤ atol + rtol * Qcabs (entry b i j)).
Proof.
  intros Hwa Hwb Hs Hr Hc. unfold sparse_allclose.
  destruct (shape_nrows_ncols _ _ Hs) as [Hrb Hcb].
  destruct (mat_sub_spec a b Hs) as (d & -> & Hwd & Hsd & Hed). cbn [mbind result_bind].
  destruct (shape_nrows_ncols _ _ Hsd) as [Hrd Hcd].
  destruct (mat_abs_spec d Hwd) as (Hwad & Hsad & Head).
  destruct (mat_abs_spec b Hwb) as (Hwab & Hsab & Heab).
  destruct (mat_scale_spec rtol (mat_abs b) Hwab) as (Hws & Hss & Hes).
  destruct (shape_nrows_ncols _ _ Hsab) as [Hrab Hcab].
  destruct (shape_nrows_ncols _ _ Hsad) as [Hrad Hcad].
  destruct (mat_sub_spec (mat_abs d) (mat_scale rtol (mat_abs b))) as (c & -> & Hwc & Hsc & Hec);
    [congruence|]. cbn [mbind result_bind].
  destruct (shape_nrows_ncols _ _ Hsc) as [Hrc Hcc].
  destruct (mat_max_le c atol) as (mx & -> & Hmx); [congruence..|]. cbn [mbind result_bind].
  eexists. split; [done|]. rewrite bool_decide_eq_true, Hmx.
  rewrite Hrc, Hcc, Hrad, Hcad, Hrd, Hcd.
  split; intros H i j Hi Hj; specialize (H i j Hi Hj).
  - rewrite Hec, Head, Hes, Heab, Hed in H by congruence. qc_lra.
  - rewrite Hec, Head, Hes, Heab, Hed by congruence. qc_lra.
Qed.

Lemma sparse_allclose_empty a b rtol atol :
  shape a = shape b → nrows a = 0%nat ∨ ncols a = 0%nat →
  sparse_allclose a b rtol atol = Raise ValueError.
Proof.
  intros Hs He. unfold sparse_allclose.
  destruct (shape_nrows_ncols _ _ Hs) as [Hrb Hcb].
  destruct (mat_sub_spec a b Hs) as (d & -> & Hwd & Hsd & Hed). cbn [mbind result_bind].
  destruct (mat_abs_spec d Hwd) as (Hwad & Hsad & Head).
  destruct (mat_sub_spec (mat_abs d) (mat_scale rtol (mat_abs b))) as (c & -> & Hwc & Hsc & Hec).
  { rewrite Hsad, Hsd, Hs. destruct b; reflexivity. }
  cbn [mbind result_bind]. rewrite mat_max_empty; [done|].
  destruct (shape_nrows_ncols _ _ Hsc) as [Hrc Hcc].
  destruct (shape_nrows_ncols _ _ Hsad) as [Hrad Hcad].
  destruct (shape_nrows_ncols _ _ Hsd) as [Hrd Hcd]. lia.
Qed.

Lemma np_allclose_spec a b rtol atol :
  shape a = shape b →
  ∃ r, np_allclose a b rtol atol = Ok r ∧
       (r = true ↔
        ∀ i j, (i < nrows a)%nat → (j < ncols a)%nat →
               Qcabs (entry a i j - entry b i j) ≤ atol + rtol * Qcabs (entry b i j)).
Proof.
  intros Hs. unfold np_allclose. rewrite decide_True by done.
  eexists. split; [done|].
  rewrite <- Is_true_true, forallb_True, Forall_indices.
  split; intros H i j Hi Hj; specialize (H i j Hi Hj); simpl in *;
    by apply bool_decide_spec in H || apply bool_decide_spec.
Qed.

Lemma all_close_same a b a' b' :
  same_matrix a a' → same_matrix b b' → shape a = shape b →
  all_close a b ↔ all_close a' b'.
Proof.
  intros [Hsa Hea]%same_matrix_entry [Hsb Heb]%same_matrix_entry Hs.
  destruct (shape_nrows_ncols _ _ Hsa) as [Hra Hca].
  destruct (shape_nrows_ncols _ _ Hs) as [Hrb Hcb].
  unfold all_close. rewrite <- Hra, <- Hca.
  split; intros H i j Hi Hj; specialize (H i j Hi Hj).
  - by rewrite <- Hea, <- Heb by congruence.
  - by rewrite Hea, Heb by congruence.
Qed.

(** [converged] decides [all_close]; a sparse operand needs a matrix with
    at least one entry. *)
Lemma converged_spec a b :
  wf a → wf b → shape a = shape b →
  (isspmatrix a || isspmatrix b = true → nrows a ≠ 0%nat ∧ ncols a ≠ 0%nat) →
  ∃ r, converged a b = Ok r ∧ (r = true ↔ all_close a b).
Proof.
  intros Hwa Hwb Hs Hne. unfold converged.
  destruct (isspmatrix a || isspmatrix b) eqn:Hsp.
  - destruct (Hne eq_refl) as [Hr Hc]. by apply sparse_allclose_spec.
  - by apply np_allclose_spec.
Qed.

Lemma converged_refl a :
  wf a → (isspmatrix a = true → nrows a ≠ 0%nat ∧ ncols a ≠ 0%nat) →
  converged a a = Ok true.
Proof.
  intros Hwf Hne. destruct (converged_spec a a Hwf Hwf eq_refl) as (r & -> & Hr).
  { intros H. apply Hne. by destruct (isspmatrix a). }
  f_equal. apply Hr. intros i j _ _.
  replace (entry a i j - entry a i j) with 0 by ring.
  pose proof (Qcabs_nonneg (entry a i j)). rewrite Qcabs_0.
  assert (0 ≤ default_atol) by done. assert (0 ≤ default_rtol) by done. qc_nra.
Qed.


(** ** Inflation *)



Section InflationProperties.
Variable fpow : Qc → Qc → Qc.

Lemma mat_power_spec m r :
  wf m → fpow 0 r = 0 →
  wf (mat_power fpow m r) ∧ shape (mat_power fpow m r) = shape m ∧
  isspmatrix (mat_power fpow m r) = isspmatrix m ∧
  ∀ i j, (i < nrows m)%nat → (j < ncols m)%nat →
         entry (mat_power fpow m r) i j = fpow (entry m i j) r.
Proof.
  intros Hwf H0. destruct m as [nr nc rows|fmt nr nc d]; unfold mat_power.
  - split_and!; [by apply wf_rows_map|done..|]. intros i j Hi Hj.
    by apply (entry_rows_map (λ x, fpow x r)).
  - split_and!; [by eapply wf_sparse_fmap|done..|]. intros i j _ _.
    by apply (entry_sparse_fmap (λ x, fpow x r)).
Qed.

Lemma inflate_unfold m r : inflate fpow m r = normalize (mat_power fpow m r).
Proof. unfold inflate. by destruct (isspmatrix m). Qed.


(** What [inflate] returns on a matrix with at least one entry. *)
Lemma inflate_spec m r :
  wf m → fpow 0 r = 0 → nrows m ≠ 0%nat → ncols m ≠ 0%nat →
  ∃ m', inflate fpow m r = Ok m' ∧ wf m' ∧ shape m' = shape m ∧
        isspmatrix m' = isspmatrix m ∧
        ∀ i j, (i < nrows m)%nat → (j < ncols m)%nat →
               entry m' i j
               = fpow (entry m i j) r / handle_zeros (col_norm (mat_power fpow m r) j).
Proof.
  intros Hwf H0 Hr Hc. rewrite inflate_unfold.
  destruct (mat_power_spec m r Hwf H0) as (Hwp & Hsp & Hip & Hep).
  destruct (shape_nrows_ncols _ _ Hsp) as [Hrp Hcp].
  destruct (sk_normalize_spec (mat_power fpow m r) Hwp) as (m' & Hn & Hs' & Hw' & Hi' & He');
    [congruence..|].
  exists m'. split_and!; [done|done|congruence|congruence|].
  intros i j Hi Hj. rewrite He', Hep by congruence. done.
Qed.

End InflationProperties.

(** ** Self-loops *)

Lemma setitem_spec m i j v :
  wf m → (i < nrows m)%nat → (j < ncols m)%nat →
  ∃ m', setitem m i j v = Ok m' ∧ wf m' ∧ shape m' = shape m ∧
        isspmatrix m' = isspmatrix m ∧
        ∀ i' j', (i' < nrows m)%nat → (j' < ncols m)%nat →
                 entry m' i' j' = if decide (i' = i ∧ j' = j) then v else entry m i' j'.
Proof.
  intros Hwf Hi Hj. unfold setitem. rewrite decide_True by done.
  destruct m as [nr nc rows|fmt nr nc d]; eexists; (split; [reflexivity|]).
  - destruct Hwf as [Hlen Hrows]. unfold nrows, ncols in *. simpl in Hi, Hj.
    split_and!; [split| done | done |].
    + by rewrite length_alter.
    + apply Forall_alter; [done|]. intros row Hrow Hl. by rewrite length_insert.
    + intros i' j' Hi' Hj'. cbn [entry]. simpl in Hi', Hj'.
      destruct (decide (i' = i)) as [->|Hne].
      * rewrite list_lookup_alter_eq.
        destruct (lookup_lt_is_Some_2 rows i) as [row Hrow]; [lia|]. rewrite Hrow. simpl.
        assert (length row = nc) as Hrl.
        { rewrite Forall_forall in Hrows. apply Hrows. by eapply list_elem_of_lookup_2. }
        destruct (decide (j' = j)) as [->|Hnej].
        -- rewrite list_lookup_insert_eq by lia. by rewrite decide_True.
        -- rewrite list_lookup_insert_ne by done. rewrite decide_False by tauto. done.
      * rewrite list_lookup_alter_ne by done. rewrite decide_False by tauto. done.
  - split_and!; [|done|done|].
    + intros k v' Hv'. simpl.
      destruct (dok_set_is_Some (i, j) v d k (mk_is_Some _ _ Hv')) as [->|[v'' Hk]].
      * done.
      * by apply Hwf in Hk.
    + intros i' j' _ _. cbn [entry]. rewrite lookup_dok_set.
      apply decide_ext. split; [by intros [= -> ->]|by intros [-> ->]].
Qed.

Lemma set_diagonal_spec range :
  ∀ m v, wf m → Forall (λ i, (i < nrows m)%nat ∧ (i < ncols m)%nat) range →
  ∃ m', set_diagonal range m v = Ok m' ∧ wf m' ∧ shape m' = shape m ∧
        isspmatrix m' = isspmatrix m ∧
        ∀ i j, (i < nrows m)%nat → (j < ncols m)%nat →
               entry m' i j = if decide (i = j ∧ i ∈ range) then v else entry m i j.
Proof.
  induction range as [|i0 range IH]; intros m v Hwf Hr; cbn [set_diagonal].
  - exists m. split_and!; [done..|]. intros i j _ _.
    rewrite decide_False; [done|]. intros [_ H]. by apply elem_of_nil in H.
  - apply Forall_cons in Hr as [[Hi0 Hi0'] Hr].
    destruct (setitem_spec m i0 i0 v Hwf Hi0 Hi0') as (m1 & -> & Hw1 & Hs1 & Hsp1 & He1).
    cbn [mbind result_bind].
    destruct (shape_nrows_ncols _ _ Hs1) as [Hr1 Hc1].
    destruct (IH m1 v Hw1) as (m' & -> & Hw' & Hs' & Hsp' & He').
    { by rewrite Hr1, Hc1. }
    exists m'. split_and!; [done|done|congruence|congruence|].
    intros i j Hi Hj. rewrite He', He1 by congruence.
    rewrite (decide_ext (i = j ∧ i ∈ i0 :: range) ((i = j ∧ i ∈ range) ∨ (i = i0 ∧ j = i0))).
    2:{ rewrite elem_of_cons. intuition congruence. }
    repeat case_decide; tauto || done.
Qed.

(** [add_self_loops] on a square matrix: the diagonal holds the loop
    value, the other entries are those of the argument. *)
Lemma add_self_loops_spec m v :
  wf m → square m →
  ∃ m', add_self_loops m v = Ok m' ∧ wf m' ∧ shape m' = shape m ∧
        isspmatrix m' = isspmatrix m ∧
        ∀ i j, (i < nrows m)%nat → (j < ncols m)%nat →
               entry m' i j = if decide (i = j) then v else entry m i j.
Proof.
  intros Hwf Hsq. unfold add_self_loops. unfold square, nrows, ncols in Hsq.
  rewrite decide_True by done.
  assert (Forall (λ i, (i < nrows m)%nat ∧ (i < ncols m)%nat) (seq 0 (shape m).1)) as Hr.
  { apply Forall_forall. intros i Hi%elem_of_seq. unfold nrows, ncols. lia. }
  destruct m as [nr nc rows|fmt nr nc d]; cbn [isspmatrix todok].
  - destruct (set_diagonal_spec _ _ v Hwf Hr) as (m' & -> & Hw' & Hs' & Hsp' & He').
    cbn [mbind result_bind]. exists m'. split_and!; [done..|].
    intros i j Hi Hj. rewrite He' by done. apply decide_ext.
    rewrite elem_of_seq. unfold nrows in Hi. lia.
  - assert (wf (Sparse DOK nr nc d)) as Hwd by done.
    destruct (set_diagonal_spec _ _ v Hwd Hr) as (m' & -> & Hw' & Hs' & Hsp' & He').
    cbn [mbind result_bind]. destruct m' as [?|fmt' nr' nc' d']; [done|].
    eexists. split; [reflexivity|]. simpl in Hs'. injection Hs' as -> ->.
    split_and!; [done..|].
    intros i j Hi Hj. specialize (He' i j Hi Hj).
    change (entry (tocsc (Sparse fmt' nr nc d')) i j) with (entry (Sparse fmt' nr nc d') i j).
    rewrite He'.
    change (entry (Sparse DOK nr nc d) i j) with (entry (Sparse fmt nr nc d) i j).
    apply decide_ext. rewrite elem_of_seq. unfold nrows in Hi. simpl in *. lia.
Qed.

(** ** The invariant of the iteration *)

Lemma shape_square n m : shape m = (n, n) → nrows m = n ∧ ncols m = n ∧ square m.
Proof. unfold square, nrows, ncols. by intros ->. Qed.


Lemma expand_total n m p :
  wf m → shape m = (n, n) →
  ∃ m', expand m p = Ok m' ∧ wf m' ∧ shape m' = (n, n) ∧
        isspmatrix m' = isspmatrix m ∧
        ∀ i j, (i < n)%nat → (j < n)%nat →
               entry m' i j = power_entries n (entry m) (N.to_nat p) i j.
Proof.
  intros Hwf Hs. destruct (shape_square n m Hs) as (Hr & Hc & Hsq).
  pose proof (represents_entry m Hwf Hsq) as Hm. rewrite Hr in Hm.
  destruct (expand_represents n m _ p Hm) as (m' & He & (Hw' & Hs' & He') & Hsp).
  exists m'. by split_and!.
Qed.





Lemma normalize_total n m :
  wf m → shape m = (n, n) → n ≠ 0%nat →
  ∃ m', normalize m = Ok m' ∧ wf m' ∧ shape m' = (n, n) ∧
        isspmatrix m' = isspmatrix m ∧ indexable m' = true.
Proof.
  intros Hwf Hs Hn. destruct (shape_square n m Hs) as (Hr & Hc & _).
  destruct (sk_normalize_spec m Hwf) as (m' & Hm' & Hs' & Hw' & Hsp & _); [lia..|].
  exists m'. split_and!; [done|done|congruence|done|].
  by eapply sk_normalize_indexable.
Qed.

Section InvariantInflation.
Variable fpow : Qc → Qc → Qc.
Hypothesis fpow_nonneg : ∀ x r, 0 ≤ x → 0 ≤ fpow x r.

Lemma mat_power_wf m r :
  wf m → wf (mat_power fpow m r) ∧ shape (mat_power fpow m r) = shape m ∧
         isspmatrix (mat_power fpow m r) = isspmatrix m.
Proof.
  intros Hwf. destruct m as [nr nc rows|fmt nr nc d]; unfold mat_power.
  - split_and!; [by apply wf_rows_map|done..].
  - split_and!; [by eapply wf_sparse_fmap|done..].
Qed.



Lemma inflate_total n m r :
  wf m → shape m = (n, n) → n ≠ 0%nat →
  ∃ m', inflate fpow m r = Ok m' ∧ wf m' ∧ shape m' = (n, n) ∧
        isspmatrix m' = isspmatrix m ∧ indexable m' = true.
Proof.
  intros Hwf Hs Hn. rewrite inflate_unfold.
  destruct (mat_power_wf m r Hwf) as (Hwp & Hsp & Hip).
  destruct (normalize_total n (mat_power fpow m r)) as (m' & ? & ? & ? & ? & ?);
    [done|congruence|done|].
  exists m'. split_and!; [done..|congruence|done].
Qed.

End InvariantInflation.

Lemma prune_Ok m t m' :
  wf m → prune m t = Ok m' →
  thresholded m t m' ∧ wf m' ∧ isspmatrix m' = isspmatrix m.
Proof.
  intros Hwf Hp. destruct m as [nr nc rows|fmt nr nc d].
  - destruct (prune_dense nr nc rows t Hwf) as (m'' & Hp' & ? & ? & ?).
    rewrite Hp in Hp'. injection Hp' as <-. done.
  - assert (t ≠ 0) as Ht.
    { intros ->. unfold prune, sp_ge in Hp. by rewrite decide_True in Hp. }
    assert (subscriptable fmt = true) as Hf.
    { unfold prune, sp_ge in Hp. rewrite decide_False in Hp by done.
      cbn [mbind result_bind] in Hp. unfold sp_getitem in Hp. by destruct fmt. }
    destruct (prune_sparse fmt nr nc d t Hwf Ht Hf) as (m'' & Hp' & ? & ? & ?).
    rewrite Hp in Hp'. injection Hp' as <-. done.
Qed.

Lemma prune_total m t :
  wf m → t ≠ 0 → indexable m = true →
  ∃ m', prune m t = Ok m' ∧ thresholded m t m' ∧ wf m' ∧
        isspmatrix m' = isspmatrix m.
Proof.
  intros Hwf Ht Hi. destruct m as [nr nc rows|fmt nr nc d].
  - by apply prune_dense.
  - by apply prune_sparse.
Qed.



(** ** The driver loop *)

Section Driver.
Variable fpow : Qc → Qc → Qc.
Variable expansion : N.
Variables inflation pruning : Qc.

(** The round of the specification is the body of the loop. *)
Lemma round_iterate m :
  round fpow expansion inflation pruning m
  = (m' ← iterate fpow m expansion inflation pruning;
     c ← converged m' m;
     Ok (if c : bool then Done m' else Running m')).
Proof.
  unfold round, iterate. destruct (expand m expansion) as [m1|e]; [|done].
  cbn [mbind result_bind]. destruct (inflate fpow m1 inflation) as [m2|e]; [|done].
  cbn [mbind result_bind]. by case_decide.
Qed.

(** The [for] loop with its [break] computes the rounds. *)
Lemma mcl_loop_rounds remaining :
  ∀ i m verbose out,
    fst <$> mcl_loop fpow remaining i m expansion inflation pruning verbose out
    = state_matrix <$> rounds fpow expansion inflation pruning remaining (Running m).
Proof.
  induction remaining as [|k IH]; intros i m verbose out; [done|].
  cbn [mcl_loop rounds]. rewrite round_iterate.
  destruct (iterate fpow m expansion inflation pruning) as [m'|e]; [|done].
  cbn [mbind result_bind]. destruct (converged m' m) as [c|e]; [|done].
  cbn [mbind result_bind]. destruct c.
  - by destruct k.
  - apply IH.
Qed.

Lemma run_mcl_pipeline_eq m loop_value iterations verbose :
  run_mcl fpow m expansion inflation loop_value iterations pruning verbose
  = pipeline fpow expansion inflation pruning m loop_value iterations.
Proof.
  unfold run_mcl, run_mcl_out, pipeline.
  destruct (add_self_loops m loop_value) as [m0|e]; [|done]. cbn [mbind result_bind].
  destruct (normalize m0) as [m1|e]; [|done]. cbn [mbind result_bind].
  rewrite mcl_loop_rounds.
  by destruct (rounds fpow expansion inflation pruning iterations (Running m1)).
Qed.

(** [run_mcl] is its loop on the normalized seed. *)
Lemma run_mcl_out_seed m seed loop_value iterations verbose :
  (m0 ← add_self_loops m loop_value; normalize m0) = Ok seed →
  run_mcl_out fpow m expansion inflation loop_value iterations pruning verbose
  = mcl_loop fpow iterations 0 seed expansion inflation pruning verbose [].
Proof.
  unfold run_mcl_out. destruct (add_self_loops m loop_value) as [m0|e]; [|done].
  cbn [mbind result_bind]. by intros ->.
Qed.

(** One pass of [iterate] on a matrix with at least one entry succeeds. *)
Lemma iterate_total n m :
  wf m → shape m = (n, n) → n ≠ 0%nat →
  ∃ m', iterate fpow m expansion inflation pruning = Ok m' ∧
        wf m' ∧ shape m' = (n, n) ∧ isspmatrix m' = isspmatrix m.
Proof.
  intros Hwf Hs Hn. unfold iterate.
  destruct (expand_total n m expansion Hwf Hs) as (m1 & -> & Hw1 & Hs1 & Hsp1 & _).
  cbn [mbind result_bind].
  destruct (inflate_total fpow n m1 inflation Hw1 Hs1 Hn) as (m2 & -> & Hw2 & Hs2 & Hsp2 & Hi2).
  cbn [mbind result_bind]. case_decide as Hp.
  - assert (pruning ≠ 0) as Hne by (intros ->; by apply Qclt_not_eq in Hp).
    destruct (prune_total m2 pruning Hw2 Hne Hi2) as (m3 & -> & [Hs3 _] & Hw3 & Hsp3).
    exists m3. split_and!; [done|done|congruence|congruence].
  - exists m2. split_and!; [done|done|done|congruence].
Qed.






End Driver.

(** ** The store: allocation, aliasing and in-place assignment *)

Lemma store_bind_Ok {A B} (m : Store.prog A) (f : A → Store.prog B) h a h' :
  m h = Ok (a, h') → (m ≫= f) h = f a h'.
Proof. intros H. unfold mbind, Store.prog_bind. by rewrite H. Qed.

Lemma store_bind_Raise {A B} (m : Store.prog A) (f : A → Store.prog B) h e :
  m h = Raise e → (m ≫= f) h = Raise e.
Proof. intros H. unfold mbind, Store.prog_bind. by rewrite H. Qed.

Lemma store_bind_eq {A B} (m m' : Store.prog A) (f : A → Store.prog B) h :
  m h = m' h → (m ≫= f) h = (m' ≫= f) h.
Proof. intros H. unfold mbind, Store.prog_bind. by rewrite H. Qed.

Lemma store_get (h : gmap Store.ref matrix) l m :
  h !! l = Some m → Store.get l h = Ok (m, h).
Proof. intros H. unfold Store.get. by rewrite H. Qed.

Lemma store_new_fresh (h : gmap Store.ref matrix) : h !! fresh (dom h) = None.
Proof. apply not_elem_of_dom, is_fresh. Qed.

Lemma store_new (h : gmap Store.ref matrix) m :
  ∃ l, Store.new m h = Ok (l, <[l := m]> h) ∧ h !! l = None.
Proof. exists (fresh (dom h)). split; [done|apply store_new_fresh]. Qed.

Lemma store_insert_fresh (h : gmap Store.ref matrix) l m : h !! l = None → h ⊆ <[l := m]> h.
Proof. apply insert_subseteq. Qed.

(** Overwriting an object that did not exist in [h] keeps [h] inside. *)
Lemma store_overwrite (h h' : gmap Store.ref matrix) l m :
  h !! l = None → h ⊆ h' → h ⊆ <[l := m]> h'.
Proof.
  intros Hl Hsub. apply map_subseteq_spec. intros l' m' Hl'.
  rewrite lookup_insert_ne by congruence. by eapply lookup_weaken.
Qed.

Lemma refines_bind (f : Store.prog Store.ref) (r : result matrix)
    (g : Store.ref → Store.prog Store.ref) (k : matrix → result matrix)
    (h : gmap Store.ref matrix) :
  refines f r h →
  (∀ l' h' m', h ⊆ h' → h' !! l' = Some m' → refines (g l') (k m') h') →
  refines (f ≫= g) (r ≫= k) h.
Proof.
  intros Hf Hg. destruct r as [m'|e].
  - destruct Hf as (l' & h' & Hf & Hsub & Hl'). specialize (Hg l' h' m' Hsub Hl').
    change (Ok m' ≫= k) with (k m').
    unfold refines in *. rewrite (store_bind_Ok _ _ _ _ _ Hf).
    destruct (k m') as [m''|e]; [|done].
    destruct Hg as (l'' & h'' & Hg & Hsub' & Hl''). exists l'', h''.
    split_and!; [done| |done]. by etrans.
  - by apply store_bind_Raise.
Qed.

(** A library call that reads its argument and allocates its result. *)
Lemma refines_call (f : matrix → result matrix) (h : gmap Store.ref matrix) l m :
  h !! l = Some m →
  refines (m ← Store.get l; m' ← Store.lift (f m); Store.new m') (f m) h.
Proof.
  intros Hl. unfold refines.
  assert (∀ p : Store.prog Store.ref,
    (Store.get l ≫= λ m, p) h = p h) as Hget.
  { intros p. by rewrite (store_bind_Ok _ _ _ _ _ (store_get h l m Hl)). }
  pose proof (store_bind_Ok _ (λ m, m' ← Store.lift (f m); Store.new m') _ _ _
                (store_get h l m Hl)) as Hg. cbv beta in Hg.
  destruct (f m) as [m'|e] eqn:Hf.
  - destruct (store_new h m') as (l' & Hn & Hfresh).
    exists l', (<[l' := m']> h). split_and!.
    + rewrite Hg. by rewrite (store_bind_Ok _ _ h m' h).
    + by apply store_insert_fresh.
    + apply lookup_insert_eq.
  - rewrite Hg. by apply store_bind_Raise.
Qed.

Lemma normalize_refines (h : gmap Store.ref matrix) l m :
  h !! l = Some m → refines (Store.normalize l) (normalize m) h.
Proof. apply (refines_call normalize). Qed.

Lemma expand_refines (h : gmap Store.ref matrix) l m power :
  h !! l = Some m → refines (Store.expand l power) (expand m power) h.
Proof.
  intros Hl. unfold Store.expand, refines.
  pose proof (store_bind_Ok _ (λ m, m' ← Store.lift (expand m power);
      if negb (isspmatrix m) && bool_decide (power = 1%N) then mret l else Store.new m')
    _ _ _ (store_get h l m Hl)) as Hg. cbv beta in Hg. rewrite Hg. clear Hg.
  destruct (expand m power) as [m'|e] eqn:He; [|by apply store_bind_Raise].
  rewrite (store_bind_Ok _ _ h m' h) by done.
  destruct (negb (isspmatrix m) && bool_decide (power = 1%N)) eqn:Halias.
  - apply andb_true_iff in Halias as [Hd Hp]. apply bool_decide_eq_true in Hp. subst power.
    assert (m' = m) as ->.
    { unfold expand in He. destruct (isspmatrix m); [done|].
      unfold np_matrix_power in He. case_decide; [by injection He|done]. }
    exists l, h. by split_and!.
  - destruct (store_new h m') as (l' & Hn & Hfresh).
    exists l', (<[l' := m']> h). split_and!; [done|by apply store_insert_fresh|].
    apply lookup_insert_eq.
Qed.

Section StoreInflation.
Variable fpow : Qc → Qc → Qc.

Lemma inflate_refines (h : gmap Store.ref matrix) l m power :
  h !! l = Some m → refines (Store.inflate fpow l power) (inflate fpow m power) h.
Proof.
  intros Hl. rewrite inflate_unfold. unfold Store.inflate.
  destruct (store_new h (mat_power fpow m power)) as (p & Hn & Hfresh).
  assert (∀ r, refines (Store.normalize p) r (<[p := mat_power fpow m power]> h) →
               refines (m ← Store.get l; p ← Store.new (mat_power fpow m power);
                        Store.normalize p) r h) as Hstep.
  { intros r Hr. unfold refines in *.
    rewrite (store_bind_Ok _ _ _ _ _ (store_get h l m Hl)).
    rewrite (store_bind_Ok _ _ _ _ _ Hn).
    destruct r as [m'|e]; [|done].
    destruct Hr as (l' & h' & Hr & Hsub & Hl'). exists l', h'.
    split_and!; [done| |done]. etrans; [|exact Hsub]. by apply store_insert_fresh. }
  apply Hstep, normalize_refines, lookup_insert_eq.
Qed.

End StoreInflation.

Ltac store_unfold :=
  unfold Store.copy, Store.todok, Store.tocsc, Store.setitem, Store.converged,
    Store.get, Store.new, Store.put, Store.lift,
    mbind, Store.prog_bind, mret, Store.prog_ret.

Lemma store_insert_twice (h : gmap Store.ref matrix) l m m' :
  h !! l = None → h ⊆ <[l := m']> (<[l := m]> h).
Proof. intros Hl. rewrite insert_insert_eq. by apply store_insert_fresh. Qed.

(** [prune] allocates its result and leaves the store as it was. *)
Lemma prune_refines (h : gmap Store.ref matrix) l m threshold :
  h !! l = Some m → refines (Store.prune l threshold) (prune m threshold) h.
Proof.
  intros Hl. unfold refines, Store.prune. store_unfold. rewrite Hl.
  pose proof (store_new_fresh h) as Hfresh. set (l1 := fresh (dom h)) in *.
  destruct m as [nr nc rows|fmt nr nc d]; cbn beta iota.
  - cbn [prune]. rewrite Hl. cbn beta iota. fold l1. rewrite lookup_insert_eq.
    cbn beta iota. eexists _, _. split; [reflexivity|].
    rewrite insert_insert_eq. split; [by apply store_insert_fresh|apply lookup_insert_eq].
  - cbn [prune]. fold l1.
    destruct (sp_ge (Sparse fmt nr nc d) threshold) as [mask|e]; [|done].
    cbn [mbind result_bind]. cbn beta iota.
    destruct (sp_getitem (Sparse fmt nr nc d) mask) as [values|e]; [|done].
    cbn [mbind result_bind]. cbn beta iota.
    rewrite lookup_insert_eq. cbn beta iota. rewrite insert_insert_eq, lookup_insert_eq.
    cbn beta iota. eexists _, _. split; [reflexivity|].
    set (h1 := <[l1 := _]> h). split; [|apply lookup_insert_eq].
    etrans; [apply (store_insert_fresh h l1), Hfresh|].
    apply store_insert_fresh, store_new_fresh.
Qed.

Lemma refines_weaken (f : Store.prog Store.ref) r (h0 h : gmap Store.ref matrix) :
  h0 ⊆ h → refines f r h →
  match r with
  | Ok m' => ∃ l' h', f h = Ok (l', h') ∧ h0 ⊆ h' ∧ h' !! l' = Some m'
  | Raise e => f h = Raise e
  end.
Proof.
  intros Hsub Hr. destruct r as [m'|e]; [|done].
  destruct Hr as (l' & h' & Hf & Hsub' & Hl'). exists l', h'.
  split_and!; [done| |done]. by etrans.
Qed.

(** The loop over the diagonal overwrites the object it is given. *)
Lemma store_set_diagonal range :
  ∀ (h : gmap Store.ref matrix) l m v, h !! l = Some m →
  match set_diagonal range m v with
  | Ok m' => Store.set_diagonal range l v h = Ok (tt, <[l := m']> h)
  | Raise e => Store.set_diagonal range l v h = Raise e
  end.
Proof.
  induction range as [|i range IH]; intros h l m v Hl; cbn [set_diagonal Store.set_diagonal].
  - unfold mret, Store.prog_ret. by rewrite insert_id.
  - store_unfold. rewrite Hl. cbn beta iota.
    destruct (setitem m i i v) as [m1|e]; [|done]. cbn [result_bind]. cbn beta iota.
    specialize (IH (<[l := m1]> h) l m1 v (lookup_insert_eq _ _ _)).
    destruct (set_diagonal range m1 v) as [m'|e].
    + by rewrite IH, insert_insert_eq.
    + by rewrite IH.
Qed.

Lemma tocsc_idem fmt nr nc d : tocsc (Sparse fmt nr nc d) = Sparse CSC nr nc d.
Proof. done. Qed.

(** On a dense matrix, and on a sparse matrix that is not in DOK format,
    [add_self_loops] works on a copy: the store it was given is part of
    the store it leaves. *)
Lemma add_self_loops_refines (h : gmap Store.ref matrix) l m loop_value :
  h !! l = Some m → is_dok m = false →
  refines (Store.add_self_loops l loop_value) (add_self_loops m loop_value) h.
Proof.
  intros Hl Hdok. unfold refines, Store.add_self_loops, add_self_loops.
  rewrite (store_bind_Ok _ _ _ _ _ (store_get h l m Hl)).
  case_decide as Hsq; [|done].
  pose proof (store_new_fresh h) as Hfresh. set (l1 := fresh (dom h)) in *.
  destruct m as [nr nc rows|fmt nr nc d]; cbn [isspmatrix].
  - assert (Store.copy l h = Ok (l1, <[l1 := Dense nr nc rows]> h)) as Hc.
    { store_unfold. by rewrite Hl. }
    rewrite (store_bind_Ok _ _ _ _ _ Hc).
    pose proof (store_set_diagonal (seq 0 (shape (Dense nr nc rows)).1)
      (<[l1 := Dense nr nc rows]> h) l1 (Dense nr nc rows) loop_value
      (lookup_insert_eq _ _ _)) as Hd.
    destruct (set_diagonal _ _ loop_value) as [m'|e]; cbn [mbind result_bind].
    + rewrite (store_bind_Ok _ _ _ _ _ Hd). exists l1, (<[l1 := m']> h).
      rewrite insert_insert_eq.
      split_and!; [done|by apply store_insert_fresh|apply lookup_insert_eq].
    + by rewrite (store_bind_Raise _ _ _ _ Hd).
  - assert (Store.todok l h = Ok (l1, <[l1 := Sparse DOK nr nc d]> h)) as Hc.
    { store_unfold. rewrite Hl. by destruct fmt. }
    rewrite (store_bind_Ok _ _ _ _ _ Hc).
    pose proof (store_set_diagonal (seq 0 (shape (Sparse fmt nr nc d)).1)
      (<[l1 := Sparse DOK nr nc d]> h) l1 (Sparse DOK nr nc d) loop_value
      (lookup_insert_eq _ _ _)) as Hd.
    cbn [todok].
    destruct (set_diagonal _ (Sparse DOK nr nc d) loop_value) as [m'|e];
      cbn [mbind result_bind].
    + rewrite (store_bind_Ok _ _ _ _ _ Hd). rewrite insert_insert_eq.
      store_unfold. rewrite lookup_insert_eq. cbn beta iota.
      assert (h ⊆ <[l1 := m']> h) as Hsub by (by apply store_insert_fresh).
      destruct m' as [nr' nc' rows'|fmt' nr' nc' d'].
      * eexists _, _. split; [reflexivity|]. split; [|apply lookup_insert_eq].
        etrans; [exact Hsub|]. apply store_insert_fresh, store_new_fresh.
      * destruct fmt'; cbn beta iota;
          try (eexists _, _; split; [reflexivity|]; split; [|apply lookup_insert_eq];
               etrans; [exact Hsub|]; apply store_insert_fresh, store_new_fresh).
        exists l1, (<[l1 := Sparse CSC nr' nc' d']> h).
        split_and!; [done|done|apply lookup_insert_eq].
    + by rewrite (store_bind_Raise _ _ _ _ Hd).
Qed.

Lemma store_fresh_insert_ne (h : gmap Store.ref matrix) l m :
  fresh (dom (<[l := m]> h)) ≠ l.
Proof.
  intros Heq. pose proof (store_new_fresh (<[l := m]> h)) as Hf.
  rewrite Heq, lookup_insert_eq in Hf. done.
Qed.

(** On a matrix in DOK format [todok] hands back the argument itself, and
    the loop over the diagonal overwrites the caller's object. *)
Lemma add_self_loops_dok_aliases (h : gmap Store.ref matrix) l n d loop_value m' :
  h !! l = Some (Sparse DOK n n d) →
  set_diagonal (seq 0 n) (Sparse DOK n n d) loop_value = Ok m' →
  ∃ l' h', Store.add_self_loops l loop_value h = Ok (l', h') ∧ h' !! l = Some m'.
Proof.
  intros Hl Hd. unfold Store.add_self_loops.
  rewrite (store_bind_Ok _ _ _ _ _ (store_get h l _ Hl)).
  cbn [shape fst snd isspmatrix]. rewrite decide_True by done.
  assert (Store.todok l h = Ok (l, h)) as Hc by (store_unfold; by rewrite Hl).
  rewrite (store_bind_Ok _ _ _ _ _ Hc).
  pose proof (store_set_diagonal (seq 0 n) h l _ loop_value Hl) as Hs.
  rewrite Hd in Hs. rewrite (store_bind_Ok _ _ _ _ _ Hs).
  store_unfold. rewrite lookup_insert_eq. cbn beta iota.
  destruct m' as [nr' nc' rows'|fmt' nr' nc' d'].
  - eexists _, _. split; [reflexivity|].
    rewrite lookup_insert_ne by apply store_fresh_insert_ne. apply lookup_insert_eq.
  - destruct fmt'; cbn beta iota;
      try (eexists _, _; split; [reflexivity|];
           rewrite lookup_insert_ne by apply store_fresh_insert_ne;
           apply lookup_insert_eq).
    eexists _, _. split; [reflexivity|]. apply lookup_insert_eq.
Qed.

Section StoreDriver.
Variable fpow : Qc → Qc → Qc.
Variable expansion : N.
Variables inflation pruning : Qc.

Lemma iterate_refines (h : gmap Store.ref matrix) l m :
  h !! l = Some m →
  refines (Store.iterate fpow l expansion inflation pruning)
          (iterate fpow m expansion inflation pruning) h.
Proof.
  intros Hl. unfold Store.iterate, iterate.
  apply refines_bind; [by apply expand_refines|]. intros l1 h1 m1 _ Hl1.
  apply refines_bind; [by apply inflate_refines|]. intros l2 h2 m2 _ Hl2.
  case_decide.
  - by apply prune_refines.
  - exists l2, h2. by split_and!.
Qed.

(** The loop of [run_mcl] on the store computes the rounds and leaves the
    objects that existed as they were. *)
Lemma mcl_loop_refines k :
  ∀ (h : gmap Store.ref matrix) l m, h !! l = Some m →
  refines (Store.mcl_loop fpow k l expansion inflation pruning)
          (state_matrix <$> rounds fpow expansion inflation pruning k (Running m)) h.
Proof.
  induction k as [|k IH]; intros h l m Hl; cbn [Store.mcl_loop rounds].
  - exists l, h. by split_and!.
  - rewrite round_iterate.
    pose proof (store_new_fresh h) as Hfresh. set (l0 := fresh (dom h)) in *.
    assert (Store.copy l h = Ok (l0, <[l0 := m]> h)) as Hc.
    { store_unfold. by rewrite Hl. }
    assert (h ⊆ <[l0 := m]> h) as Hsub0 by (by apply store_insert_fresh).
    assert (<[l0 := m]> h !! l = Some m) as Hl' by (by eapply lookup_weaken).
    pose proof (iterate_refines _ l m Hl') as Hit.
    unfold refines. rewrite (store_bind_Ok _ _ _ _ _ Hc).
    destruct (iterate fpow m expansion inflation pruning) as [m1|e];
      cbn [mbind result_bind fmap result_fmap];
      [|by apply store_bind_Raise].
    destruct Hit as (l1 & h1 & Hit & Hsub1 & Hl1).
    rewrite (store_bind_Ok _ _ _ _ _ Hit).
    assert (h1 !! l0 = Some m) as Hl0.
    { eapply lookup_weaken; [apply lookup_insert_eq|exact Hsub1]. }
    assert (Store.converged l1 l0 h1 = Store.lift (converged m1 m) h1) as Hcv.
    { store_unfold. by rewrite Hl1, Hl0. }
    rewrite (store_bind_eq _ _ _ _ Hcv).
    destruct (converged m1 m) as [c|e]; cbn [mbind result_bind];
      [|by apply store_bind_Raise].
    rewrite (store_bind_Ok _ _ h1 c h1) by done.
    destruct c.
    + assert (rounds fpow expansion inflation pruning k (Done m1) = Ok (Done m1)) as ->
        by (by destruct k).
      exists l1, h1. split_and!; [done| |done]. by etrans.
    + specialize (IH h1 l1 m1 Hl1). unfold refines in IH.
      destruct (rounds fpow expansion inflation pruning k (Running m1)) as [s|e];
        cbn [fmap result_fmap] in *; [|done].
      destruct IH as (l' & h' & Hr & Hsub' & Hl''). exists l', h'.
      split_and!; [done| |done]. etrans; [exact Hsub0|]. by etrans.
Qed.

(** [run_mcl] on a matrix that is not in DOK format leaves the objects
    that existed, the argument among them, as they were, and returns what
    the function on values returns. *)
Lemma run_mcl_refines (h : gmap Store.ref matrix) l m loop_value iterations :
  h !! l = Some m → is_dok m = false →
  refines (Store.run_mcl fpow l expansion inflation loop_value iterations pruning)
          (pipeline fpow expansion inflation pruning m loop_value iterations) h.
Proof.
  intros Hl Hdok. unfold Store.run_mcl, pipeline.
  apply refines_bind; [by apply add_self_loops_refines|]. intros l0 h0 m0 _ Hl0.
  apply refines_bind; [by apply normalize_refines|]. intros l1 h1 m1 _ Hl1.
  pose proof (mcl_loop_refines iterations h1 l1 m1 Hl1) as Hr.
  by destruct (rounds fpow expansion inflation pruning iterations (Running m1)).
Qed.

End StoreDriver.

(** The argument of a computation that refines is unchanged afterwards. *)
Lemma refines_frame (f : Store.prog Store.ref) r (h : gmap Store.ref matrix) l m l' h' :
  refines f r h → h !! l = Some m → f h = Ok (l', h') → h' !! l = Some m.
Proof.
  intros Hr Hl Hf. destruct r as [m'|e]; simpl in Hr.
  - destruct Hr as (l'' & h'' & Hf' & Hsub & _). rewrite Hf in Hf'.
    injection Hf' as <- <-. by eapply lookup_weaken.
  - by rewrite Hf in Hr.
Qed.

(** ** Soundness of the interval enclosures *)

Lemma round_down_le x : round_down x ≤ x.
Proof.
  unfold round_down, Qcle. rewrite this_Q2Qc, Qmake_Qdiv.
  apply Qle_shift_div_r; [reflexivity|apply Qfloor_le].
Qed.

Lemma round_up_ge x : x ≤ round_up x.
Proof.
  unfold round_up, Qcle. rewrite this_Q2Qc, Qmake_Qdiv.
  apply Qle_shift_div_l; [reflexivity|apply Qle_ceiling].
Qed.

Lemma contains_iround x v : contains x v → contains (iround x) v.
Proof.
  intros [Hl Hu]. split; simpl.
  - eapply Qcle_trans; [apply round_down_le|done].
  - eapply Qcle_trans; [done|apply round_up_ge].
Qed.

Lemma contains_imul x y u v :
  0 ≤ x.1 → 0 ≤ y.1 → contains x u → contains y v → contains (imul x y) (u * v).
Proof.
  intros Hx Hy [Hxl Hxu] [Hyl Hyu].
  pose proof (Qcle_trans _ _ _ Hx Hxl) as Hu.
  pose proof (Qcle_trans _ _ _ Hy Hyl) as Hv.
  pose proof (Qcle_trans _ _ _ Hu Hxu) as Hx2.
  split; simpl.
  - apply (Qcle_trans _ (u * y.1)); [by apply Qcmult_le_compat_r|].
    rewrite !(Qcmult_comm u). by apply Qcmult_le_compat_r.
  - apply (Qcle_trans _ (x.2 * v)); [by apply Qcmult_le_compat_r|].
    rewrite !(Qcmult_comm x.2). by apply Qcmult_le_compat_r.
Qed.

Lemma contains_isum n f g :
  (∀ k, (k < n)%nat → contains (f k) (g k)) → contains (isum n f) (sum_upto n g).
Proof.
  intros H. split; simpl; apply sum_upto_le; intros k Hk; by destruct (H k Hk).
Qed.

Lemma Qcinv_le_compat a b : 0 < a → a ≤ b → / b ≤ / a.
Proof.
  intros Ha Hab. assert (0 < b) as Hb by exact (Qclt_le_trans _ _ _ Ha Hab).
  assert (a ≠ 0) as Ha0 by (intros ->; by apply Qclt_not_eq in Ha).
  assert (b ≠ 0) as Hb0 by (intros ->; by apply Qclt_not_eq in Hb).
  apply (Qcmult_lt_0_le_reg_r _ _ (a * b)).
  - rewrite <- (Qcmult_0_l b). by apply Qcmult_lt_compat_r.
  - replace (/ b * (a * b)) with a by (field; done).
    replace (/ a * (a * b)) with b by (field; done). done.
Qed.

Lemma contains_idiv x y u v :
  0 ≤ x.1 → 0 < y.1 → contains x u → contains y v → contains (idiv x y) (u / v).
Proof.
  intros Hx Hy [Hxl Hxu] [Hyl Hyu].
  assert (0 < v) as Hv by exact (Qclt_le_trans _ _ _ Hy Hyl).
  assert (0 < y.2) as Hy2 by exact (Qclt_le_trans _ _ _ Hv Hyu).
  pose proof (Qcle_trans _ _ _ Hx Hxl) as Hu.
  pose proof (Qcle_trans _ _ _ Hu Hxu) as Hx2.
  pose proof (Qcinv_le_compat _ _ Hv Hyu) as H1.
  pose proof (Qcinv_le_compat _ _ Hy Hyl) as H2.
  assert (0 ≤ / y.2) as H3 by (by apply Qclt_le_weak, Qcinv_pos).
  assert (0 ≤ / v) as H4 by (by apply Qclt_le_weak, Qcinv_pos).
  split; simpl; unfold Qcdiv.
  - apply (Qcle_trans _ (u * / y.2)); [by apply Qcmult_le_compat_r|].
    rewrite !(Qcmult_comm u). by apply Qcmult_le_compat_r.
  - apply (Qcle_trans _ (x.2 * / v)); [by apply Qcmult_le_compat_r|].
    rewrite !(Qcmult_comm x.2). by apply Qcmult_le_compat_r.
Qed.

Lemma ientry_itabulate n f i j :
  (i < n)%nat → (j < n)%nat → ientry (itabulate n f) i j = f i j.
Proof.
  intros Hi Hj. unfold ientry, itabulate.
  rewrite list_lookup_fmap, lookup_seq_lt by done. simpl.
  by rewrite list_lookup_fmap, lookup_seq_lt.
Qed.

Lemma iall_spec n p a :
  iall n p a = true ↔ ∀ i j, (i < n)%nat → (j < n)%nat → p (ientry a i j) = true.
Proof.
  unfold iall. rewrite <- Is_true_true, forallb_True, Forall_indices.
  split; intros H i j Hi Hj; specialize (H i j Hi Hj); simpl in *;
    by apply Is_true_true.
Qed.

Lemma power_nat_2 x : power_nat x (1 + 1) = x * x.
Proof.
  unfold power_nat. replace (Z.to_nat (Qceiling (this (1 + 1)))) with 2%nat by done.
  simpl. ring.
Qed.

(** One pass of [iterate] with the default expansion and inflation on a
    dense matrix, entry by entry. *)
Lemma iterate_dense_entries n m t :
  wf m → shape m = (n, n) → isspmatrix m = false → n ≠ 0%nat → 0 < t →
  ∃ m', iterate power_nat m 2 (1 + 1) t = Ok m' ∧
        wf m' ∧ shape m' = (n, n) ∧ isspmatrix m' = false ∧
        ∀ i j, (i < n)%nat → (j < n)%nat →
          let e := prod_entries n (entry m) (entry m) in
          let x := e i j * e i j
                   / handle_zeros (sum_upto n (λ i', Qcabs (e i' j * e i' j))) in
          entry m' i j = if decide (x < t) then 0 else x.
Proof.
  intros Hwf Hs Hd Hn Ht. unfold iterate.
  destruct (expand_total n m 2 Hwf Hs) as (m1 & -> & Hw1 & Hs1 & Hsp1 & He1).
  cbn [mbind result_bind].
  destruct (shape_square n m1 Hs1) as (Hr1 & Hc1 & _).
  assert (power_nat 0 (1 + 1) = 0) as H0 by (rewrite power_nat_2; ring).
  destruct (inflate_spec power_nat m1 (1 + 1) Hw1 H0) as (m2 & -> & Hw2 & Hs2 & Hsp2 & He2);
    [congruence..|].
  cbn [mbind result_bind]. rewrite decide_True by done.
  assert (t ≠ 0) as Hne by (intros ->; by apply Qclt_not_eq in Ht).
  assert (indexable m2 = true) as Hi2.
  { destruct m2; [done|]. simpl in Hsp2. congruence. }
  destruct (prune_total m2 t Hw2 Hne Hi2) as (m3 & -> & [Hs3 He3] & Hw3 & Hsp3).
  exists m3. split_and!; [done|done|congruence|congruence|].
  intros i j Hi Hj. set (e := prod_entries n (entry m) (entry m)).
  assert (∀ i' j', (i' < n)%nat → (j' < n)%nat → entry m1 i' j' = e i' j') as Hee.
  { intros i' j' Hi' Hj'. rewrite He1 by done. change (N.to_nat 2) with 2%nat.
    cbn [power_entries]. apply prod_entries_ext; [done|].
    intros k Hk. by apply prod_entries_kronecker_r. }
  destruct (shape_nrows_ncols _ _ Hs2) as [Hr2 Hc2].
  rewrite He3 by congruence. rewrite He2 by congruence.
  rewrite power_nat_2, Hee by done.
  assert (col_norm (mat_power power_nat m1 (1 + 1)) j
          = sum_upto n (λ i', Qcabs (e i' j * e i' j))) as ->; [|done].
  destruct (mat_power_spec power_nat m1 (1 + 1) Hw1 H0) as (_ & Hsp & _ & Hep).
  unfold col_norm. destruct (shape_nrows_ncols _ _ Hsp) as [-> _]. rewrite Hr1.
  apply sum_upto_ext. intros i' Hi'. rewrite Hep by congruence.
  by rewrite power_nat_2, Hee.
Qed.

Lemma forallb_seq (p : nat → bool) n :
  forallb p (seq 0 n) = true ↔ ∀ k, (k < n)%nat → p k = true.
Proof.
  rewrite <- Is_true_true, forallb_True, Forall_forall. split.
  - intros H k Hk. apply Is_true_true, H, elem_of_seq. lia.
  - intros H k Hk%elem_of_seq. apply Is_true_true, H. lia.
Qed.

(** One pass of [iterate] stays inside the enclosure computed for it. *)
Lemma iiterate_sound n t a a' m :
  n ≠ 0%nat → 0 < t → encloses n a m → iiterate n t a = Some a' →
  ∃ m', iterate power_nat m 2 (1 + 1) t = Ok m' ∧ encloses n a' m'.
Proof.
  intros Hn Ht (Hwf & Hs & Hd & Ha) Hit.
  destruct (iterate_dense_entries n m t Hwf Hs Hd Hn Ht) as (m' & Hm' & Hw' & Hs' & Hd' & He').
  exists m'. split; [done|]. split_and!; [done..|].
  unfold iiterate in Hit. set (E := iexpand n a) in *.
  destruct (iall n lower_nonneg E) eqn:HE; [|done]. rewrite iall_spec in HE.
  unfold iinflate in Hit. set (S := isquares n E) in *.
  destruct (iall n lower_nonneg S) eqn:HS; [|done]. rewrite iall_spec in HS.
  destruct (forallb (λ j, bool_decide (0 < (inorm n S j).1)) (seq 0 n)) eqn:HN; [|done].
  rewrite forallb_seq in HN. cbn [andb mbind option_bind] in Hit.
  set (F := itabulate n (λ i j, iround (idiv (ientry S i j) (inorm n S j)))) in *.
  destruct (iall n lower_nonneg F) eqn:HF; [|done]. rewrite iall_spec in HF.
  unfold iprune in Hit.
  destruct (iall n (iprune_decided t) F) eqn:HP; [|done]. rewrite iall_spec in HP.
  cbn [mbind option_bind] in Hit.
  set (P := itabulate n (λ i j,
              let x := ientry F i j in if decide (x.2 < t) then (0, 0) else x)) in *.
  destruct (iall n lower_nonneg P) eqn:HPn; [|done]. rewrite iall_spec in HPn.
  injection Hit as <-.
  set (e := prod_entries n (entry m) (entry m)) in *.
  (* the expansion *)
  assert (∀ i j, (i < n)%nat → (j < n)%nat → contains (ientry E i j) (e i j)) as HcE.
  { intros i j Hi Hj. unfold E, iexpand. rewrite ientry_itabulate by done.
    apply contains_iround, contains_isum. intros k Hk.
    destruct (Ha i k Hi Hk) as [? ?]. destruct (Ha k j Hk Hj) as [? ?].
    by apply contains_imul. }
  assert (∀ i j, (i < n)%nat → (j < n)%nat → 0 ≤ (ientry E i j).1) as HnE.
  { intros i j Hi Hj. specialize (HE i j Hi Hj). by apply bool_decide_eq_true in HE. }
  (* the squares and the sums of their columns *)
  assert (∀ i j, (i < n)%nat → (j < n)%nat →
                 contains (ientry S i j) (e i j * e i j)) as HcS.
  { intros i j Hi Hj. unfold S, isquares. rewrite ientry_itabulate by done.
    apply contains_iround. apply contains_imul; auto. }
  assert (∀ i j, (i < n)%nat → (j < n)%nat → 0 ≤ (ientry S i j).1) as HnS.
  { intros i j Hi Hj. specialize (HS i j Hi Hj). by apply bool_decide_eq_true in HS. }
  assert (∀ j, (j < n)%nat →
            contains (inorm n S j) (sum_upto n (λ i', Qcabs (e i' j * e i' j)))) as HcN.
  { intros j Hj. apply contains_isum. intros i Hi.
    rewrite Qcabs_pos; [by apply HcS|].
    destruct (HcS i j Hi Hj) as [Hl _]. eapply Qcle_trans; [|exact Hl]. by apply HnS. }
  intros i j Hi Hj. split.
  { specialize (HPn i j Hi Hj). by apply bool_decide_eq_true in HPn. }
  rewrite He' by done.
  set (s := sum_upto n (λ i', Qcabs (e i' j * e i' j))) in *.
  assert (0 < (inorm n S j).1) as Hpos.
  { specialize (HN j Hj). by apply bool_decide_eq_true in HN. }
  assert (handle_zeros s = s) as ->.
  { unfold handle_zeros. rewrite decide_False; [done|]. intros Hz.
    destruct (HcN j Hj) as [Hl _]. fold s in Hl. rewrite Hz in Hl.
    by apply Qcle_not_lt in Hl. }
  assert (contains (ientry F i j) (e i j * e i j / s)) as HcF.
  { unfold F. rewrite ientry_itabulate by done. apply contains_iround.
    apply contains_idiv; [by apply HnS|done|by apply HcS|by apply HcN]. }
  unfold P. rewrite ientry_itabulate by done. cbv zeta.
  specialize (HP i j Hi Hj). unfold iprune_decided in HP.
  destruct HcF as [HFl HFu]. destruct (decide ((ientry F i j).2 < t)) as [Hlt|Hge].
  - rewrite decide_True by (by eapply Qcle_lt_trans). split; simpl; apply Qcle_refl.
  - apply orb_true_iff in HP as [HP|HP]; apply bool_decide_eq_true in HP; [done|].
    rewrite decide_False; [done|]. apply Qcle_not_lt. by eapply Qcle_trans.
Qed.

Lemma iclose_yes_sound x y u v :
  0 ≤ y.1 → contains x u → contains y v → iclose_yes x y = true →
  Qcabs (u - v) ≤ default_atol + default_rtol * Qcabs v.
Proof.
  intros Hy [Hxl Hxu] [Hyl Hyu] Hyes. unfold iclose_yes in Hyes.
  apply andb_true_iff in Hyes as [H1 H2].
  apply bool_decide_eq_true in H1, H2.
  rewrite (Qcabs_pos v) by (by eapply Qcle_trans).
  apply Qcabs_Qcle_condition. unfold default_atol, default_rtol in *.
  split; qc_lra.
Qed.

Lemma iclose_no_sound x y u v :
  0 ≤ y.1 → contains x u → contains y v → iclose_no x y = true →
  ¬ Qcabs (u - v) ≤ default_atol + default_rtol * Qcabs v.
Proof.
  intros Hy [Hxl Hxu] [Hyl Hyu] Hno Hle.
  rewrite (Qcabs_pos v) in Hle by (by eapply Qcle_trans).
  apply Qcabs_Qcle_condition in Hle as [Hle1 Hle2].
  unfold iclose_no in Hno.
  apply orb_true_iff in Hno as [H|H]; apply bool_decide_eq_true in H;
    unfold default_atol, default_rtol in *; qc_lra.
Qed.

(** The convergence test answers as the enclosures say. *)
Lemma iconverged_sound n a b ma mb c :
  encloses n a ma → encloses n b mb → iconverged n a b = Some c →
  converged ma mb = Ok c.
Proof.
  intros (Hwa & Hsa & Hda & Ha) (Hwb & Hsb & Hdb & Hb) Hc.
  destruct (converged_spec ma mb Hwa Hwb) as (r & -> & Hr); [congruence| |].
  { rewrite Hda, Hdb. done. }
  f_equal. destruct (shape_square n ma Hsa) as (Hra & Hca & _).
  unfold iconverged in Hc.
  destruct (forallb _ (indices n n)) eqn:Hyes.
  - injection Hc as <-. apply Hr. intros i j Hi Hj.
    rewrite <- Is_true_true, forallb_True, Forall_indices in Hyes.
    specialize (Hyes i j). simpl in Hyes. rewrite Hra in Hi. rewrite Hca in Hj.
    destruct (Ha i j Hi Hj) as [_ Hau]. destruct (Hb i j Hi Hj) as [Hbl Hbu].
    eapply iclose_yes_sound; [exact Hbl|exact Hau|exact Hbu|].
    apply Is_true_true. by apply Hyes.
  - destruct (existsb _ (indices n n)) eqn:Hno; [|done]. injection Hc as <-.
    apply existsb_exists in Hno as ([i j] & Hin & Hno).
    apply list_elem_of_In, elem_of_indices in Hin as [Hi Hj]. simpl in Hno.
    destruct r; [|done]. exfalso.
    destruct (Ha i j Hi Hj) as [_ Hau]. destruct (Hb i j Hi Hj) as [Hbl Hbu].
    eapply iclose_no_sound; [exact Hbl|exact Hau|exact Hbu|exact Hno|].
    apply Hr; [done|congruence..].
Qed.

(** The loop of [run_mcl] converges in the iteration, and to a matrix in
    the enclosure, that the loop on enclosures reports. *)
Lemma iloop_sound n t remaining :
  n ≠ 0%nat → 0 < t →
  ∀ i a m out i' a',
    encloses n a m → iloop n t remaining i a = Some (i', a') →
    ∃ m', mcl_loop power_nat remaining i m 2 (1 + 1) t false out
          = Ok (m', out ++ [PrintConverged i']) ∧
          encloses n a' m' ∧ (i' < i + remaining)%nat.
Proof.
  intros Hn Ht. induction remaining as [|k IH]; intros i a m out i' a' Ha Hl; [done|].
  cbn [iloop] in Hl. destruct (iiterate n t a) as [a1|] eqn:Hit; [|done].
  cbn [mbind option_bind] in Hl.
  destruct (iiterate_sound n t a a1 m Hn Ht Ha Hit) as (m1 & Hm1 & Ha1).
  destruct (iconverged n a1 a) as [c|] eqn:Hc; [|done]. cbn [mbind option_bind] in Hl.
  pose proof (iconverged_sound n a1 a m1 m c Ha1 Ha Hc) as Hcv.
  cbn [mcl_loop]. rewrite Hm1. cbn [mbind result_bind]. rewrite Hcv.
  cbn [mbind result_bind]. destruct c.
  - injection Hl as <- <-. exists m1. split_and!; [done|done|lia].
  - destruct (IH (S i) a1 m1 out i' a' Ha1 Hl) as (m' & Hm' & Ha' & Hi').
    exists m'. split_and!; [done|done|lia].
Qed.

Lemma exactly_encloses n rows :
  wf (Dense n n rows) → nonneg (Dense n n rows) →
  encloses n (exactly rows) (Dense n n rows).
Proof.
  intros Hwf Hnn. split_and!; [done..|]. intros i j Hi Hj.
  assert (ientry (exactly rows) i j
          = (entry (Dense n n rows) i j, entry (Dense n n rows) i j)) as ->.
  { unfold ientry, exactly. cbn [entry]. rewrite list_lookup_fmap.
    destruct Hwf as [Hlen Hrows].
    destruct (lookup_lt_is_Some_2 rows i) as [row Hrow]; [lia|]. rewrite Hrow. simpl.
    assert (length row = n) as Hrl.
    { rewrite Forall_forall in Hrows. apply Hrows. by eapply list_elem_of_lookup_2. }
    destruct (lookup_lt_is_Some_2 row j) as [x Hx]; [lia|].
    by rewrite list_lookup_fmap, Hx. }
  rewrite nonneg_entry in Hnn. specialize (Hnn i j Hi Hj).
  split; [exact Hnn|]. split; apply Qcle_refl.
Qed.

Lemma filter_ext_in {A} (P1 P2 : A → Prop) `{!∀ x, Decision (P1 x), !∀ x, Decision (P2 x)}
    (l : list A) :
  Forall (λ x, P1 x ↔ P2 x) l → filter P1 l = filter P2 l.
Proof.
  induction 1 as [|x l Hx _ IH]; [done|].
  destruct (decide (P1 x)).
  - rewrite !filter_cons_True by tauto. by rewrite IH.
  - rewrite !filter_cons_False by tauto. by rewrite IH.
Qed.

(** The support of a column of an enclosed matrix, when every entry of
    the column is zero for certain or non-zero for certain. *)
Lemma column_support_enclosed n a m j :
  encloses n a m → (j < n)%nat →
  (∀ i, (i < n)%nat → isupport_entry (ientry a i j) ≠ None) →
  column_support m j
  = filter (λ i, isupport_entry (ientry a i j) = Some true) (seq 0 n).
Proof.
  intros (Hwf & Hs & Hd & Ha) Hj Hcertain. unfold column_support.
  destruct (shape_square n m Hs) as (-> & _ & _).
  apply filter_ext_in. apply Forall_forall. intros i Hi%elem_of_seq.
  assert (i < n)%nat as Hi' by lia. specialize (Hcertain i Hi').
  destruct (Ha i j Hi' Hj) as [Hl [Hlo Hhi]]. unfold isupport_entry in *.
  destruct (decide (0 < (ientry a i j).1)) as [Hpos|Hnpos].
  - split; [done|]. intros _ Hz. rewrite Hz in Hlo. by apply Qcle_not_lt in Hlo.
  - destruct (decide ((ientry a i j).1 = 0 ∧ (ientry a i j).2 = 0)) as [[H1 H2]|]; [|done].
    split; [|done]. intros Hne. exfalso. apply Hne. apply Qcle_antisym; congruence.
Qed.

Lemma isupport_lookup n a i j :
  (i < n)%nat → (j < n)%nat →
  (row ← isupport n a !! i; row !! j) = Some (isupport_entry (ientry a i j)).
Proof.
  intros Hi Hj. unfold isupport. rewrite list_lookup_fmap, lookup_seq_lt by done.
  simpl. by rewrite list_lookup_fmap, lookup_seq_lt.
Qed.

(** The support of a column read off a table of certain answers. *)
Lemma column_support_table n a m j (table : list (list (option bool))) :
  encloses n a m → (j < n)%nat → isupport n a = table →
  Forall (λ i, ∃ b, (row ← table !! i; row !! j) = Some (Some b)) (seq 0 n) →
  column_support m j
  = filter (λ i, (row ← table !! i; row !! j) = Some (Some true)) (seq 0 n).
Proof.
  intros Ha Hj <- Hall. rewrite Forall_forall in Hall.
  rewrite (column_support_enclosed n a m j Ha Hj).
  - apply filter_ext_in, Forall_forall. intros i Hi%elem_of_seq.
    rewrite isupport_lookup by (done || lia). split; congruence.
  - intros i Hi. destruct (Hall i) as [b Hb]; [apply elem_of_seq; lia|].
    rewrite isupport_lookup in Hb by done. congruence.
Qed.

Lemma idecided_spec n i table o :
  idecided n i table o = true → ∃ a, o = Some (i, a) ∧ isupport n a = table.
Proof.
  destruct o as [[i' a]|]; [|done]. simpl. intros [Hi Ha]%andb_true_iff.
  apply bool_decide_eq_true in Hi, Ha. subst i'. by exists a.
Qed.

(** The loop on the enclosure of the seed, with the default arguments:
    convergence is certain in the iteration of index 8 and the support is
    [graph_support]. *)
Lemma graph_run_decided :
  idecided 7 8 graph_support
    (iloop 7 default_pruning default_iterations 0 (exactly graph_seed)) = true.
Proof. vm_compute. reflexivity. Qed.

Lemma graph_seed_normalized :
  (m ← add_self_loops graph default_loop_value; normalize m) = Ok (Dense 7 7 graph_seed).
Proof. compute_done. Qed.

(** The run of [run_mcl] on the example graph with the default arguments
    ends in the iteration of index 8, with a matrix inside an enclosure
    whose support is [graph_support]. *)
Lemma graph_run_enclosed :
  ∃ m a,
    run_mcl_out power_nat graph default_expansion default_inflation
      default_loop_value default_iterations default_pruning false
    = Ok (m, [PrintConverged 8]%list) ∧
    encloses 7 a m ∧ isupport 7 a = graph_support.
Proof.
  destruct (idecided_spec _ _ _ _ graph_run_decided) as (a & Hloop & Ha).
  assert (encloses 7 (exactly graph_seed) (Dense 7 7 graph_seed)) as Hseed.
  { apply exactly_encloses; compute_done. }
  destruct (iloop_sound 7 default_pruning default_iterations
              ltac:(done) ltac:(done) 0%nat _ _ []%list _ _ Hseed Hloop)
    as (m & Hm & Hm' & _).
  clear Hloop. exists m, a. split; [|exact (conj Hm' Ha)].
  rewrite (run_mcl_out_seed _ _ _ _ _ _ _ _ _ graph_seed_normalized). exact Hm.
Qed.

(** ** The functions over the arithmetic of an element type *)

(** *** Item assignment with a conversion *)

Section TypedAssignment.
Variable cast : Qc → Qc.




End TypedAssignment.

(** *** Powers by products *)

Section ProductLaw.
Variable mm : matrix → matrix → result matrix.
(** [R a q]: the matrix [a] counts as a [q]-th power. *)
Variable R : matrix → nat → Prop.
Variable P : nat.
Hypothesis law : ∀ a b q r, (1 ≤ q)%nat → (1 ≤ r)%nat → (q + r ≤ P)%nat →
  R a q → R b r → ∃ c, mm a b = Ok c ∧ R c (q + r).

(** The loop of [np.linalg.matrix_power]: with [z] the [e]-th power and
    [res] the [q]-th power collected so far, the loop over the exponent
    [p] returns the power [q + e * p], and it only forms products of
    total exponent at most [q + e * p]. *)
Lemma matrix_power_loop_law p :
  ∀ z res e q,
    (1 ≤ e)%nat → R z e →
    match res with
    | None => q = 0%nat
    | Some r => (1 ≤ q)%nat ∧ R r q
    end →
    (q + e * Pos.to_nat p ≤ P)%nat →
    ∃ c, Machine.matrix_power_loop mm z res p = Ok c ∧ R c (q + e * Pos.to_nat p).
Proof.
  induction p as [p IH|p IH|]; intros z res e q He Hz Hres Hb;
    cbn [Machine.matrix_power_loop].
  - rewrite Pos2Nat.inj_xI in Hb.
    assert (∃ r, match res with None => Ok z | Some r => mm r z end = Ok r ∧
                 (1 ≤ q + e)%nat ∧ R r (q + e)) as (r & -> & Hqe & Hr).
    { destruct res as [r|].
      - destruct Hres as [Hq Hr].
        destruct (law r z q e Hq He ltac:(nia) Hr Hz) as (c & -> & Hc).
        exists c. split_and!; [done|lia|done].
      - subst q. exists z. split_and!; [done|lia|done]. }
    cbn [mbind result_bind].
    destruct (law z z e e He He ltac:(nia) Hz Hz) as (z' & -> & Hz').
    cbn [mbind result_bind].
    destruct (IH z' (Some r) (e + e)%nat (q + e)%nat ltac:(lia) Hz' (conj Hqe Hr))
      as (c & -> & Hc); [nia|].
    exists c. split; [done|].
    replace (q + e * Pos.to_nat p~1)%nat with (q + e + (e + e) * Pos.to_nat p)%nat; [done|].
    rewrite Pos2Nat.inj_xI. lia.
  - rewrite Pos2Nat.inj_xO in Hb.
    pose proof (Pos2Nat.is_pos p) as Hp.
    destruct (law z z e e He He ltac:(nia) Hz Hz) as (z' & -> & Hz').
    cbn [mbind result_bind].
    destruct (IH z' res (e + e)%nat q ltac:(lia) Hz' Hres) as (c & -> & Hc); [nia|].
    exists c. split; [done|].
    replace (q + e * Pos.to_nat p~0)%nat with (q + (e + e) * Pos.to_nat p)%nat; [done|].
    rewrite Pos2Nat.inj_xO. lia.
  - replace (q + e * Pos.to_nat 1)%nat with (q + e)%nat in * by (simpl; lia).
    destruct res as [r|].
    + destruct Hres as [Hq Hr]. by apply law.
    + subst q. by exists z.
Qed.

Lemma np_matrix_power_law a (p : N) :
  square a → R a 1 → (1 ≤ p)%N → (N.to_nat p ≤ P)%nat →
  ∃ c, Machine.np_matrix_power mm a p = Ok c ∧ R c (N.to_nat p).
Proof.
  intros Hsq Ha Hp Hb. unfold Machine.np_matrix_power. rewrite decide_True by done.
  assert (∀ q, (Pos.to_nat q ≤ P)%nat →
    ∃ c, Machine.matrix_power_loop mm a None q = Ok c ∧ R c (Pos.to_nat q)) as Hloop.
  { intros q Hq.
    destruct (matrix_power_loop_law q a None 1 0 ltac:(lia) Ha eq_refl) as (c & Hc & Hr);
      [lia|].
    exists c. split; [done|].
    by replace (Pos.to_nat q) with (0 + 1 * Pos.to_nat q)%nat by lia. }
  destruct p as [|p]; [lia|]. change (N.to_nat (Npos p)) with (Pos.to_nat p) in *.
  destruct p as [[p|p|]|[p|p|]|]; try (by apply Hloop).
  - destruct (law a a 1 1 ltac:(lia) ltac:(lia) ltac:(simpl in Hb; lia) Ha Ha)
      as (aa & -> & Haa).
    cbn [mbind result_bind].
    by apply (law aa a (1 + 1) 1); [lia|lia|simpl in Hb; lia|..].
  - by apply (law a a 1 1); [lia|lia|simpl in Hb; lia|..].
  - by exists a.
Qed.

Lemma sp_pow_pos_law a p :
  R a 1 → (Pos.to_nat p ≤ P)%nat →
  ∃ c, Machine.sp_pow_pos mm a p = Ok c ∧ R c (Pos.to_nat p).
Proof.
  intros Ha. induction p as [p IH|p IH|]; intros Hb; cbn [Machine.sp_pow_pos].
  - rewrite Pos2Nat.inj_xI in *. pose proof (Pos2Nat.is_pos p) as Hp.
    destruct IH as (tmp & -> & Htmp); [lia|]. cbn [mbind result_bind].
    destruct (law a tmp 1 (Pos.to_nat p) ltac:(lia) ltac:(lia) ltac:(lia) Ha Htmp)
      as (t & -> & Ht).
    cbn [mbind result_bind].
    destruct (law t tmp (1 + Pos.to_nat p) (Pos.to_nat p) ltac:(lia) ltac:(lia) ltac:(lia)
                Ht Htmp) as (c & -> & Hc).
    exists c. split; [done|].
    by replace (S (2 * Pos.to_nat p)) with (1 + Pos.to_nat p + Pos.to_nat p)%nat by lia.
  - rewrite Pos2Nat.inj_xO in *. pose proof (Pos2Nat.is_pos p) as Hp.
    destruct IH as (tmp & -> & Htmp); [lia|]. cbn [mbind result_bind].
    destruct (law tmp tmp (Pos.to_nat p) (Pos.to_nat p) ltac:(lia) ltac:(lia) ltac:(lia)
                Htmp Htmp) as (c & -> & Hc).
    exists c. split; [done|].
    by replace (2 * Pos.to_nat p)%nat with (Pos.to_nat p + Pos.to_nat p)%nat by lia.
  - by exists a.
Qed.

(** [expand] with the products [mm] returns the [p]-th power, through
    products of total exponent at most [p]. *)
Lemma expand_law a (p : N) :
  square a → R a 1 → (1 ≤ p)%N → (N.to_nat p ≤ P)%nat →
  ∃ c, Machine.expand mm a p = Ok c ∧ R c (N.to_nat p).
Proof.
  intros Hsq Ha Hp Hb. unfold Machine.expand. destruct (isspmatrix a).
  - unfold Machine.sp_pow. rewrite decide_True by done.
    destruct p as [|p]; [lia|]. by apply sp_pow_pos_law.
  - by apply np_matrix_power_law.
Qed.
End ProductLaw.

Lemma machine_expand_one mm a : square a → Machine.expand mm a 1 = Ok a.
Proof.
  intros Hsq. unfold Machine.expand, Machine.sp_pow, Machine.np_matrix_power.
  destruct (isspmatrix a); by rewrite decide_True.
Qed.


Lemma machine_expand_nonsquare mm a p :
  ¬ square a →
  Machine.expand mm a p = Raise (if isspmatrix a then TypeError else LinAlgError).
Proof.
  intros Hsq. unfold Machine.expand, Machine.sp_pow, Machine.np_matrix_power.
  destruct (isspmatrix a); by rewrite decide_False.
Qed.

(** With the exact product, [Machine.expand] is [expand]. *)
Lemma machine_expand_exact a p : Machine.expand matmul a p = expand a p.
Proof. reflexivity. Qed.

(** *** Products of [int64] matrices *)

Lemma matmul_int64_represents n a b f g :
  represents n a f → represents n b g →
  ∃ c, matmul_int64 a b = Ok c ∧
       represents n c (λ i j, int64 (prod_entries n f g i j)) ∧
       isspmatrix c = isspmatrix a && isspmatrix b.
Proof.
  intros (Hwa & Hsa & Hea) (Hwb & Hsb & Heb). unfold matmul_int64.
  assert (ncols a = n ∧ nrows a = n ∧ ncols b = n ∧ nrows b = n) as (Hca & Hra & Hcb & Hrb).
  { unfold ncols, nrows. by rewrite Hsa, Hsb. }
  rewrite decide_True by congruence.
  assert (∀ i j, (i < n)%nat → (j < n)%nat →
            int64 (dot_entry a b i j) = int64 (prod_entries n f g i j)) as Hd.
  { intros i j Hi Hj. f_equal. unfold dot_entry, prod_entries. rewrite Hca.
    apply sum_upto_ext. intros k Hk. by rewrite Hea, Heb. }
  destruct a as [nra nca rowsa|fmta nra nca da], b as [nrb ncb rowsb|fmtb nrb ncb db];
    simpl in Hsa, Hsb; injection Hsa as -> ->; injection Hsb as -> ->;
    eexists; (split; [reflexivity|]); (split; [|done]).
  1-3: split_and!; [apply wf_dense_of|done|];
       intros i j Hi Hj; rewrite entry_dense_of by done; by apply Hd.
  split_and!; [apply wf_sp_tabulate|done|].
  intros i j Hi Hj. rewrite entry_sp_tabulate by done. by apply Hd.
Qed.

(** The products of [int64] matrices are exact as long as the entries of
    the powers stay inside the range of [int64]. *)
Lemma matmul_int64_exact n f p :
  (∀ q i j, (2 ≤ q ≤ p)%nat → (i < n)%nat → (j < n)%nat →
            int64 (power_entries n f q i j) = power_entries n f q i j) →
  exact_products matmul_int64 n f p.
Proof.
  intros Hfit a b q r Hq Hr Hqr Ha Hb.
  destruct (matmul_int64_represents n a b _ _ Ha Hb) as (c & Hc & Hrc & Hk).
  exists c. split_and!; [done| |done].
  eapply represents_ext; [exact Hrc|]. intros i j Hi Hj. cbv beta.
  rewrite <- power_entries_add by done. apply Hfit; [lia|done..].
Qed.

(** The exact product computes every product exactly. *)
Lemma matmul_exact_products n f p : exact_products matmul n f p.
Proof.
  intros a b q r _ _ _ Ha Hb.
  destruct (matmul_represents n a b _ _ Ha Hb) as (c & Hc & Hrc & Hk).
  exists c. split_and!; [done| |done].
  eapply represents_ext; [exact Hrc|]. intros i j Hi Hj.
  by rewrite power_entries_add.
Qed.

(** [expand] over products that are exact up to the exponent [p]. *)
Lemma machine_expand_represents mm n a f (p : N) :
  represents n a f → (1 ≤ p)%N → exact_products mm n f (N.to_nat p) →
  ∃ c, Machine.expand mm a p = Ok c ∧
       represents n c (power_entries n f (N.to_nat p)) ∧
       isspmatrix c = isspmatrix a.
Proof.
  intros Ha Hp Hex. pose proof Ha as (Hwa & Hsa & _).
  destruct (shape_square n a Hsa) as (_ & _ & Hsq).
  destruct (expand_law mm
              (λ c q, represents n c (power_entries n f q) ∧ isspmatrix c = isspmatrix a)
              (N.to_nat p)) with (a := a) (p := p) as (c & Hc & Hrc & Hk); [|done| |done|lia|].
  - intros x y q r Hq Hr Hqr [Hx Hkx] [Hy Hky].
    destruct (Hex x y q r Hq Hr Hqr Hx Hy) as (c & Hc & Hrc & Hk).
    exists c. split_and!; [done..|]. rewrite Hk, Hkx, Hky. by destruct (isspmatrix a).
  - split; [|done]. eapply represents_ext; [exact Ha|]. intros i j Hi Hj.
    by rewrite power_entries_1.
  - by exists c.
Qed.




(** *** Normalization with rounded sums and quotients *)

Section MachineNormalize.
Variables np_sum sp_sum : list Qc → Qc.
Variable fdiv : Qc → Qc → Qc.
Hypothesis fdiv_one : ∀ x, fdiv x 1 = x.
Hypothesis fdiv_zero : ∀ s, s ≠ 0 → fdiv 0 s = 0.



Hypothesis np_sum_zero : ∀ l, Forall (λ x, x = 0) l → np_sum l = 0.
Hypothesis sp_sum_zero : ∀ l, Forall (λ x, x = 0) l → sp_sum l = 0.


End MachineNormalize.

(** * The claims *)

(** ** C3 *)




(** ** C6 *)

(** C6, the failing inputs.  The claim is made for every matrix and
    every threshold [t ≥ 0], and says that pruning a non-negative matrix
    at 0 returns it unchanged.  The dense branch does so.  The sparse
    branch compares with [matrix >= threshold], which scipy refuses for
    the threshold 0: on every sparse matrix [prune m 0] raises
    [NotImplementedError], though the dense array of the same entries is
    returned as it is.  And with a threshold that is not 0 the sparse
    branch indexes [matrix] by the mask, which a matrix in COO, DIA or
    BSR format does not support: [prune] raises instead of returning the
    thresholded matrix. *)
Theorem prune_sparse_branch_raises (fmt : spformat) (nr nc : nat)
    (d : gmap (nat * nat) Qc) (t : Qc) :
  let m := Sparse fmt nr nc d in
  wf m → nonneg m → 0 ≤ t →
  prune m 0 = Raise NotImplementedError ∧
  prune (toarray m) 0 = Ok (toarray m) ∧
  same_matrix m (toarray m) ∧
  (t ≠ 0 → subscriptable fmt = false →
   prune m t = Raise (if decide (fmt = BSR) then NotImplementedError else TypeError) ∧
   ∃ m', prune (toarray m) t = Ok m' ∧ thresholded m t m').
Proof.
  intros m Hwf Hnn Ht. pose proof (toarray_same m Hwf) as Hsame.
  assert (wf (toarray m)) as Hwd by apply wf_dense_of.
  assert (nonneg (toarray m)) as Hnd.
  { apply nonneg_entry. intros i j Hi Hj.
    change (entry (dense_of nr nc (entry m)) i j) with (entry (toarray m) i j).
    unfold toarray, m. rewrite entry_dense_of by done.
    by apply (proj1 (nonneg_entry (Sparse fmt nr nc d)) Hnn). }
  split_and!; [done| |done|].
  - exact (prune_dense_zero nr nc _ Hwd Hnd).
  - intros Hne Hfmt. split.
    + unfold m, prune, sp_ge. rewrite decide_False by done. cbn [mbind result_bind].
      by destruct fmt.
    + destruct (prune_dense nr nc (tabulate nr nc (entry m)) t Hwd) as (m' & Hp & [Hs He] & _).
      exists m'. split; [done|]. split; [done|]. intros i j Hi Hj.
      rewrite He by done.
      change (Dense nr nc (tabulate nr nc (entry m))) with (dense_of nr nc (entry m)).
      by rewrite entry_dense_of.
Qed.

Lemma prune_sparse_branch_raises_witness :
  let fmt := COO in
  let d : gmap (nat * nat) Qc := {[ (0, 0)%nat := 1; (1, 0)%nat := Q2Qc (1 # 4) ]} in
  let t := Q2Qc (1 # 2) in
  let m := Sparse fmt 2 2 d in
  wf m ∧ nonneg m ∧ 0 ≤ t ∧
  prune m 0 = Raise NotImplementedError ∧
  prune (toarray m) 0 = Ok (toarray m) ∧
  same_matrix m (toarray m) ∧
  (t ≠ 0 → subscriptable fmt = false →
   prune m t = Raise (if decide (fmt = BSR) then NotImplementedError else TypeError) ∧
   ∃ m', prune (toarray m) t = Ok m' ∧ thresholded m t m').
Proof.
  intros fmt d t m.
  assert (wf m) as H1 by compute_done.
  assert (nonneg m) as H2 by compute_done.
  assert (0 ≤ t) as H3 by compute_done.
  split_and!; [done..| | | |];
    by destruct (prune_sparse_branch_raises fmt 2 2 d t H1 H2 H3) as (? & ? & ? & ?).
Defined.

(** ** C5 *)

(** C5, the counterexample.  The products of [expand] are those of the
    element type of the matrix.  The module's own [graph] is an array of
    64-bit integers, whose products wrap around: entry (2, 3) of the 35th
    power of [graph] is 12399322901721907200, above 2^63, and
    [expand graph 35] holds -6047421171987644416 there.  The matrix
    returned is not the matrix power. *)
Lemma expand_int64_wraps_around :
  let p := 35%N in
  wf graph ∧ square graph ∧ (1 ≤ p)%N ∧
  power_entries 7 (entry graph) (N.to_nat p) 2 3
  = Q2Qc (inject_Z 12399322901721907200) ∧
  ∃ m', Machine.expand matmul_int64 graph p = Ok m' ∧
        entry m' 2 3 = Q2Qc (inject_Z (-6047421171987644416)) ∧
        ¬ represents 7 m' (power_entries 7 (entry graph) (N.to_nat p)).
Proof.
  intros p.
  assert (wf graph) as Hwf by compute_done.
  assert (square graph) as Hsq by compute_done.
  assert (power_entries 7 (entry graph) (N.to_nat p) 2 3
          = Q2Qc (inject_Z 12399322901721907200)) as Hexact.
  { destruct (expand_represents 7 graph (entry graph) p (represents_entry graph Hwf Hsq))
      as (e & He & (_ & _ & Hent) & _).
    rewrite <- (Hent 2%nat 3%nat) by (clear; lia).
    assert ((λ r : result matrix, match r with Ok m => entry m 2 3 | Raise _ => 0 end)
              (expand graph p) = Q2Qc (inject_Z 12399322901721907200)) as Hv
      by compute_done.
    by rewrite He in Hv. }
  destruct (Machine.expand matmul_int64 graph p) as [m'|e] eqn:Hm;
    [|by vm_compute in Hm].
  assert (entry m' 2 3 = Q2Qc (inject_Z (-6047421171987644416))) as Hv.
  { assert ((λ r : result matrix, match r with Ok m => entry m 2 3 | Raise _ => 0 end)
              (Machine.expand matmul_int64 graph p)
            = Q2Qc (inject_Z (-6047421171987644416))) as Hv by compute_done.
    by rewrite Hm in Hv. }
  split_and!; [done..|]. exists m'. split_and!; [done..|].
  intros (_ & _ & Hent). specialize (Hent 2%nat 3%nat). rewrite Hv, Hexact in Hent.
  assert (Q2Qc (inject_Z (-6047421171987644416)) ≠ Q2Qc (inject_Z 12399322901721907200))
    as Hne by compute_done.
  apply Hne, Hent; lia.
Qed.

(** C5, amended.  [mm] is the matrix product of the element type.  For
    every square matrix [m] and integer power [p ≥ 1] such that the
    products of powers of [m] up to the [p]-th are computed exactly (no
    wrap-around of integers, no rounding), [expand m p] returns the [p]-th
    matrix power of [m] by repeated standard matrix multiplication (its
    entries are [power_entries], built from sums of products, not from
    entry-wise powers), on the dense path (the squarings of
    [np.linalg.matrix_power]) and on the sparse path (the recursion of
    [**]) alike, stored as [m] is; on any other representation [s] of the
    same logical matrix [expand] returns the same logical matrix; and
    [expand m 1] is [m], whatever the products. *)
Theorem expand_matrix_power (mm : matrix → matrix → result matrix) (m : matrix) (p : N) :
  wf m → square m → (1 ≤ p)%N →
  exact_products mm (nrows m) (entry m) (N.to_nat p) →
  Machine.expand mm m 1 = Ok m ∧
  ∃ m', Machine.expand mm m p = Ok m' ∧
    represents (nrows m) m' (power_entries (nrows m) (entry m) (N.to_nat p)) ∧
    isspmatrix m' = isspmatrix m ∧
    (∀ s, wf s → same_matrix m s →
          ∃ s', Machine.expand mm s p = Ok s' ∧ same_matrix m' s').
Proof.
  intros Hwf Hsq Hp Hmm. pose proof (represents_entry m Hwf Hsq) as Hm.
  split; [by apply machine_expand_one|].
  destruct (machine_expand_represents mm _ m _ p Hm Hp Hmm) as (m' & He & Hm' & Hsp).
  exists m'. split_and!; [done..|].
  intros s Hws [Hsh Hes]%same_matrix_entry.
  assert (represents (nrows m) s (entry m)) as Hs.
  { destruct Hm as (_ & Hshm & _). split_and!; [done|congruence|].
    intros i j Hi Hj. symmetry. apply Hes; [done|]. unfold square in Hsq. lia. }
  destruct (machine_expand_represents mm _ s _ p Hs Hp Hmm) as (s' & Hes' & Hs' & _).
  exists s'. split; [done|]. by eapply represents_same.
Qed.

Lemma expand_matrix_power_witness :
  let mm := matmul_int64 in
  let m := Sparse CSC 2 2 {[ (0, 0)%nat := 1; (0, 1)%nat := 1; (1, 1)%nat := 1 ]} in
  let p := 5%N in
  wf m ∧ square m ∧ (1 ≤ p)%N ∧
  exact_products mm (nrows m) (entry m) (N.to_nat p) ∧
  Machine.expand mm m 1 = Ok m ∧
  ∃ m', Machine.expand mm m p = Ok m' ∧
    represents (nrows m) m' (power_entries (nrows m) (entry m) (N.to_nat p)) ∧
    isspmatrix m' = isspmatrix m ∧
    (∀ s, wf s → same_matrix m s →
          ∃ s', Machine.expand mm s p = Ok s' ∧ same_matrix m' s').
Proof.
  intros mm m p.
  assert (wf m) as H1 by compute_done.
  assert (square m) as H2 by compute_done.
  assert (1 ≤ p)%N as H3 by compute_done.
  assert (exact_products mm (nrows m) (entry m) (N.to_nat p)) as H4.
  { apply matmul_int64_exact. intros q i j Hq Hi Hj.
    assert (q = 2 ∨ q = 3 ∨ q = 4 ∨ q = 5)%nat as Hqs by (change (2 ≤ q ≤ 5)%nat in Hq; lia).
    assert (i = 0 ∨ i = 1)%nat as His by (change (i < 2)%nat in Hi; lia).
    assert (j = 0 ∨ j = 1)%nat as Hjs by (change (j < 2)%nat in Hj; lia).
    destruct Hqs as [->|[->|[->| ->]]], His as [->| ->], Hjs as [->| ->]; compute_done. }
  split_and!; [done..| |]; by destruct (expand_matrix_power mm m p H1 H2 H3 H4).
Defined.

(** ** C2 *)

(** C2, the failing inputs.  The claim is made for every pair of
    matrices of one shape, and says that [converged m m] is true for
    every matrix and that the result does not depend on the
    representation.  On a shape without entries (no rows or no columns)
    every entry pair is within the tolerances, vacuously, and the dense
    branch, [np.allclose], returns true.  The sparse branch takes the
    maximum of a matrix without entries: as soon as one of the two
    matrices is sparse, [converged] raises [ValueError], on the very
    matrices whose dense arrays it finds converged. *)
Theorem converged_raises_without_entries (a b : matrix) :
  wf a → wf b → shape a = shape b →
  nrows a = 0%nat ∨ ncols a = 0%nat →
  isspmatrix a || isspmatrix b = true →
  all_close a b ∧
  converged a b = Raise ValueError ∧
  converged (toarray a) (toarray b) = Ok true ∧
  same_matrix a (toarray a) ∧ same_matrix b (toarray b) ∧
  (isspmatrix a = true → converged a a = Raise ValueError).
Proof.
  intros Hwa Hwb Hs Hempty Hsp.
  pose proof (toarray_same a Hwa) as Ha. pose proof (toarray_same b Hwb) as Hb.
  pose proof Ha as [Hsa _]. pose proof Hb as [Hsb _].
  destruct (shape_nrows_ncols _ _ Hsa) as [Hra Hca].
  split_and!; [| | |done|done|].
  - intros i j Hi Hj. destruct Hempty; lia.
  - unfold converged. rewrite Hsp. by apply sparse_allclose_empty.
  - unfold converged.
    assert (isspmatrix (toarray a) = false) as -> by (by destruct a).
    assert (isspmatrix (toarray b) = false) as -> by (by destruct b).
    cbn [orb].
    destruct (np_allclose_spec (toarray a) (toarray b) default_rtol default_atol)
      as (r & -> & Hr); [congruence|].
    f_equal. apply Hr. rewrite <- Hra, <- Hca. intros i j Hi Hj. destruct Hempty; lia.
  - intros Hka. unfold converged. rewrite Hka. cbn [orb].
    by apply sparse_allclose_empty.
Qed.

Lemma converged_raises_without_entries_witness :
  let a := Sparse CSC 0 3 ∅ in
  let b := Dense 0 3 [] in
  wf a ∧ wf b ∧ shape a = shape b ∧
  (nrows a = 0%nat ∨ ncols a = 0%nat) ∧
  isspmatrix a || isspmatrix b = true ∧
  all_close a b ∧
  converged a b = Raise ValueError ∧
  converged (toarray a) (toarray b) = Ok true ∧
  same_matrix a (toarray a) ∧ same_matrix b (toarray b) ∧
  (isspmatrix a = true → converged a a = Raise ValueError).
Proof.
  intros a b.
  assert (wf a) as H1 by compute_done.
  assert (wf b) as H2 by compute_done.
  assert (shape a = shape b) as H3 by reflexivity.
  assert (nrows a = 0%nat ∨ ncols a = 0%nat) as H4 by (by left).
  assert (isspmatrix a || isspmatrix b = true) as H5 by reflexivity.
  split_and!; [done..| | | | | |];
    by destruct (converged_raises_without_entries a b H1 H2 H3 H4 H5)
      as (? & ? & ? & ? & ? & ?).
Defined.

(** ** C4 *)



(** ** C7 *)

(** C7, counterexample.  The claim has the operations that need a square
    matrix raise a [ShapeError].  On the dense 1 × 2 matrix
    [add_self_loops] fails its [assert] and [expand] fails inside
    [np.linalg.matrix_power]; on the sparse one [expand] fails inside
    [**]: none of the exceptions is called [ShapeError]. *)
Lemma nonsquare_error_is_not_ShapeError :
  let m := Dense 1 2 [[1; 1]] in
  let s := Sparse CSC 1 2 {[ (0, 1)%nat := 1 ]} in
  wf m ∧ ¬ square m ∧ wf s ∧ ¬ square s ∧
  ¬ (∃ e, add_self_loops m 1 = Raise e ∧ exn_name e = "ShapeError") ∧
  ¬ (∃ e, expand m 2 = Raise e ∧ exn_name e = "ShapeError") ∧
  ¬ (∃ e, add_self_loops s 1 = Raise e ∧ exn_name e = "ShapeError") ∧
  ¬ (∃ e, expand s 2 = Raise e ∧ exn_name e = "ShapeError").
Proof.
  intros m s. split_and!; try compute_done;
    intros (e & He & Hn); vm_compute in He; injection He as <-; discriminate Hn.
Qed.

(** C7, amended.  For every non-square matrix, each operation that needs a
    square matrix fails rather than returning a matrix: [add_self_loops]
    raises [AssertionError], [expand] raises [LinAlgError] on a dense
    matrix and [TypeError] on a sparse one. *)
Theorem nonsquare_raises (m : matrix) (loop_value : Qc) (power : N) :
  ¬ square m →
  add_self_loops m loop_value = Raise AssertionError ∧
  expand m power = Raise (if isspmatrix m then TypeError else LinAlgError).
Proof.
  intros Hsq. unfold square, nrows, ncols in Hsq. split.
  - unfold add_self_loops. by rewrite decide_False.
  - unfold expand, sp_pow, np_matrix_power, nrows, ncols.
    destruct (isspmatrix m); by rewrite decide_False.
Qed.

Lemma nonsquare_raises_witness :
  let m := Sparse DOK 2 3 {[ (0, 2)%nat := 1 ]} in
  ¬ square m ∧
  add_self_loops m 1 = Raise AssertionError ∧
  expand m 2 = Raise (if isspmatrix m then TypeError else LinAlgError).
Proof.
  intros m. assert (¬ square m) as H by compute_done.
  split; [done|]. exact (nonsquare_raises m 1 2 H).
Defined.

(** ** C1 *)




(** ** C8 *)





(** ** C10 *)

(** Where the claim holds: [prune] on every matrix, and [add_self_loops]
    and [run_mcl] on every matrix that is not sparse in DOK format, leave
    each object of the store, the argument among them, as it was before
    the call. *)
Lemma argument_unchanged_unless_dok (fpow : Qc → Qc → Qc)
    (h : gmap Store.ref matrix) (l : Store.ref) (m : matrix) :
  h !! l = Some m →
  (∀ threshold l' h',
     Store.prune l threshold h = Ok (l', h') → h' !! l = Some m) ∧
  (is_dok m = false →
   (∀ loop_value l' h',
      Store.add_self_loops l loop_value h = Ok (l', h') → h' !! l = Some m) ∧
   (∀ expansion inflation loop_value iterations pruning l' h',
      Store.run_mcl fpow l expansion inflation loop_value iterations pruning h
      = Ok (l', h') → h' !! l = Some m)).
Proof.
  intros Hl. split; [|intros Hdok; split].
  - intros t l' h'. apply refines_frame with (r := prune m t); [|done].
    by apply prune_refines.
  - intros v l' h'. apply refines_frame with (r := add_self_loops m v); [|done].
    by apply add_self_loops_refines.
  - intros e r v k t l' h'.
    apply refines_frame with (r := pipeline fpow e r t m v k); [|done].
    by apply run_mcl_refines.
Qed.

(** C10, the failing input.  The caller holds, at reference 1, the
    2 × 2 matrix in DOK format whose only stored entry is a 1 at (0, 1).
    [matrix.todok()] returns that very object, the loop of
    [add_self_loops] writes the loop value 1 on its diagonal, and after
    the call, and after [run_mcl] with the default arguments, the
    caller's matrix holds three entries instead of one. *)
Theorem add_self_loops_overwrites_dok_argument :
  let m := Sparse DOK 2 2 {[ (0, 1)%nat := 1 ]} in
  let m' := Sparse DOK 2 2 {[ (0, 0)%nat := 1; (0, 1)%nat := 1; (1, 1)%nat := 1 ]} in
  let h : gmap Store.ref matrix := {[ 1%positive := m ]} in
  let fpow := λ x r : Qc, x * x in
  m ≠ m' ∧
  (∃ l' h', Store.add_self_loops 1%positive 1 h = Ok (l', h') ∧
            h' !! 1%positive = Some m') ∧
  (∃ l' h', Store.run_mcl fpow 1%positive default_expansion default_inflation
              default_loop_value default_iterations default_pruning h = Ok (l', h') ∧
            h' !! 1%positive = Some m').
Proof.
  intros m m' h fpow. split_and!.
  - intros Heq. assert (entry m 0 0 = entry m' 0 0) as He by (by rewrite Heq).
    vm_compute in He. discriminate He.
  - destruct (Store.add_self_loops 1%positive 1 h) as [[l1 h1]|e] eqn:Hr;
      vm_compute in Hr; [|discriminate Hr].
    injection Hr as <- <-. eexists _, _. split; [reflexivity|]. by vm_compute.
  - destruct (Store.run_mcl fpow 1%positive default_expansion default_inflation
                default_loop_value default_iterations default_pruning h)
      as [[l1 h1]|e] eqn:Hr; vm_compute in Hr; [|discriminate Hr].
    injection Hr as <- <-. eexists _, _. split; [reflexivity|]. by vm_compute.
Qed.

(** ** C9 *)

(** C9.  [run_mcl] with all default arguments (expansion 2, inflation 2,
    loop value 1, 10 iterations, pruning 0.001) on the example [graph]
    reaches convergence within the cap: it prints "Converged after 8
    iterations", in the ninth of the ten iterations.  In the returned
    matrix the columns 0, 1, 2 are supported on row 2 and the columns
    3, 4, 5, 6 on the rows 4 and 6, so the supports partition the seven
    nodes into exactly the two groups {0, 1, 2} and {3, 4, 5, 6} of the
    block structure. *)
Theorem run_mcl_graph_two_clusters :
  ∃ m i,
    run_mcl_out power_nat graph default_expansion default_inflation
      default_loop_value default_iterations default_pruning false
    = Ok (m, [PrintConverged i]%list) ∧
    (i < default_iterations)%nat ∧
    run_mcl power_nat graph default_expansion default_inflation
      default_loop_value default_iterations default_pruning false = Ok m ∧
    shape m = (7, 7)%nat ∧
    column_support m <$> seq 0 7 = graph_column_supports ∧
    groups (column_support m <$> seq 0 7) = graph_groups.
Proof.
  destruct graph_run_enclosed as (m & a & Hrun & Hm' & Ha).
  assert (column_support m <$> seq 0 7 = graph_column_supports) as Hsupp.
  { assert (∀ j, (j < 7)%nat →
      column_support m j
      = filter (λ i, (row ← graph_support !! i; row !! j) = Some (Some true)) (seq 0 7))
      as Hcol.
    { intros j Hj. apply (column_support_table 7 a m j graph_support Hm' Hj Ha).
      do 7 (destruct j as [|j]; [repeat constructor; by eexists|]). lia. }
    cbn [seq fmap list_fmap]. rewrite !Hcol by lia. vm_compute. reflexivity. }
  exists m, 8%nat. split_and!.
  - done.
  - unfold default_iterations. lia.
  - unfold run_mcl. by rewrite Hrun.
  - by destruct Hm' as (_ & ? & _).
  - done.
  - rewrite Hsupp. vm_compute. reflexivity.
Qed.
(** * Further properties of the module *)

(** ** Pruning *)

Lemma thresholded_twice m t m' m'' :
  thresholded m t m' → thresholded m' t m'' → same_matrix m' m''.
Proof.
  intros [Hs He] [Hs' He']. apply same_matrix_entry. split; [done|].
  destruct (shape_nrows_ncols _ _ Hs) as [Hr Hc].
  intros i j Hi Hj. rewrite He' by done. rewrite He by congruence.
  destruct (decide (entry m i j < t)) as [Hlt|Hge].
  - by destruct (decide (0 < t)).
  - by rewrite decide_False.
Qed.

(** A sparse matrix is pruned only with a non-zero threshold, and the
    result is in CSC format. *)
Lemma prune_sparse_Ok fmt nr nc d t m' :
  prune (Sparse fmt nr nc d) t = Ok m' →
  t ≠ 0 ∧ ∃ d', m' = Sparse CSC nr nc d'.
Proof.
  unfold prune, sp_ge. destruct (decide (t = 0)) as [|Hne]; [done|].
  cbn [mbind result_bind]. destruct (sp_getitem _ _) as [values|]; [|done].
  cbn [mbind result_bind]. intros [= <-]. split; [done|]. by eexists.
Qed.

(** X4.  Pruning is idempotent: pruning the matrix returned by
    [prune m t] once more with the same threshold succeeds and returns
    the same logical matrix, of the same kind (dense or sparse). *)
Theorem prune_idempotent (m m' : matrix) (t : Qc) :
  wf m → prune m t = Ok m' →
  ∃ m'', prune m' t = Ok m'' ∧ same_matrix m' m'' ∧ isspmatrix m'' = isspmatrix m'.
Proof.
  intros Hwf Hp. destruct (prune_Ok m t m' Hwf Hp) as (Hth & Hw' & Hsp).
  assert (∃ m'', prune m' t = Ok m'') as [m'' Hp'].
  { destruct m as [nr nc rows|fmt nr nc d].
    - destruct m' as [nr' nc' rows'|]; [|done]. by eexists.
    - destruct (prune_sparse_Ok fmt nr nc d t m' Hp) as (Hne & d' & ->).
      destruct (prune_sparse CSC nr nc d' t Hw' Hne eq_refl) as (m'' & Hp' & _).
      by exists m''. }
  exists m''. destruct (prune_Ok m' t m'' Hw' Hp') as (Hth' & _ & Hsp').
  split_and!; [done| |done]. by eapply thresholded_twice.
Qed.

Lemma prune_idempotent_witness :
  let m := Sparse CSR 2 2 {[ (0, 0)%nat := 1; (1, 0)%nat := Q2Qc (1 # 4) ]} in
  let m' := Sparse CSC 2 2 {[ (0, 0)%nat := 1 ]} in
  let t := Q2Qc (1 # 2) in
  wf m ∧ prune m t = Ok m' ∧
  ∃ m'', prune m' t = Ok m'' ∧ same_matrix m' m'' ∧ isspmatrix m'' = isspmatrix m'.
Proof.
  intros m m' t.
  assert (wf m) as H1 by compute_done.
  assert (prune m t = Ok m') as H2 by compute_done.
  split_and!; [done..|]. exact (prune_idempotent m m' t H1 H2).
Defined.




(** ** Pruning where it returns *)



(** ** Self-loops *)

(** X6.  Setting the self-loops again overrides them: on a square matrix
    [add_self_loops] succeeds, its result can be indexed (it is dense, or
    sparse in CSC format), and applying [add_self_loops] with a second
    loop value to that result gives the same logical matrix as applying it
    with the second value to the original; in particular [add_self_loops]
    with one loop value is idempotent. *)
Theorem add_self_loops_overrides (m : matrix) (v w : Qc) :
  wf m → square m →
  ∃ m1 m2 m3,
    add_self_loops m v = Ok m1 ∧ indexable m1 = true ∧
    add_self_loops m1 w = Ok m2 ∧ add_self_loops m w = Ok m3 ∧
    same_matrix m2 m3 ∧ isspmatrix m2 = isspmatrix m.
Proof.
  intros Hwf Hsq.
  destruct (add_self_loops_spec m v Hwf Hsq) as (m1 & H1 & Hw1 & Hs1 & Hsp1 & He1).
  destruct (shape_nrows_ncols _ _ Hs1) as [Hr1 Hc1].
  assert (square m1) as Hsq1 by (unfold square; congruence).
  destruct (add_self_loops_spec m1 w Hw1 Hsq1) as (m2 & H2 & Hw2 & Hs2 & Hsp2 & He2).
  destruct (add_self_loops_spec m w Hwf Hsq) as (m3 & H3 & Hw3 & Hs3 & Hsp3 & He3).
  exists m1, m2, m3. split_and!; [done| |done|done| |congruence].
  - unfold add_self_loops in H1. destruct (decide _) in H1; [|done].
    destruct m as [nr nc rows|fmt nr nc d]; cbn [isspmatrix] in H1.
    + by destruct m1.
    + destruct (set_diagonal _ _ _) as [m0|] in H1; [|done].
      cbn [mbind result_bind] in H1. injection H1 as <-. by destruct m0.
  - apply same_matrix_entry. split; [congruence|].
    destruct (shape_nrows_ncols _ _ Hs2) as [Hr2 Hc2].
    intros i j Hi Hj. rewrite He2, He3, He1 by congruence.
    by destruct (decide (i = j)).
Qed.

Lemma add_self_loops_overrides_witness :
  let m := Sparse DOK 2 2 {[ (0, 1)%nat := 1 ]} in
  wf m ∧ square m ∧
  ∃ m1 m2 m3,
    add_self_loops m 1 = Ok m1 ∧ indexable m1 = true ∧
    add_self_loops m1 0 = Ok m2 ∧ add_self_loops m 0 = Ok m3 ∧
    same_matrix m2 m3 ∧ isspmatrix m2 = isspmatrix m.
Proof.
  intros m.
  assert (wf m) as H1 by compute_done.
  assert (square m) as H2 by compute_done.
  split_and!; [done..|]. exact (add_self_loops_overrides m 1 0 H1 H2).
Defined.

(** ** The driver *)

Section Rounds.
Variable fpow : Qc → Qc → Qc.
Variable expansion : N.
Variables inflation pruning : Qc.

(** A property that every pass of [iterate] keeps holds after any number
    of rounds. *)
Lemma rounds_ind (P : matrix → Prop) :
  (∀ a b, P a → iterate fpow a expansion inflation pruning = Ok b → P b) →
  ∀ k m s, P m → rounds fpow expansion inflation pruning k (Running m) = Ok s →
           P (state_matrix s).
Proof.
  intros HP. induction k as [|k IH]; intros m s Hm Hr.
  - injection Hr as <-. done.
  - cbn [rounds] in Hr. rewrite round_iterate in Hr.
    destruct (iterate fpow m expansion inflation pruning) as [m1|] eqn:Hit; [|done].
    cbn [mbind result_bind] in Hr.
    destruct (converged m1 m) as [c|]; [|done]. cbn [mbind result_bind] in Hr.
    destruct c.
    + destruct k; injection Hr as <-; by eapply HP.
    + eapply IH; [|done]. by eapply HP.
Qed.

Lemma rounds_kind n k m s :
  wf m → shape m = (n, n) → n ≠ 0%nat →
  rounds fpow expansion inflation pruning k (Running m) = Ok s →
  wf (state_matrix s) ∧ shape (state_matrix s) = (n, n) ∧
  isspmatrix (state_matrix s) = isspmatrix m.
Proof.
  intros Hwf Hs Hn Hr.
  apply (rounds_ind (λ a, wf a ∧ shape a = (n, n) ∧ isspmatrix a = isspmatrix m))
    with (k := k) (m := m); [|done|done].
  intros a b (Hwa & Hsa & Hka) Hit.
  destruct (iterate_total fpow expansion inflation pruning n a Hwa Hsa Hn)
    as (b' & Hit' & Hwb & Hsb & Hkb).
  rewrite Hit in Hit'. injection Hit' as <-. split_and!; congruence.
Qed.
End Rounds.

(** X7.  How [run_mcl] ends, by the shape of its argument.  On a matrix
    that is not square it raises [AssertionError] (from
    [add_self_loops]); on a square matrix without rows it raises
    [ValueError] (from [normalize]); and whenever it returns a matrix, the
    matrix has the shape of the argument and is of the same kind (dense
    for dense, sparse for sparse), whatever the entries, the powers, the
    loop value, the iteration cap, the pruning threshold and the
    verbosity. *)
Theorem run_mcl_outcome (fpow : Qc → Qc → Qc) (m : matrix) (expansion : N)
    (inflation loop_value : Qc) (iterations : nat) (pruning : Qc) (verbose : bool) :
  wf m →
  (¬ square m →
   run_mcl fpow m expansion inflation loop_value iterations pruning verbose
   = Raise AssertionError) ∧
  (square m → nrows m = 0%nat →
   run_mcl fpow m expansion inflation loop_value iterations pruning verbose
   = Raise ValueError) ∧
  (∀ m', run_mcl fpow m expansion inflation loop_value iterations pruning verbose
         = Ok m' →
         square m ∧ nrows m ≠ 0%nat ∧
         wf m' ∧ shape m' = shape m ∧ isspmatrix m' = isspmatrix m).
Proof.
  intros Hwf.
  assert (¬ square m →
          run_mcl fpow m expansion inflation loop_value iterations pruning verbose
          = Raise AssertionError) as Hnsq.
  { intros Hsq. rewrite run_mcl_pipeline_eq. unfold pipeline, add_self_loops.
    unfold square, nrows, ncols in Hsq. by rewrite decide_False. }
  assert (square m → nrows m = 0%nat →
          run_mcl fpow m expansion inflation loop_value iterations pruning verbose
          = Raise ValueError) as Hempty.
  { intros Hsq H0. rewrite run_mcl_pipeline_eq. unfold pipeline.
    destruct (add_self_loops_spec m loop_value Hwf Hsq) as (m0 & -> & _ & Hs0 & _).
    cbn [mbind result_bind]. unfold normalize. rewrite sk_normalize_empty; [done|].
    left. destruct (shape_nrows_ncols _ _ Hs0) as [-> _]. done. }
  split_and!; [done..|]. intros m' Hrun.
  destruct (decide (square m)) as [Hsq|Hsq]; [|by rewrite Hnsq in Hrun].
  destruct (decide (nrows m = 0%nat)) as [H0|Hn]; [by rewrite Hempty in Hrun|].
  split; [done|]. split; [done|].
  rewrite run_mcl_pipeline_eq in Hrun. unfold pipeline in Hrun.
  destruct (add_self_loops_spec m loop_value Hwf Hsq) as (m0 & H0 & Hw0 & Hs0 & Hk0 & _).
  rewrite H0 in Hrun. cbn [mbind result_bind] in Hrun.
  assert (shape m = (nrows m, nrows m)) as Hs.
  { unfold square, nrows, ncols in *. destruct (shape m); simpl in *; congruence. }
  destruct (normalize_total (nrows m) m0 Hw0) as (m1 & H1 & Hw1 & Hs1 & Hk1 & _);
    [congruence|done|].
  rewrite H1 in Hrun. cbn [mbind result_bind] in Hrun.
  destruct (rounds fpow expansion inflation pruning iterations (Running m1))
    as [s|e] eqn:Hr; [|done].
  cbn [mbind result_bind] in Hrun. injection Hrun as <-.
  destruct (rounds_kind fpow expansion inflation pruning (nrows m) iterations m1 s
              Hw1 Hs1 Hn Hr) as (? & ? & ?).
  split_and!; congruence.
Qed.

Lemma run_mcl_outcome_witness :
  let m := Sparse COO 2 2 {[ (0, 1)%nat := 1; (1, 0)%nat := 1 ]} in
  wf m ∧
  (¬ square m →
   run_mcl power_nat m 2 (1 + 1) 1 3 0 true = Raise AssertionError) ∧
  (square m → nrows m = 0%nat →
   run_mcl power_nat m 2 (1 + 1) 1 3 0 true = Raise ValueError) ∧
  (∀ m', run_mcl power_nat m 2 (1 + 1) 1 3 0 true = Ok m' →
         square m ∧ nrows m ≠ 0%nat ∧
         wf m' ∧ shape m' = shape m ∧ isspmatrix m' = isspmatrix m).
Proof.
  intros m. assert (wf m) as H by compute_done.
  split; [done|]. exact (run_mcl_outcome power_nat m 2 (1 + 1) 1 3 0 true H).
Defined.

Section Console.
Variable fpow : Qc → Qc → Qc.
Variable expansion : N.
Variables inflation pruning : Qc.

(** What the loop of [run_mcl] prints and returns, in terms of the list
    [ms] of the matrices that the successive calls of [iterate] returned
    and of whether the loop was left by [break]. *)
Lemma mcl_loop_trace k :
  ∀ i m verbose out m' out',
    mcl_loop fpow k i m expansion inflation pruning verbose out = Ok (m', out') →
    ∃ (ms : list matrix) (conv : bool),
      out' = out ++ (if verbose then PrintMatrix <$> ms else [])
                 ++ (if conv then [PrintConverged (i + pred (length ms))] else []) ∧
      last (m :: ms) = Some m' ∧
      (if conv then (0 < length ms ≤ k)%nat else length ms = k) ∧
      (∀ j a b, (m :: ms) !! j = Some a → ms !! j = Some b →
                iterate fpow a expansion inflation pruning = Ok b) ∧
      rounds fpow expansion inflation pruning (length ms) (Running m)
      = Ok (if conv then Done m' else Running m').
Proof.
  induction k as [|k IH]; intros i m verbose out m' out' Hl.
  - injection Hl as <- <-. exists []%list, false.
    split_and!; [by destruct verbose; rewrite ?fmap_nil, !app_nil_r|done|done| |done].
    intros j a b _ Hb. done.
  - cbn [mcl_loop] in Hl.
    destruct (iterate fpow m expansion inflation pruning) as [m1|] eqn:Hit; [|done].
    cbn [mbind result_bind] in Hl.
    destruct (converged m1 m) as [c|] eqn:Hc; [|done]. cbn [mbind result_bind] in Hl.
    assert (∀ j a b, (m :: [m1])%list !! j = Some a → [m1]%list !! j = Some b →
                     iterate fpow a expansion inflation pruning = Ok b) as Hone.
    { intros [|j] a b Ha Hb; [|by destruct j]. simpl in Ha, Hb. congruence. }
    destruct c.
    + injection Hl as <- <-. exists [m1]%list, true. cbn [length pred].
      split_and!; [|done|lia|lia|done|].
      * rewrite Nat.add_0_r. destruct verbose; [|done]. by rewrite <- app_assoc.
      * cbn [rounds]. rewrite round_iterate, Hit. cbn [mbind result_bind].
        rewrite Hc. done.
    + destruct (IH _ _ _ _ _ _ Hl) as (ms & conv & -> & Hlast & Hlen & Hchain & Hr).
      exists (m1 :: ms), conv. split_and!.
      * assert (∀ tl, (if verbose then out ++ [PrintMatrix m1]%list else out)
                      ++ (if verbose then PrintMatrix <$> ms else []) ++ tl
                      = out ++ (if verbose then PrintMatrix <$> m1 :: ms else []) ++ tl)
          as -> by (intros tl; destruct verbose; [by rewrite <- app_assoc|done]).
        do 2 f_equal. destruct conv; [|done]. do 2 f_equal. cbn [length pred]. lia.
      * done.
      * cbn [length]. destruct conv; lia.
      * intros [|j] a b Ha Hb; [simpl in Ha, Hb; congruence|]. by eapply Hchain.
      * cbn [length rounds]. rewrite round_iterate, Hit. cbn [mbind result_bind].
        rewrite Hc. done.
Qed.
End Console.

(** X8.  What [run_mcl] prints.  Let [ms] be the matrices returned by the
    successive calls of [iterate] on the normalized seed.  A run that
    returns prints exactly: with [verbose], each of these matrices in
    turn; and, when the loop ended by convergence, one final line
    "Converged after i iterations" in which [i] is the zero-based loop
    index, one less than the number of passes of [iterate] performed.
    Without [verbose] nothing else is printed; when the cap is exhausted
    without convergence, all [iterations] passes were made and there is
    no message.  The matrix returned is the last one computed. *)
Theorem run_mcl_console (fpow : Qc → Qc → Qc) (m : matrix) (expansion : N)
    (inflation loop_value : Qc) (iterations : nat) (pruning : Qc) (verbose : bool)
    (m' : matrix) (out : list output) :
  run_mcl_out fpow m expansion inflation loop_value iterations pruning verbose
  = Ok (m', out) →
  ∃ (seed : matrix) (ms : list matrix) (conv : bool),
    (m0 ← add_self_loops m loop_value; normalize m0) = Ok seed ∧
    out = (if verbose then PrintMatrix <$> ms else [])%list
          ++ (if conv then [PrintConverged (pred (length ms))] else [])%list ∧
    last (seed :: ms) = Some m' ∧
    (if conv then (0 < length ms ≤ iterations)%nat else length ms = iterations) ∧
    (∀ j a b, (seed :: ms) !! j = Some a → ms !! j = Some b →
              iterate fpow a expansion inflation pruning = Ok b) ∧
    rounds fpow expansion inflation pruning (length ms) (Running seed)
    = Ok (if conv then Done m' else Running m').
Proof.
  intros Hrun. unfold run_mcl_out in Hrun.
  destruct (add_self_loops m loop_value) as [m0|]; [|done].
  cbn [mbind result_bind] in *.
  destruct (normalize m0) as [seed|]; [|done]. cbn [mbind result_bind] in Hrun.
  destruct (mcl_loop_trace fpow expansion inflation pruning _ _ _ _ _ _ _ Hrun)
    as (ms & conv & Hout & Hlast & Hlen & Hchain & Hr).
  exists seed, ms, conv. split_and!; done.
Qed.

Lemma run_mcl_console_witness :
  let m := Dense 2 2 [[0; 1]; [1; 0]] in
  let half := Q2Qc (1 # 2) in
  let m' := Dense 2 2 [[half; half]; [half; half]] in
  let out := [PrintMatrix m'; PrintConverged 0]%list in
  run_mcl_out power_nat m 2 (1 + 1) 1 10 default_pruning true = Ok (m', out) ∧
  ∃ (seed : matrix) (ms : list matrix) (conv : bool),
    (m0 ← add_self_loops m 1; normalize m0) = Ok seed ∧
    out = (if true then PrintMatrix <$> ms else [])%list
          ++ (if conv then [PrintConverged (pred (length ms))] else [])%list ∧
    last (seed :: ms) = Some m' ∧
    (if conv then (0 < length ms ≤ 10)%nat else length ms = 10%nat) ∧
    (∀ j a b, (seed :: ms) !! j = Some a → ms !! j = Some b →
              iterate power_nat a 2 (1 + 1) default_pruning = Ok b) ∧
    rounds power_nat 2 (1 + 1) default_pruning (length ms) (Running seed)
    = Ok (if conv then Done m' else Running m').
Proof.
  intros m half m' out.
  assert (run_mcl_out power_nat m 2 (1 + 1) 1 10 default_pruning true = Ok (m', out))
    as H by compute_done.
  split; [exact H|].
  exact (run_mcl_console power_nat m 2 (1 + 1) 1 10 default_pruning true m' out H).
Defined.

(** ** New objects *)

Lemma store_bind_inv {A B} (f : Store.prog A) (g : A → Store.prog B) h b h' :
  (f ≫= g) h = Ok (b, h') → ∃ a h1, f h = Ok (a, h1) ∧ g a h1 = Ok (b, h').
Proof.
  unfold mbind, Store.prog_bind. destruct (f h) as [[a h1]|]; [|done]. eauto.
Qed.

Lemma grows_bind {A B} (f : Store.prog A) (g : A → Store.prog B) :
  grows f → (∀ a, grows (g a)) → grows (f ≫= g).
Proof.
  intros Hf Hg h b h' (a & h1 & H1 & H2)%store_bind_inv.
  specialize (Hf _ _ _ H1). specialize (Hg _ _ _ _ H2). simpl in *. set_solver.
Qed.

Lemma returns_new_bind {A} (f : Store.prog A) (g : A → Store.prog Store.ref) :
  grows f → (∀ a, returns_new (g a)) → returns_new (f ≫= g).
Proof.
  intros Hf Hg h b h' (a & h1 & H1 & H2)%store_bind_inv.
  specialize (Hf _ _ _ H1). destruct (Hg _ _ _ _ H2) as [Hn Hd]. simpl in *.
  set_solver.
Qed.

Lemma returns_new_then (f : Store.prog Store.ref) (g : Store.ref → Store.prog Store.ref) :
  returns_new f → (∀ a, returns_or_new a (g a)) → returns_new (f ≫= g).
Proof.
  intros Hf Hg h b h' (a & h1 & H1 & H2)%store_bind_inv.
  destruct (Hf _ _ _ H1) as [Ha Hd]. destruct (Hg _ _ _ _ H2) as [[->|Hn] Hd'].
  - split; [done|set_solver].
  - split; set_solver.
Qed.

Lemma returns_or_new_bind {A} l0 (f : Store.prog A) (g : A → Store.prog Store.ref) :
  grows f → (∀ a, returns_or_new l0 (g a)) → returns_or_new l0 (f ≫= g).
Proof.
  intros Hf Hg h b h' (a & h1 & H1 & H2)%store_bind_inv.
  specialize (Hf _ _ _ H1). destruct (Hg _ _ _ _ H2) as [[->|Hn] Hd']; simpl in *.
  - split; [by left|set_solver].
  - split; [right|]; set_solver.
Qed.

Lemma returns_or_new_ret l0 : returns_or_new l0 (mret l0).
Proof. intros h l h' [= <- <-]. split; [by left|done]. Qed.

Lemma returns_new_or_new l0 f : returns_new f → returns_or_new l0 f.
Proof. intros Hf h l h' H. destruct (Hf _ _ _ H). split; [by right|done]. Qed.

Lemma returns_new_grows f : returns_new f → grows f.
Proof. intros Hf h l h' H. by destruct (Hf _ _ _ H). Qed.

Lemma returns_or_new_grows l0 f : returns_or_new l0 f → grows f.
Proof. intros Hf h l h' H. by destruct (Hf _ _ _ H). Qed.

Lemma grows_ret {A} (a : A) : grows (mret a : Store.prog A).
Proof. by intros h a' h' [= <- <-]. Qed.

Lemma grows_get l : grows (Store.get l).
Proof.
  intros h m h'. unfold Store.get. destruct (h !! l); [|done]. by intros [= <- <-].
Qed.

Lemma grows_lift {A} (r : result A) : grows (Store.lift r).
Proof. intros h a h'. unfold Store.lift. destruct r; [|done]. by intros [= <- <-]. Qed.

Lemma grows_put l m : grows (Store.put l m).
Proof. intros h a h' [= <- <-]. simpl. rewrite dom_insert. set_solver. Qed.

Lemma returns_new_new m : returns_new (Store.new m).
Proof.
  intros h l h' [= <- <-]. split; [apply is_fresh|]. rewrite dom_insert. set_solver.
Qed.

Lemma returns_new_copy l : returns_new (Store.copy l).
Proof. apply returns_new_bind; [apply grows_get|apply returns_new_new]. Qed.

Lemma returns_or_new_todok l : returns_or_new l (Store.todok l).
Proof.
  apply returns_or_new_bind; [apply grows_get|]. intros m.
  destruct m as [|fmt nr nc d]; [apply returns_new_or_new, returns_new_new|].
  destruct fmt; (apply returns_or_new_ret || apply returns_new_or_new, returns_new_new).
Qed.

Lemma returns_or_new_tocsc l : returns_or_new l (Store.tocsc l).
Proof.
  apply returns_or_new_bind; [apply grows_get|]. intros m.
  destruct m as [|fmt nr nc d]; [apply returns_new_or_new, returns_new_new|].
  destruct fmt; (apply returns_or_new_ret || apply returns_new_or_new, returns_new_new).
Qed.

Lemma grows_setitem l i j v : grows (Store.setitem l i j v).
Proof.
  apply grows_bind; [apply grows_get|]. intros m.
  apply grows_bind; [apply grows_lift|]. intros m'. apply grows_put.
Qed.

Lemma grows_set_diagonal range l v : grows (Store.set_diagonal range l v).
Proof.
  induction range as [|i range IH]; cbn [Store.set_diagonal]; [apply grows_ret|].
  apply grows_bind; [apply grows_setitem|]. by intros _.
Qed.

Lemma grows_converged l1 l2 : grows (Store.converged l1 l2).
Proof.
  apply grows_bind; [apply grows_get|]. intros m1.
  apply grows_bind; [apply grows_get|]. intros m2. apply grows_lift.
Qed.

Lemma returns_new_normalize l : returns_new (Store.normalize l).
Proof.
  apply returns_new_bind; [apply grows_get|]. intros m.
  apply returns_new_bind; [apply grows_lift|]. intros m'. apply returns_new_new.
Qed.

Lemma returns_or_new_expand l power : returns_or_new l (Store.expand l power).
Proof.
  apply returns_or_new_bind; [apply grows_get|]. intros m.
  apply returns_or_new_bind; [apply grows_lift|]. intros m'.
  destruct (negb (isspmatrix m) && bool_decide (power = 1%N));
    [apply returns_or_new_ret|apply returns_new_or_new, returns_new_new].
Qed.

Lemma returns_new_prune l threshold : returns_new (Store.prune l threshold).
Proof.
  unfold Store.prune. apply returns_new_bind; [apply grows_get|]. intros m.
  destruct m as [nr nc rows|fmt nr nc d].
  - apply returns_new_then; [apply returns_new_copy|]. intros pruned.
    apply returns_or_new_bind; [apply grows_get|]. intros p.
    apply returns_or_new_bind; [|intros _; apply returns_or_new_ret].
    destruct p; [apply grows_put|apply grows_ret].
  - apply returns_new_then; [apply returns_new_new|]. intros pruned.
    apply returns_or_new_bind; [apply grows_lift|]. intros mask.
    apply returns_or_new_bind; [apply grows_lift|]. intros values.
    apply returns_or_new_bind; [apply grows_lift|]. intros mask'.
    apply returns_or_new_bind; [apply grows_get|]. intros p.
    apply returns_or_new_bind; [|intros _; apply returns_or_new_tocsc].
    destruct p; [apply grows_ret|apply grows_put].
Qed.

Section NewObjects.
Variable fpow : Qc → Qc → Qc.

Lemma returns_new_inflate l power : returns_new (Store.inflate fpow l power).
Proof.
  apply returns_new_bind; [apply grows_get|]. intros m.
  apply returns_new_bind; [apply returns_new_grows, returns_new_new|]. intros p.
  apply returns_new_normalize.
Qed.

Lemma returns_new_iterate l expansion inflation pruning :
  returns_new (Store.iterate fpow l expansion inflation pruning).
Proof.
  apply returns_new_bind; [eapply returns_or_new_grows, returns_or_new_expand|].
  intros l1. apply returns_new_then; [apply returns_new_inflate|]. intros l2.
  destruct (decide (0 < pruning));
    [apply returns_new_or_new, returns_new_prune|apply returns_or_new_ret].
Qed.

Lemma returns_or_new_mcl_loop k expansion inflation pruning :
  ∀ l, returns_or_new l (Store.mcl_loop fpow k l expansion inflation pruning).
Proof.
  induction k as [|k IH]; intros l; cbn [Store.mcl_loop]; [apply returns_or_new_ret|].
  apply returns_or_new_bind; [apply returns_new_grows, returns_new_copy|]. intros last_mat.
  apply returns_new_or_new, returns_new_then; [apply returns_new_iterate|]. intros l1.
  apply returns_or_new_bind; [apply grows_converged|]. intros c.
  destruct c; [apply returns_or_new_ret|apply IH].
Qed.

Lemma grows_add_self_loops l loop_value : grows (Store.add_self_loops l loop_value).
Proof.
  apply grows_bind; [apply grows_get|]. intros m. cbv zeta.
  destruct (decide _); [|apply grows_lift].
  apply grows_bind.
  { destruct (isspmatrix m);
      [eapply returns_or_new_grows, returns_or_new_todok
      |apply returns_new_grows, returns_new_copy]. }
  intros nm. apply grows_bind; [apply grows_set_diagonal|]. intros _.
  destruct (isspmatrix m);
    [eapply returns_or_new_grows, returns_or_new_tocsc|apply grows_ret].
Qed.

Lemma returns_new_run_mcl l expansion inflation loop_value iterations pruning :
  returns_new (Store.run_mcl fpow l expansion inflation loop_value iterations pruning).
Proof.
  apply returns_new_bind; [apply grows_add_self_loops|]. intros l1.
  apply returns_new_then; [apply returns_new_normalize|]. intros l2.
  apply returns_or_new_mcl_loop.
Qed.
End NewObjects.

Lemma set_diagonal_dok range :
  ∀ m v m', is_dok m = true → set_diagonal range m v = Ok m' → is_dok m' = true.
Proof.
  induction range as [|i range IH]; intros m v m' Hm Hs; cbn [set_diagonal] in Hs.
  - by injection Hs as <-.
  - destruct (setitem m i i v) as [m1|] eqn:H1; [|done]. cbn [mbind result_bind] in Hs.
    apply (IH m1 v m'); [|done]. unfold setitem in H1.
    destruct (decide _) in H1; [|done].
    destruct m as [|fmt nr nc d]; [done|]. injection H1 as <-. done.
Qed.

(** [add_self_loops] returns a new object, also when it has written into
    its argument. *)
Lemma returns_new_add_self_loops l loop_value :
  returns_new (Store.add_self_loops l loop_value).
Proof.
  intros h l' h' H. split; [|by apply (grows_add_self_loops l loop_value h l' h')].
  unfold Store.add_self_loops in H.
  apply store_bind_inv in H as (m & h1 & H1 & H).
  unfold Store.get in H1. destruct (h !! l) as [m0|] eqn:Hl; [|done].
  injection H1 as Hm Hh. subst m0 h1. cbv zeta in H.
  destruct (decide _) in H; [|done].
  apply store_bind_inv in H as (nm & h2 & H2 & H).
  apply store_bind_inv in H as (u & h3 & H3 & H4).
  pose proof (grows_set_diagonal _ _ _ _ _ _ H3) as Hg3. simpl in Hg3.
  destruct m as [nr nc rows|fmt nr nc d]; cbn [isspmatrix] in *.
  - destruct (returns_new_copy l _ _ _ H2) as [Hn _]. by injection H4 as <- <-.
  - destruct (decide (fmt = DOK)) as [->|Hfmt].
    + assert (nm = l ∧ h2 = h) as [-> ->].
      { unfold Store.todok in H2. rewrite (store_bind_Ok _ _ _ _ _ (store_get h l _ Hl)) in H2.
        by injection H2 as <- <-. }
      pose proof (store_set_diagonal (seq 0 (shape (Sparse DOK nr nc d)).1) h l _
                    loop_value Hl) as Hd.
      destruct (set_diagonal _ _ loop_value) as [m'|] eqn:Hm'; [|congruence].
      rewrite H3 in Hd. injection Hd as Hh3. subst h3.
      pose proof (set_diagonal_dok _ (Sparse DOK nr nc d) _ _ eq_refl Hm') as Hdok.
      unfold Store.tocsc in H4.
      rewrite (store_bind_Ok _ _ _ _ _ (store_get _ l m' (lookup_insert_eq _ _ _))) in H4.
      destruct m' as [|fmt' nr' nc' d']; [done|]. destruct fmt'; try done.
      destruct (returns_new_new _ _ _ _ H4) as [Hn _]. rewrite dom_insert in Hn.
      set_solver.
    + assert ((nm ∉ dom h) ∧ (dom h ⊆ dom h2)) as [Hn Hd2].
      { unfold Store.todok in H2.
        rewrite (store_bind_Ok _ _ _ _ _ (store_get h l _ Hl)) in H2.
        destruct fmt; try done; by apply (returns_new_new _ _ _ _ H2). }
      destruct (returns_or_new_tocsc nm _ _ _ H4) as [[->|Hn'] _]; [done|]. set_solver.
Qed.

(** X13.  The functions return new objects.  Whatever the store holds,
    [add_self_loops], [normalize], [inflate], [prune], [iterate] and
    [run_mcl] return, when they return, a matrix object that did not
    exist before the call (for [add_self_loops] and [run_mcl] also when
    the argument is in DOK format and has been written into), and no
    object disappears.  Only [expand] can hand back its argument: on a
    dense matrix with power 1 it returns the argument object itself and
    leaves the store as it is, and in every other case a new object. *)
Theorem results_are_new_objects (fpow : Qc → Qc → Qc) (h : gmap Store.ref matrix)
    (l : Store.ref) (m : matrix) :
  h !! l = Some m →
  (∀ loop_value, returns_new (Store.add_self_loops l loop_value)) ∧
  returns_new (Store.normalize l) ∧
  (∀ power, returns_new (Store.inflate fpow l power)) ∧
  (∀ threshold, returns_new (Store.prune l threshold)) ∧
  (∀ expansion inflation pruning,
     returns_new (Store.iterate fpow l expansion inflation pruning)) ∧
  (∀ expansion inflation loop_value iterations pruning,
     returns_new (Store.run_mcl fpow l expansion inflation loop_value iterations pruning)) ∧
  (∀ power l' h', Store.expand l power h = Ok (l', h') →
     if negb (isspmatrix m) && bool_decide (power = 1%N)
     then l' = l ∧ h' = h
     else (l' ∉ dom h) ∧ (h ⊆ h')).
Proof.
  intros Hl. split_and!.
  - apply returns_new_add_self_loops.
  - apply returns_new_normalize.
  - apply returns_new_inflate.
  - apply returns_new_prune.
  - apply returns_new_iterate.
  - apply returns_new_run_mcl.
  - intros power l' h' He. unfold Store.expand in He.
    rewrite (store_bind_Ok _ _ _ _ _ (store_get h l m Hl)) in He.
    apply store_bind_inv in He as (m' & h1 & H1 & He).
    unfold Store.lift in H1. destruct (expand m power); [|done]. injection H1 as <- <-.
    destruct (negb (isspmatrix m) && bool_decide (power = 1%N)).
    + by injection He as <- <-.
    + destruct (returns_new_new _ _ _ _ He) as [Hn _]. split; [done|].
      injection He as <- <-. apply store_insert_fresh, store_new_fresh.
Qed.

Lemma results_are_new_objects_witness :
  let m := Dense 1 1 [[1]]%list in
  let h : gmap Store.ref matrix := {[ 1%positive := m ]} in
  let l := 1%positive in
  h !! l = Some m ∧
  (∀ loop_value, returns_new (Store.add_self_loops l loop_value)) ∧
  returns_new (Store.normalize l) ∧
  (∀ power, returns_new (Store.inflate power_nat l power)) ∧
  (∀ threshold, returns_new (Store.prune l threshold)) ∧
  (∀ expansion inflation pruning,
     returns_new (Store.iterate power_nat l expansion inflation pruning)) ∧
  (∀ expansion inflation loop_value iterations pruning,
     returns_new (Store.run_mcl power_nat l expansion inflation loop_value
                    iterations pruning)) ∧
  (∀ power l' h', Store.expand l power h = Ok (l', h') →
     if negb (isspmatrix m) && bool_decide (power = 1%N)
     then l' = l ∧ h' = h
     else (l' ∉ dom h) ∧ (h ⊆ h')).
Proof.
  intros m h l. assert (h !! l = Some m) as H by done.
  split; [done|]. exact (results_are_new_objects power_nat h l m H).
Defined.

(** ** Calls that only allocate *)

Lemma refines_Ok (f : Store.prog Store.ref) r (h : gmap Store.ref matrix) l' h' :
  refines f r h → f h = Ok (l', h') →
  h ⊆ h' ∧ ∃ m', r = Ok m' ∧ h' !! l' = Some m'.
Proof.
  unfold refines. destruct r as [m'|e]; [|congruence].
  intros (l1 & h1 & H1 & Hsub & Hl1) H. rewrite H in H1. injection H1 as <- <-. eauto.
Qed.

Lemma refines_Raise (f : Store.prog Store.ref) r (h : gmap Store.ref matrix) e :
  refines f r h → f h = Raise e ↔ r = Raise e.
Proof.
  unfold refines. destruct r as [m'|e'].
  - intros (l1 & h1 & H1 & _). split; congruence.
  - intros ->. split; congruence.
Qed.

(** X14.  [normalize], [expand], [inflate] and [iterate] have no side
    effect on matrices.  Called on a reference to the matrix [m] in any
    store, each of them leaves every object of the store exactly as it
    was (the store before the call is a part of the store after it), the
    object it returns holds the matrix that the function computes from
    [m], and it raises exactly the exception that this computation
    raises. *)
Theorem calls_only_allocate (fpow : Qc → Qc → Qc) (h : gmap Store.ref matrix)
    (l : Store.ref) (m : matrix) (expansion : N) (inflation pruning : Qc) :
  h !! l = Some m →
  only_allocates h (Store.normalize l) (normalize m) ∧
  only_allocates h (Store.expand l expansion) (expand m expansion) ∧
  only_allocates h (Store.inflate fpow l inflation) (inflate fpow m inflation) ∧
  only_allocates h (Store.iterate fpow l expansion inflation pruning)
                   (iterate fpow m expansion inflation pruning).
Proof.
  intros Hl.
  assert (∀ f r, refines f r h → only_allocates h f r) as Hu.
  { intros f r Hr. split.
    - intros l' h'. by apply refines_Ok.
    - intros e. by apply refines_Raise. }
  split_and!; apply Hu.
  - by apply normalize_refines.
  - by apply expand_refines.
  - by apply inflate_refines.
  - by apply iterate_refines.
Qed.

Lemma calls_only_allocate_witness :
  let m := Sparse DOK 2 2 {[ (0, 0)%nat := 1; (1, 0)%nat := 1; (1, 1)%nat := 1 ]} in
  let h : gmap Store.ref matrix := {[ 1%positive := m ]} in
  let l := 1%positive in
  h !! l = Some m ∧
  only_allocates h (Store.normalize l) (normalize m) ∧
  only_allocates h (Store.expand l 2) (expand m 2) ∧
  only_allocates h (Store.inflate power_nat l (1 + 1)) (inflate power_nat m (1 + 1)) ∧
  only_allocates h (Store.iterate power_nat l 2 (1 + 1) default_pruning)
                   (iterate power_nat m 2 (1 + 1) default_pruning).
Proof.
  intros m h l. assert (h !! l = Some m) as H by done.
  split; [done|]. exact (calls_only_allocate power_nat h l m 2 (1 + 1) default_pruning H).
Defined.

(** ** The iteration cap *)

Section Cap.
Variable fpow : Qc → Qc → Qc.
Variable expansion : N.
Variables inflation pruning : Qc.

Lemma mcl_loop_raise_cap k :
  ∀ i m verbose out m' tl j k',
    (∀ x, PrintConverged x ∉ out) →
    mcl_loop fpow k i m expansion inflation pruning verbose out
    = Ok (m', tl ++ [PrintConverged j]) →
    (k ≤ k')%nat →
    mcl_loop fpow k' i m expansion inflation pruning verbose out
    = Ok (m', tl ++ [PrintConverged j]).
Proof.
  induction k as [|k IH]; intros i m verbose out m' tl j k' Hout Hl Hk.
  - injection Hl as -> ->. exfalso. apply (Hout j).
    apply elem_of_app. right. apply list_elem_of_here.
  - destruct k' as [|k']; [lia|]. cbn [mcl_loop] in *.
    destruct (iterate fpow m expansion inflation pruning) as [m1|]; [|done].
    cbn [mbind result_bind] in *.
    destruct (converged m1 m) as [c|]; [|done]. cbn [mbind result_bind] in *.
    destruct c; [done|]. apply IH; [|done|lia].
    intros x. destruct verbose; [|done].
    intros [Hin|Hin]%elem_of_app; [by eapply Hout|].
    by apply list_elem_of_singleton in Hin.
Qed.
End Cap.

(** X15.  Raising the iteration cap beyond the point of convergence
    changes nothing: when [run_mcl] with the cap [iterations] ends with
    the message "Converged after j iterations", it returns the same
    matrix and prints the same lines with every larger cap. *)
Theorem run_mcl_cap_irrelevant_after_convergence (fpow : Qc → Qc → Qc) (m : matrix)
    (expansion : N) (inflation loop_value : Qc) (iterations iterations' : nat)
    (pruning : Qc) (verbose : bool) (m' : matrix) (tl : list output) (j : nat) :
  run_mcl_out fpow m expansion inflation loop_value iterations pruning verbose
  = Ok (m', tl ++ [PrintConverged j]) →
  (iterations ≤ iterations')%nat →
  run_mcl_out fpow m expansion inflation loop_value iterations' pruning verbose
  = Ok (m', tl ++ [PrintConverged j]) ∧
  run_mcl fpow m expansion inflation loop_value iterations' pruning verbose
  = run_mcl fpow m expansion inflation loop_value iterations pruning verbose.
Proof.
  intros Hrun Hk.
  assert (run_mcl_out fpow m expansion inflation loop_value iterations' pruning verbose
          = Ok (m', tl ++ [PrintConverged j])) as Hrun'.
  { unfold run_mcl_out in *.
    destruct (add_self_loops m loop_value) as [m0|]; [|done].
    cbn [mbind result_bind] in *.
    destruct (normalize m0) as [seed|]; [|done]. cbn [mbind result_bind] in *.
    apply (mcl_loop_raise_cap fpow expansion inflation pruning iterations); [|done..].
    intros x. apply not_elem_of_nil. }
  split; [done|]. unfold run_mcl. by rewrite Hrun, Hrun'.
Qed.

Lemma run_mcl_cap_irrelevant_after_convergence_witness :
  let m := Dense 2 2 [[0; 1]; [1; 0]] in
  let half := Q2Qc (1 # 2) in
  let m' := Dense 2 2 [[half; half]; [half; half]] in
  run_mcl_out power_nat m 2 (1 + 1) 1 1 default_pruning false
  = Ok (m', [] ++ [PrintConverged 0])%list ∧
  (1 ≤ 10)%nat ∧
  run_mcl_out power_nat m 2 (1 + 1) 1 10 default_pruning false
  = Ok (m', [] ++ [PrintConverged 0])%list ∧
  run_mcl power_nat m 2 (1 + 1) 1 10 default_pruning false
  = run_mcl power_nat m 2 (1 + 1) 1 1 default_pruning false.
Proof.
  intros m half m'.
  assert (run_mcl_out power_nat m 2 (1 + 1) 1 1 default_pruning false
          = Ok (m', [] ++ [PrintConverged 0])%list) as H1 by compute_done.
  assert (1 ≤ 10)%nat as H2 by lia.
  split_and!; [done..| |];
    by destruct (run_mcl_cap_irrelevant_after_convergence power_nat m 2 (1 + 1) 1 1 10
                   default_pruning false m' []%list 0 H1 H2).
Defined.
